(** * Jeux game server: a shallow embedding of the C sources

    The development follows the modules of the server: [game.c],
    [player.c], [protocol.c], [invitation.c], [client.c],
    [client_registry.c], [server.c] and [main.c].

    Conventions of the embedding.
    - C objects reached through pointers (clients, invitations, games,
      players) live in finite maps keyed by their address, a [nat]; two
      lists that hold the same address alias the same object.
    - [int] values are [Z]; the one-byte and two-byte header fields are
      reduced modulo 256 and 65536 where the C code stores into them.
      [double] values are IEEE 754 binary64 numbers.
    - Reference counts and the per-object mutexes are left out.  What is
      said of an object is said of the fields kept here; nothing is said
      of its reference count, nor of the moment at which the code frees
      it.  Every run considered is the sequential run of one thread, in
      which no [P] on a mutex can wait, but for [two_logins], one
      schedule of two threads.  The registry's [empty] semaphore, which
      is the shutdown barrier, is modelled with its counter.
    - A function that may dereference an invalid pointer or wait forever
      on a semaphore returns an [outcome]. *)

From Stdlib Require Import ZArith SpecFloat Ascii String List Lia Bool
  DecimalString.
From stdpp Require Import base option list gmap strings.

Local Open Scope Z_scope.

(** ** game.c *)

Module Game.

(** Modelled from the spec: the enumeration [GAME_ROLE], which [game.h]
    defines: NULL=0, FIRST_PLAYER=1, SECOND_PLAYER=2.  The code compares
    roles with the integers 0, 1 and 2. *)
Definition GAME_ROLE := Z.
Definition NULL_ROLE : GAME_ROLE := 0.
Definition FIRST_PLAYER_ROLE : GAME_ROLE := 1.
Definition SECOND_PLAYER_ROLE : GAME_ROLE := 2.

Record GAME := mkGAME {
  winner : Z;              (* -1 while the game is not over *)
  nextmover : GAME_ROLE;
  board : list GAME_ROLE   (* GAME_ROLE board[9] *)
}.

Record GAME_MOVE := mkMOVE {
  spot : Z;
  role : GAME_ROLE
}.

(** [board[i]] for an index inside the array. *)
Definition cell (b : list GAME_ROLE) (i : nat) : GAME_ROLE := default 0 (b !! i).

Definition game_create : GAME :=
  {| winner := -1; nextmover := 1; board := replicate 9 0 |}.

(** The loop of [check] that looks for an empty square. *)
Definition zero_found (b : list GAME_ROLE) : bool :=
  existsb (fun i => cell b i =? 0) (seq 0 9).

(** One of the eight tests [(board[a] == board[b]) && (board[a] == board[c])
    && (board[a] != 0)]. *)
Definition pattern (b : list GAME_ROLE) (x y z : nat) : bool :=
  (cell b x =? cell b y) && (cell b x =? cell b z) && negb (cell b x =? 0).

Definition check (b : list GAME_ROLE) : GAME_ROLE :=
  if negb (zero_found b) then 0
  else if pattern b 2 4 6 then cell b 2
  else if pattern b 0 4 8 then cell b 0
  else if pattern b 2 5 8 then cell b 2
  else if pattern b 1 4 7 then cell b 1
  else if pattern b 0 3 6 then cell b 0
  else if pattern b 6 7 8 then cell b 6
  else if pattern b 3 4 5 then cell b 3
  else if pattern b 0 1 2 then cell b 0
  else -1.

(** [game_apply_move]: [None] is the return value -1, [Some g] is return
    value 0 with the game left in state [g]. *)
Definition game_apply_move (game : GAME) (move : GAME_MOVE) : option GAME :=
  if (spot move <? 0) || (spot move >? 8) then None
  else if (role move <? 1) || (role move >? 2) then None
  else if negb (winner game =? -1) then None
  else if negb (cell (board game) (Z.to_nat (spot move)) =? 0) then None
  else
    let board' := <[Z.to_nat (spot move) := role move]> (board game) in
    Some {| winner := check board';
            nextmover := if nextmover game =? 1 then 2 else 1;
            board := board' |}.

Definition game_resign (game : GAME) (r : GAME_ROLE) : option GAME :=
  if r =? NULL_ROLE then None
  else if negb (r =? 1) && negb (r =? 2) then None
  else if negb (winner game =? -1) then None
  else if r =? 1
       then Some {| winner := SECOND_PLAYER_ROLE; nextmover := nextmover game;
                    board := board game |}
       else Some {| winner := FIRST_PLAYER_ROLE; nextmover := nextmover game;
                    board := board game |}.

Definition game_is_over (game : GAME) : bool := negb (winner game =? -1).

Definition game_get_winner (game : GAME) : GAME_ROLE := winner game.

(** [atoi] on the one-character string [nstr]: the digit's value, and 0
    for any other character (the terminator of an empty string included). *)
Definition atoi1 (c : ascii) : Z :=
  let n := Z.of_nat (nat_of_ascii c) in
  if (48 <=? n) && (n <=? 57) then n - 48 else 0.

(** [str[0]] of a C string: the terminating NUL when the string is empty. *)
Definition first_char (str : string) : ascii :=
  match str with
  | EmptyString => Ascii.zero
  | String c _ => c
  end.

Definition game_parse_move (game : GAME) (r : GAME_ROLE) (str : string)
  : option GAME_MOVE :=
  if (r <? 0) || (r >? 2) then None
  else if (r =? NULL_ROLE) && negb (r =? nextmover game) then None
  else Some {| role := r; spot := atoi1 (first_char str) - 1 |}.

Definition role_to_xo (r : GAME_ROLE) : ascii :=
  if r =? 1 then "X"%char
  else if r =? 2 then "O"%char
  else if r =? 0 then " "%char
  else Ascii.zero.

(** One row of the board followed by a newline. *)
Definition row_string (b : list GAME_ROLE) (j : nat) : string :=
  String (role_to_xo (cell b j))
    (String "|" (String (role_to_xo (cell b (j + 1)))
       (String "|" (String (role_to_xo (cell b (j + 2)))
          (String "010" EmptyString))))).

Definition rule_string : string := "-----" ++ String "010" EmptyString.

(** [fill_string]: the 40 characters written before the terminator. *)
Definition fill_string (b : list GAME_ROLE) (next : GAME_ROLE) : string :=
  row_string b 0 ++ rule_string ++ row_string b 3 ++ rule_string
  ++ row_string b 6
  ++ String (role_to_xo next) (" to move" ++ String "010" EmptyString).

Definition game_unparse_state (game : GAME) : string :=
  fill_string (board game) (nextmover game).

(** Storing an [int] into a [char]. *)
Definition char_of_int (x : Z) : ascii := ascii_of_nat (Z.to_nat (x mod 256)).

(** [game_unparse_move]: [None] is the NULL returned for a role that has
    no letter. *)
Definition game_unparse_move (move : GAME_MOVE) : option string :=
  let xo := role_to_xo (role move) in
  if Ascii.eqb xo Ascii.zero then None
  else Some (String (char_of_int (spot move + 49))
               (String "<" (String "-" (String xo EmptyString)))).

End Game.

(** ** player.c *)

Module Player.

Record PLAYER := mkPLAYER {
  username : string;
  rating : Z
}.

(** The arithmetic of [player_post_result] is carried out by the C code
    in [double].  A [double] is an IEEE 754 binary64 number, here a
    [spec_float] of the Standard Library with 53 bits of precision; its
    sum, difference, product and quotient round to nearest, ties to
    even, as those of the C code do.  The two integer operations around
    the arithmetic are kept as they are written: the quotient
    [(R2-R1)/400] is a division of [int]s, which truncates toward zero,
    and the cast [(int)] truncates toward zero. *)

Definition prec : Z := 53.
Definition emax : Z := 1024.

Definition double : Type := spec_float.

Definition double_add : double → double → double := SFadd prec emax.
Definition double_sub : double → double → double := SFsub prec emax.
Definition double_mul : double → double → double := SFmul prec emax.
Definition double_div : double → double → double := SFdiv prec emax.

(** The conversion of an [int] to [double], which loses nothing. *)
Definition double_of_int (n : Z) : double := binary_normalize prec emax n 0 false.

(** The literal [0.5]. *)
Definition half : double := binary_normalize prec emax 1 (-1) false.

(** The cast [(int)x] of a finite [x]: its integer part.  The function
    casts [32*(S-E)] only, which lies between -32 and 32. *)
Definition int_of_double (x : double) : Z :=
  match x with
  | S754_finite s m e =>
      let v := if 0 <=? e then Z.pos m * 2 ^ e else Z.quot (Z.pos m) (2 ^ (- e)) in
      if s then - v else v
  | _ => 0
  end.

(** [pow(10, k)] for an [int] [k], which the call converts to [double]
    without loss.  [pow] is the C library's and not among the sources;
    it is taken by its contract, the [double] nearest to the power,
    which is [5^k * 2^k]:
    - infinity from [10^309] on, which is above the largest [double];
    - zero from [10^-324] down, which is below half the smallest
      positive [double];
    - the integer [5^k] at the scale [2^k], rounded, for the other [k]
      from 0 on;
    - for the other negative [k], with [n = -k], the quotient
      [2^s / 5^n] at the scale [2^(-s-n)], rounded: the quotient is cut
      to an integer and given one more bit, set because the division is
      never exact, and [s] leaves the integer 64 bits at least, more
      than a [double] holds. *)
Definition pow10 (k : Z) : double :=
  if 309 <=? k then S754_infinity false
  else if k <=? -324 then S754_zero false
  else if 0 <=? k then binary_normalize prec emax (5 ^ k) k false
  else
    let n := - k in
    let d := 5 ^ n in
    let s := 64 + Z.log2 d in
    binary_normalize prec emax (2 * (2 ^ s / d) + 1) (- s - n - 1) false.

(** [1/(1 + pow(10, k))] *)
Definition expected_of (k : Z) : double :=
  double_div (double_of_int 1) (double_add (double_of_int 1) (pow10 k)).

(** [E1 = 1/(1 + pow(10, (R2-R1)/400))] *)
Definition expected (Ra Rb : Z) : double :=
  expected_of (Z.quot (Rb - Ra) 400).

(** The scores [S1], [S2] chosen from [result]; [None] for the final
    [else { return; }]. *)
Definition scores (result : Z) : option (double * double) :=
  if result =? 0 then Some (half, half)
  else if result =? 1 then Some (double_of_int 1, double_of_int 0)
  else if result =? 2 then Some (double_of_int 0, double_of_int 1)
  else None.

(** The increment [(int)(32*(S-E))]. *)
Definition rating_change (S E : double) : Z :=
  int_of_double (double_mul (double_of_int 32) (double_sub S E)).

(** The new values of [R1] and [R2] computed from the ratings read at
    entry; [None] when the function returns without an update. *)
Definition post_result_ratings (R1 R2 result : Z) : option (Z * Z) :=
  match scores result with
  | Some (S1, S2) =>
      Some (R1 + rating_change S1 (expected R1 R2),
            R2 + rating_change S2 (expected R2 R1))
  | None => None
  end.

End Player.
(** ** Packets (protocol.h) *)

Module Packet.

(** Modelled from the spec: the packet types, which [protocol.h]
    defines.  The names are those used by the sources; the server only
    compares and stores their codes. *)
Inductive JEUX_PACKET_TYPE :=
  | JEUX_LOGIN_PKT | JEUX_USERS_PKT | JEUX_INVITE_PKT | JEUX_REVOKE_PKT
  | JEUX_ACCEPT_PKT | JEUX_DECLINE_PKT | JEUX_MOVE_PKT | JEUX_RESIGN_PKT
  | JEUX_ACK_PKT | JEUX_NACK_PKT | JEUX_INVITED_PKT | JEUX_REVOKED_PKT
  | JEUX_ACCEPTED_PKT | JEUX_DECLINED_PKT | JEUX_MOVED_PKT
  | JEUX_RESIGNED_PKT | JEUX_ENDED_PKT.

(** An outgoing header.  [hdr_size] holds the payload length that
    [htons] encodes; the two time stamps, read from the clock at send
    time, are not represented. *)
Record JEUX_PACKET_HEADER := mkHDR {
  hdr_type : JEUX_PACKET_TYPE;
  hdr_id : Z;     (* uint8_t *)
  hdr_role : Z;   (* uint8_t *)
  hdr_size : Z    (* uint16_t *)
}.

(** Storing an [int] into a [uint8_t] or [uint16_t] field. *)
Definition uint8 (x : Z) : Z := x mod 256.
Definition uint16 (x : Z) : Z := x mod 65536.

(** [strlen]: the number of characters before the first NUL. *)
Fixpoint strlen (s : string) : nat :=
  match s with
  | EmptyString => O
  | String c s' => if Ascii.eqb c Ascii.zero then O else S (strlen s')
  end.

(** A packet as it appears on a connection: the descriptor written to,
    the header and the payload bytes. *)
Record PACKET := mkPACKET {
  pkt_fd : Z;
  pkt_hdr : JEUX_PACKET_HEADER;
  pkt_payload : string
}.

(** The bytes [proto_send_packet] writes after the header: nothing
    unless [payload_size > 0 && data != NULL], otherwise the first
    [payload_size] bytes of [data]. *)
Definition payload_bytes (hdr : JEUX_PACKET_HEADER) (data : option string) : string :=
  match data with
  | Some d => if 0 <? hdr_size hdr
              then String.substring 0 (Z.to_nat (hdr_size hdr)) d
              else EmptyString
  | None => EmptyString
  end.

End Packet.

(** ** The store shared by the threads *)

Module Store.
Import Game Player Packet.

Inductive INVITATION_STATE :=
  | INV_OPEN_STATE | INV_ACCEPTED_STATE | INV_CLOSED_STATE.

#[export] Instance INVITATION_STATE_eq_dec : EqDecision INVITATION_STATE :=
  ltac:(solve_decision).

(** [struct invitation] of invitation.c; pointers are addresses, a NULL
    [game] is [None]. *)
Record INVITATION := mkINV {
  state : INVITATION_STATE;
  source : nat;
  target : nat;
  source_role : GAME_ROLE;
  target_role : GAME_ROLE;
  game : option nat
}.

(** [struct client] of client.c.  [invlist] is the array of [invlength]
    invitation pointers, [None] for a NULL slot; [invlength] is its
    length. *)
Record CLIENT := mkCLIENT {
  connfd : Z;
  player : option nat;
  invlist : list (option nat)
}.

(** [struct client_registry] of client_registry.c; [empty] is the value
    of the semaphore of that name. *)
Record CLIENT_REGISTRY := mkCREG {
  buf : list (option nat);
  count : Z;
  empty : nat
}.

Record World := mkWorld {
  clients : gmap nat CLIENT;
  invitations : gmap nat INVITATION;
  games : gmap nat GAME;
  players : gmap nat PLAYER;
  brk : nat;                       (* the next address [Malloc] hands out *)
  client_registry : CLIENT_REGISTRY;
  player_registry : list (string * nat);  (* the PMAP entries, in order *)
  sent : list PACKET;              (* packets written so far, oldest first *)
  broken : list Z                  (* descriptors on which a write fails *)
}.

Definition set_clients (f : gmap nat CLIENT → gmap nat CLIENT) (w : World) : World :=
  mkWorld (f (clients w)) (invitations w) (games w) (players w) (brk w)
          (client_registry w) (player_registry w) (sent w) (broken w).
Definition set_invitations (f : gmap nat INVITATION → gmap nat INVITATION) (w : World) : World :=
  mkWorld (clients w) (f (invitations w)) (games w) (players w) (brk w)
          (client_registry w) (player_registry w) (sent w) (broken w).
Definition set_games (f : gmap nat GAME → gmap nat GAME) (w : World) : World :=
  mkWorld (clients w) (invitations w) (f (games w)) (players w) (brk w)
          (client_registry w) (player_registry w) (sent w) (broken w).
Definition set_players (f : gmap nat PLAYER → gmap nat PLAYER) (w : World) : World :=
  mkWorld (clients w) (invitations w) (games w) (f (players w)) (brk w)
          (client_registry w) (player_registry w) (sent w) (broken w).
Definition set_brk (n : nat) (w : World) : World :=
  mkWorld (clients w) (invitations w) (games w) (players w) n
          (client_registry w) (player_registry w) (sent w) (broken w).
Definition set_client_registry (cr : CLIENT_REGISTRY) (w : World) : World :=
  mkWorld (clients w) (invitations w) (games w) (players w) (brk w)
          cr (player_registry w) (sent w) (broken w).
Definition set_player_registry (pr : list (string * nat)) (w : World) : World :=
  mkWorld (clients w) (invitations w) (games w) (players w) (brk w)
          (client_registry w) pr (sent w) (broken w).
Definition set_sent (l : list PACKET) (w : World) : World :=
  mkWorld (clients w) (invitations w) (games w) (players w) (brk w)
          (client_registry w) (player_registry w) l (broken w).
Definition set_broken (l : list Z) (w : World) : World :=
  mkWorld (clients w) (invitations w) (games w) (players w) (brk w)
          (client_registry w) (player_registry w) (sent w) l.

(** The result of running a C function on a store: it returns [a] and
    leaves the store [w]; or it waits forever on a semaphore; or it
    dereferences an address that holds no object. *)
Inductive outcome (A : Type) :=
  | Ret (a : A) (w : World)
  | Blocked
  | Fault.
Arguments Ret {A} a w.
Arguments Blocked {A}.
Arguments Fault {A}.

Definition M (A : Type) : Type := World → outcome A.

Definition ret {A} (a : A) : M A := fun w => Ret a w.

Definition bind {A B} (m : M A) (k : A → M B) : M B :=
  fun w => match m w with
           | Ret a w' => k a w'
           | Blocked => Blocked
           | Fault => Fault
           end.

#[export] Instance M_ret : MRet M := @ret.
#[export] Instance M_bind : MBind M := fun A B k m => bind m k.

Definition fault {A} : M A := fun _ => Fault.
Definition modify (f : World → World) : M unit := fun w => Ret tt (f w).

Definition get_client (p : nat) : M CLIENT :=
  fun w => match clients w !! p with Some c => Ret c w | None => Fault end.
Definition get_invitation (p : nat) : M INVITATION :=
  fun w => match invitations w !! p with Some i => Ret i w | None => Fault end.
Definition get_game (p : nat) : M GAME :=
  fun w => match games w !! p with Some g => Ret g w | None => Fault end.
Definition get_player (p : nat) : M PLAYER :=
  fun w => match players w !! p with Some x => Ret x w | None => Fault end.

Definition put_client (p : nat) (c : CLIENT) : M unit :=
  modify (set_clients (insert p c)).
Definition put_invitation (p : nat) (i : INVITATION) : M unit :=
  modify (set_invitations (insert p i)).
Definition put_game (p : nat) (g : GAME) : M unit :=
  modify (set_games (insert p g)).
Definition put_player (p : nat) (x : PLAYER) : M unit :=
  modify (set_players (insert p x)).

(** [Malloc]: a fresh address. *)
Definition Malloc : M nat :=
  fun w => Ret (brk w) (set_brk (S (brk w)) w).

(** The first index of the array holding [x]: the loops
    [for(i = 0; i < invlength; i++) if(invlist[i] == x) ...]. *)
Fixpoint find_slot (x : option nat) (l : list (option nat)) : option nat :=
  match l with
  | [] => None
  | y :: l' => if decide (y = x) then Some O
               else match find_slot x l' with
                    | Some i => Some (S i)
                    | None => None
                    end
  end.

End Store.

(** ** protocol.c (sending), player.c and invitation.c on the store *)

Module Objects.
Import Game Player Packet Store.

(** [proto_send_packet]: [rio_writen] fails on a broken descriptor, and
    the function then returns -1; otherwise header and payload reach the
    connection. *)
Definition proto_send_packet (fd : Z) (hdr : JEUX_PACKET_HEADER)
    (data : option string) : M Z :=
  fun w =>
    if bool_decide (fd ∈ broken w) then Ret (-1) w
    else Ret 0 (set_sent (sent w ++ [mkPACKET fd hdr (payload_bytes hdr data)]) w).

(** Modelled from the spec: the value of [PLAYER_INITIAL_RATING], which
    [player.h] defines; a player's rating is initially 1500. *)
Definition PLAYER_INITIAL_RATING : Z := 1500.

Definition player_create (name : string) : M nat :=
  p ← Malloc;
  put_player p (mkPLAYER name PLAYER_INITIAL_RATING);;
  ret p.

(** [player_post_result]; a NULL player pointer is [None]. *)
Definition player_post_result (player1 player2 : option nat) (result : Z) : M unit :=
  match player1, player2 with
  | Some p1, Some p2 =>
      x1 ← get_player p1;
      x2 ← get_player p2;
      match post_result_ratings (rating x1) (rating x2) result with
      | Some (R1, R2) =>
          put_player p1 (mkPLAYER (username x1) R1);;
          y2 ← get_player p2;
          put_player p2 (mkPLAYER (username y2) R2)
      | None => ret tt
      end
  | _, _ => ret tt
  end.

Definition inv_create (src tgt : nat) (sr tr : GAME_ROLE) : M nat :=
  p ← Malloc;
  put_invitation p (mkINV INV_OPEN_STATE src tgt sr tr None);;
  ret p.

Definition inv_accept (inv : nat) : M Z :=
  i ← get_invitation inv;
  match state i with
  | INV_OPEN_STATE =>
      g ← Malloc;
      put_game g game_create;;
      put_invitation inv
        (mkINV INV_ACCEPTED_STATE (source i) (target i)
               (source_role i) (target_role i) (Some g));;
      ret 0
  | _ => ret (-1)
  end.

Definition inv_close (inv : nat) (r : GAME_ROLE) : M Z :=
  i ← get_invitation inv;
  match state i with
  | INV_CLOSED_STATE => ret (-1)
  | _ =>
      match game i with
      | Some gp =>
          if r =? NULL_ROLE then ret (-1)
          else
            put_invitation inv
              (mkINV INV_CLOSED_STATE (source i) (target i)
                     (source_role i) (target_role i) (game i));;
            g ← get_game gp;
            match game_resign g r with
            | Some g' => put_game gp g';; ret 0
            | None => ret (-1)
            end
      | None =>
          put_invitation inv
            (mkINV INV_CLOSED_STATE (source i) (target i)
                   (source_role i) (target_role i) (game i));;
          ret 0
      end
  end.

End Objects.

(** ** client.c *)

(** The [id] arguments of the functions below are natural numbers: the
    callers pass the [id] field of a received header, a [uint8_t], or
    the index of a loop over the list. *)

Module Client.
Import Game Player Packet Store Objects.

Definition client_create (fd : Z) : M nat :=
  p ← Malloc;
  put_client p (mkCLIENT fd None []);;
  ret p.

Definition client_send_packet (client : nat) (pkt : JEUX_PACKET_HEADER)
    (data : option string) : M Z :=
  c ← get_client client;
  proto_send_packet (connfd c) pkt data.

Definition client_send_ack (client : nat) (data : option string) (datalen : Z) : M Z :=
  client_send_packet client (mkHDR JEUX_ACK_PKT 0 0 (uint16 datalen)) data.

Definition client_send_nack (client : nat) : M Z :=
  client_send_packet client (mkHDR JEUX_NACK_PKT 0 0 0) None.

(** [client->invlist[id]] for [id < invlength]. *)
Definition invlist_at (c : CLIENT) (id : nat) : option nat :=
  default None (invlist c !! id).

Definition set_invlist (c : CLIENT) (l : list (option nat)) : CLIENT :=
  mkCLIENT (connfd c) (player c) l.

Definition client_add_invitation (client inv : nat) : M Z :=
  c ← get_client client;
  let l := if (length (invlist c) =? 0)%nat then replicate 10 None else invlist c in
  match find_slot None l with
  | Some index =>
      put_client client (set_invlist c (<[index := Some inv]> l));;
      ret (Z.of_nat index)
  | None =>
      let index := length l in
      put_client client
        (set_invlist c (<[index := Some inv]> (l ++ replicate 10 None)));;
      ret (Z.of_nat index)
  end.

Definition client_remove_invitation (client inv : nat) : M Z :=
  c ← get_client client;
  match find_slot (Some inv) (invlist c) with
  | Some i =>
      put_client client (set_invlist c (<[i := None]> (invlist c)));;
      ret (Z.of_nat i)
  | None => ret (-1)
  end.

(** [player_get_name(source->player)]. *)
Definition player_name_of (client : nat) : M string :=
  c ← get_client client;
  match player c with
  | Some pp => p ← get_player pp; ret (username p)
  | None => fault
  end.

Definition client_make_invitation (src tgt : nat) (sr tr : GAME_ROLE) : M Z :=
  invitation ← inv_create src tgt sr tr;
  sourceid ← client_add_invitation src invitation;
  if sourceid =? -1 then ret (-1) else
  targetid ← client_add_invitation tgt invitation;
  if targetid =? -1 then ret (-1) else
  name ← player_name_of src;
  i ← client_send_packet tgt
         (mkHDR JEUX_INVITED_PKT (uint8 targetid) (uint8 tr)
                (uint16 (Z.of_nat (strlen name))))
         (Some name);
  if i =? -1 then ret (-1) else ret sourceid.

Definition client_revoke_invitation (client id : nat) : M Z :=
  c ← get_client client;
  if (length (invlist c) <=? id)%nat then ret (-1) else
  match invlist_at c id with
  | None => ret (-1)
  | Some inv =>
      i ← get_invitation inv;
      if negb (client =? source i)%nat then ret (-1) else
      if bool_decide (game i ≠ None) then ret (-1) else
      sourceid ← client_remove_invitation client inv;
      if sourceid =? -1 then ret (-1) else
      targetid ← client_remove_invitation (target i) inv;
      if targetid =? -1 then ret (-1) else
      client_send_packet (target i)
        (mkHDR JEUX_REVOKED_PKT (uint8 targetid) 0 0) None
  end.

(** [client_decline_invitation].  The calls of [inv_ref] and [inv_unref]
    are left out with the reference counts: the invitation stays in the
    store, where the code frees it once its last reference is gone. *)
Definition client_decline_invitation (client id : nat) : M Z :=
  c ← get_client client;
  if (length (invlist c) <=? id)%nat then ret (-1) else
  match invlist_at c id with
  | None => ret (-1)
  | Some inv =>
      i ← get_invitation inv;
      if negb (client =? target i)%nat then ret (-1) else
      if bool_decide (game i ≠ None) then ret (-1) else
      targetid ← client_remove_invitation client inv;
      if targetid =? -1 then ret (-1) else
      sourceid ← client_remove_invitation (source i) inv;
      if sourceid =? -1 then ret (-1) else
      client_send_packet (source i)
        (mkHDR JEUX_DECLINED_PKT (uint8 sourceid) 0 0) None
  end.

(** [game_unparse_state(inv_get_game(inv))] followed by a use of the
    string: a NULL game gives a NULL string, whose use is a fault. *)
Definition unparse_game_of (inv : nat) : M string :=
  i ← get_invitation inv;
  match game i with
  | Some gp => g ← get_game gp; ret (game_unparse_state g)
  | None => fault
  end.

(** [client_accept_invitation]: the return value together with the
    pointer left in [*strp] ([None] for NULL; the failing paths do not
    write [*strp]). *)
Definition client_accept_invitation (client id : nat) : M (Z * option string) :=
  c ← get_client client;
  if (length (invlist c) <=? id)%nat then ret (-1, None) else
  match invlist_at c id with
  | None => ret (-1, None)
  | Some inv =>
      i ← get_invitation inv;
      if negb (client =? target i)%nat then ret (-1, None) else
      if bool_decide (game i ≠ None) then ret (-1, None) else
      s ← get_client (source i);
      match find_slot (Some inv) (invlist s) with
      | None => ret (-1, None)
      | Some index =>
          r ← inv_accept inv;
          if r =? -1 then ret (-1, None) else
          if source_role i =? 1 then
            st ← unparse_game_of inv;
            r ← client_send_packet (source i)
                   (mkHDR JEUX_ACCEPTED_PKT (uint8 (Z.of_nat index)) 0
                          (uint16 (Z.of_nat (strlen st))))
                   (Some st);
            if r =? -1 then ret (-1, None) else ret (0, None)
          else
            r ← client_send_packet (source i)
                   (mkHDR JEUX_ACCEPTED_PKT (uint8 (Z.of_nat index)) 0 0) None;
            if r =? -1 then ret (-1, None) else
            st ← unparse_game_of inv;
            ret (0, Some st)
      end
  end.

(** The block run by [client_resign_game] and [client_make_move] once
    [game_is_over] holds: ENDED to the caller and to the opponent, removal
    from both lists, and the posting of the result.  [client] is the
    caller and [id] its index, [opp] the opponent and [oppid] the index
    written into the opponent's packet, [r] the value stored into the
    [role] field, [inv] the invitation and [g] the game. *)
Definition end_game (client : nat) (id : Z) (opp : nat) (oppid : Z)
    (r : Z) (inv : nat) (g : nat) : M Z :=
  r1 ← client_send_packet client (mkHDR JEUX_ENDED_PKT (uint8 id) (uint8 r) 0) None;
  if r1 =? -1 then ret (-1) else
  r2 ← client_send_packet opp (mkHDR JEUX_ENDED_PKT (uint8 oppid) (uint8 r) 0) None;
  if r2 =? -1 then ret (-1) else
  sourceid ← client_remove_invitation client inv;
  if sourceid =? -1 then ret (-1) else
  targetid ← client_remove_invitation opp inv;
  if targetid =? -1 then ret (-1) else
  i ← get_invitation inv;
  t ← get_client (target i);
  s ← get_client (source i);
  gm ← get_game g;
  player_post_result (player t) (player s) (game_get_winner gm);;
  ret 0.

Definition client_resign_game (client id : nat) : M Z :=
  c ← get_client client;
  if (length (invlist c) <=? id)%nat then ret (-1) else
  match invlist_at c id with
  | None => ret (-1)
  | Some inv =>
      i ← get_invitation inv;
      match game i with
      | None => ret (-1)
      | Some g =>
          if (client =? source i)%nat then
            t ← get_client (target i);
            match find_slot (Some inv) (invlist t) with
            | None => ret (-1)
            | Some targetid =>
                r ← inv_close inv (source_role i);
                if r =? -1 then ret (-1) else
                r ← client_send_packet (target i)
                      (mkHDR JEUX_RESIGNED_PKT (uint8 (Z.of_nat targetid)) 0 0) None;
                if r =? -1 then ret (-1) else
                gm ← get_game g;
                if game_is_over gm
                then end_game client (Z.of_nat id) (target i) (Z.of_nat targetid)
                       (target_role i) inv g
                else ret 0
            end
          else
            s ← get_client (source i);
            match find_slot (Some inv) (invlist s) with
            | None => ret (-1)
            | Some sourceid =>
                r ← inv_close inv (target_role i);
                if r =? -1 then ret (-1) else
                r ← client_send_packet (source i)
                      (mkHDR JEUX_RESIGNED_PKT (uint8 (Z.of_nat sourceid)) 0 0) None;
                if r =? -1 then ret (-1) else
                gm ← get_game g;
                if game_is_over gm
                then end_game client (Z.of_nat id) (source i) (Z.of_nat sourceid)
                       (source_role i) inv g
                else ret 0
            end
      end
  end.

(** [client_make_move].  In the branch of a caller that is not the
    source, the loop over the source's list stores the index it finds in
    [targetid]; [sourceid] keeps the value 0 it was initialised with, and
    it is [sourceid] that is written into the MOVED packet and into the
    ENDED packet for the source. *)
Definition client_make_move (client id : nat) (move : string) : M Z :=
  c ← get_client client;
  if (length (invlist c) <=? id)%nat then ret (-1) else
  match invlist_at c id with
  | None => ret (-1)
  | Some inv =>
      i ← get_invitation inv;
      match game i with
      | None => ret (-1)
      | Some g =>
          if (client =? source i)%nat then
            t ← get_client (target i);
            match find_slot (Some inv) (invlist t) with
            | None => ret (-1)
            | Some targetid =>
                gm ← get_game g;
                match game_parse_move gm (source_role i) move with
                | None => ret (-1)
                | Some pmove =>
                    match game_apply_move gm pmove with
                    | None => ret (-1)
                    | Some gm' =>
                        put_game g gm';;
                        let st := game_unparse_state gm' in
                        r ← client_send_packet (target i)
                              (mkHDR JEUX_MOVED_PKT (uint8 (Z.of_nat targetid)) 0
                                     (uint16 (Z.of_nat (strlen st))))
                              (Some st);
                        if r =? -1 then ret (-1) else
                        if game_is_over gm'
                        then end_game client (Z.of_nat id) (target i)
                               (Z.of_nat targetid) (game_get_winner gm') inv g
                        else ret 0
                    end
                end
            end
          else
            s ← get_client (source i);
            match find_slot (Some inv) (invlist s) with
            | None => ret (-1)
            | Some _ =>
                let sourceid := 0 in
                gm ← get_game g;
                match game_parse_move gm (target_role i) move with
                | None => ret (-1)
                | Some pmove =>
                    match game_apply_move gm pmove with
                    | None => ret (-1)
                    | Some gm' =>
                        put_game g gm';;
                        let st := game_unparse_state gm' in
                        r ← client_send_packet (source i)
                              (mkHDR JEUX_MOVED_PKT (uint8 sourceid) 0
                                     (uint16 (Z.of_nat (strlen st))))
                              (Some st);
                        if r =? -1 then ret (-1) else
                        if game_is_over gm'
                        then end_game client (Z.of_nat id) (source i)
                               sourceid (game_get_winner gm') inv g
                        else ret 0
                    end
                end
            end
      end
  end.

End Client.

(** ** client_registry.c and player_registry.c *)

Module Registry.
Import Game Player Packet Store Objects Client.

(** [creg_init]; [MAX_CLIENTS], the length of [buf], is fixed by
    [client_registry.h] and is a parameter here. *)
Definition creg_init (MAX_CLIENTS : nat) : CLIENT_REGISTRY :=
  mkCREG (replicate MAX_CLIENTS None) 0 1.

Definition get_creg : M CLIENT_REGISTRY := fun w => Ret (client_registry w) w.
Definition put_creg (cr : CLIENT_REGISTRY) : M unit := modify (set_client_registry cr).

(** [P(&cr->empty)] and [V(&cr->empty)]. *)
Definition P_empty : M unit :=
  fun w => match empty (client_registry w) with
           | O => Blocked
           | S n => Ret tt (set_client_registry
                              (mkCREG (buf (client_registry w))
                                      (count (client_registry w)) n) w)
           end.

Definition V_empty : M unit :=
  cr ← get_creg;
  put_creg (mkCREG (buf cr) (count cr) (S (empty cr))).

Definition creg_register (fd : Z) : M (option nat) :=
  cp ← client_create fd;
  cr ← get_creg;
  match find_slot None (buf cr) with
  | Some i =>
      put_creg (mkCREG (<[i := Some cp]> (buf cr)) (count cr) (empty cr));;
      (if count cr =? 0 then P_empty else ret tt);;
      cr' ← get_creg;
      put_creg (mkCREG (buf cr') (count cr' + 1) (empty cr'));;
      ret (Some cp)
  | None => ret None
  end.

(** [creg_unregister]: the slot is cleared and the count lowered.  The
    call of [client_unref], which lowers the reference count of the
    client and frees it at zero, is left out with the reference
    counts. *)
Definition creg_unregister (client : nat) : M Z :=
  cr ← get_creg;
  match find_slot (Some client) (buf cr) with
  | Some i =>
      put_creg (mkCREG (<[i := None]> (buf cr)) (count cr - 1) (empty cr));;
      (if count cr - 1 =? 0 then V_empty else ret tt);;
      ret 0
  | None => ret (-1)
  end.

(** The loop of [creg_lookup] over the slots that remain. *)
Fixpoint creg_lookup_from (l : list (option nat)) (user : string) : M (option nat) :=
  match l with
  | [] => ret None
  | None :: l' => creg_lookup_from l' user
  | Some cp :: l' =>
      c ← get_client cp;
      match player c with
      | None => creg_lookup_from l' user
      | Some pp =>
          p ← get_player pp;
          if String.eqb user (username p) then ret (Some cp)
          else creg_lookup_from l' user
      end
  end.

(** [creg_lookup]; the reference that [client_ref] takes on the client
    returned is left out. *)
Definition creg_lookup (user : string) : M (option nat) :=
  cr ← get_creg;
  creg_lookup_from (buf cr) user.

Definition creg_wait_for_empty : M unit := P_empty.

(** The search of [preg_register] through the entries. *)
Fixpoint preg_find (l : list (string * nat)) (name : string) : option nat :=
  match l with
  | [] => None
  | (n, p) :: l' => if String.eqb n name then Some p else preg_find l' name
  end.

(** [preg_register]; the references that [player_ref] takes on the
    player returned are left out. *)
Definition preg_register (name : string) : M nat :=
  fun w =>
    match preg_find (player_registry w) name with
    | Some p => Ret p w
    | None =>
        (p ← player_create name;
         modify (fun w' => set_player_registry (player_registry w' ++ [(name, p)]) w');;
         ret p) w
    end.

(** client.c: the two functions that go through the registry.  In
    [client_login] the reference that [player_ref] takes on the player
    stored is left out, and so is the one [creg_lookup] leaves on a
    client it finds; the function is written here as one thread runs
    it. *)

Definition client_login (client pl : nat) : M Z :=
  c ← get_client client;
  if bool_decide (player c ≠ None) then ret (-1) else
  p ← get_player pl;
  other ← creg_lookup (username p);
  if bool_decide (other ≠ None) then ret (-1) else
  c' ← get_client client;
  put_client client (mkCLIENT (connfd c') (Some pl) (invlist c'));;
  ret 0.

(** [client_login] in the two parts between which it holds no lock: the
    tests, of which the lookup runs under the mutex of the registry, and
    the store, which runs under the mutex of the client. *)
Definition client_login_test (client pl : nat) : M bool :=
  c ← get_client client;
  if bool_decide (player c ≠ None) then ret false else
  p ← get_player pl;
  other ← creg_lookup (username p);
  ret (bool_decide (other = None)).

Definition client_login_store (client pl : nat) : M Z :=
  c' ← get_client client;
  put_client client (mkCLIENT (connfd c') (Some pl) (invlist c'));;
  ret 0.

(** Two threads in [client_login] at once, for the clients [c1] and [c2]
    and the same player: the schedule in which both run the tests before
    either runs the store. *)
Definition two_logins (c1 c2 pl : nat) : M (Z * Z) :=
  ok1 ← client_login_test c1 pl;
  ok2 ← client_login_test c2 pl;
  r1 ← (if ok1 : bool then client_login_store c1 pl else ret (-1));
  r2 ← (if ok2 : bool then client_login_store c2 pl else ret (-1));
  ret (r1, r2).

(** One turn of the loop of [client_logout]. *)
Definition logout_step (client i : nat) : M unit :=
  c ← get_client client;
  match invlist_at c i with
  | None => ret tt
  | Some inv =>
      iv ← get_invitation inv;
      j ← (if (client =? source iv)%nat
           then client_revoke_invitation client i
           else client_decline_invitation client i);
      if j =? -1 then client_resign_game client i;; ret tt else ret tt
  end.

Fixpoint for_each (l : list nat) (body : nat → M unit) : M unit :=
  match l with
  | [] => ret tt
  | i :: l' => body i;; for_each l' body
  end.

Definition client_logout (client : nat) : M Z :=
  c ← get_client client;
  if bool_decide (player c = None) then ret (-1) else
  put_client client (mkCLIENT (connfd c) None (invlist c));;
  for_each (seq 0 (length (invlist c))) (logout_step client);;
  ret 0.

(** The store before [main] has created anything but the two
    registries. *)
Definition initial_world (MAX_CLIENTS : nat) : World :=
  mkWorld ∅ ∅ ∅ ∅ 1 (creg_init MAX_CLIENTS) [] [] [].

(** The loop of [creg_all_players] over the slots that remain: the
    players of the clients that are logged in, in the order of the
    slots. *)
Fixpoint creg_all_players_from (l : list (option nat)) : M (list nat) :=
  match l with
  | [] => ret []
  | None :: l' => creg_all_players_from l'
  | Some cp :: l' =>
      c ← get_client cp;
      match player c with
      | None => creg_all_players_from l'
      | Some pp => rest ← creg_all_players_from l'; ret (pp :: rest)
      end
  end.

Definition creg_all_players : M (list nat) :=
  cr ← get_creg;
  creg_all_players_from (buf cr).

End Registry.

(** ** protocol.c (receiving) and the service loop of server.c *)

Module Protocol.

(** What a call of [rio_readn] hands back: -1, or the bytes it
    transferred into the caller's buffer (their number is its return
    value). *)
Inductive rio_result :=
  | RioError
  | RioCount (bytes : list Z).

(** Modelled from the spec: the layout of [JEUX_PACKET_HEADER], which
    [protocol.h] defines: a 16-byte record of [type], [id], [role], one
    reserved byte, the two bytes of [size] in network byte order, and the
    two time stamps. *)
Definition HEADER_BYTES : nat := 16.

Definition byte_at (hdr : list Z) (i : nat) : Z := default 0 (hdr !! i).

(** [ntohs(hdr->size)] *)
Definition ntohs_size (hdr : list Z) : Z := 256 * byte_at hdr 4 + byte_at hdr 5.

(** The caller's buffer after [rio_readn] has stored [bytes] at its
    start. *)
Definition overwrite (bytes buffer : list Z) : list Z :=
  bytes ++ drop (length bytes) buffer.

Section Receive.

(** The connection and the routine that reads from it.  [rio_readn] is
    the robust-read routine of the [csapp] library. *)
Variable conn : Type.
Variable rio_readn : conn → nat → rio_result * conn.

(** The result of [proto_recv_packet]: its return value, the header
    storage of the caller, the pointer left in [*payloadp], and the
    connection. *)
Record received := mkReceived {
  recv_ret : Z;
  recv_hdr : list Z;
  recv_payload : option (list Z);
  recv_conn : conn
}.

Definition proto_recv_packet (fd : conn) (hdr : list Z) : received :=
  match rio_readn fd HEADER_BYTES with
  | (RioError, fd1) => mkReceived (-1) hdr None fd1
  | (RioCount bytes, fd1) =>
      let hdr1 := overwrite bytes hdr in
      let header_size := ntohs_size hdr1 in
      if negb (header_size =? 0) then
        match rio_readn fd1 (Z.to_nat header_size) with
        | (RioError, fd2) => mkReceived (-1) hdr1 None fd2
        | (RioCount payload, fd2) => mkReceived 0 hdr1 (Some payload) fd2
        end
      else mkReceived 0 hdr1 None fd1
  end.

(** The body of the [while] loop of [jeux_client_service]: the chain of
    tests on the packet type.  It works on the variables of the thread
    and on the store, here [svc], and in some branches it rewrites the
    header in place. *)
Variable svc : Type.
Variable dispatch : list Z → option (list Z) → svc → list Z * svc.

(** [while(!(n = proto_recv_packet(connfd, &header, &payload))) { ... }]
    run for at most [fuel] turns.  [Some] is the state in which the loop
    is left; [None] means that the loop is still running after [fuel]
    turns. *)
Fixpoint service_loop (fuel : nat) (fd : conn) (header : list Z) (s : svc)
  : option (svc * conn) :=
  match fuel with
  | O => None
  | S fuel' =>
      let r := proto_recv_packet fd header in
      if recv_ret r =? 0 then
        let '(header', s') := dispatch (recv_hdr r) (recv_payload r) s in
        service_loop fuel' (recv_conn r) header' s'
      else Some (s, recv_conn r)
  end.

End Receive.

(** The input side of a connection: the bytes that will still arrive, and
    whether the stream then ends in an error rather than in end-of-file. *)
Record connection := mkConn {
  pending : list Z;
  fails : bool
}.

(** The contract of [rio_readn] in the [csapp] library: it returns [n]
    when [n] bytes could be read, a short count (possibly 0) when
    end-of-file came first, and -1 on a read error. *)
Definition csapp_rio_readn (c : connection) (n : nat) : rio_result * connection :=
  if (n <=? length (pending c))%nat
  then (RioCount (take n (pending c)), mkConn (drop n (pending c)) (fails c))
  else if fails c then (RioError, c)
  else (RioCount (pending c), mkConn [] false).

(** The INVITE branch of the loop takes the [role] field of the packet
    as the role of the target and computes the role of the source from
    it. *)
Definition invite_source_role (role : Z) : Z := if role =? 1 then 2 else 1.

(** A connection on which nothing more will arrive: at end-of-file, and
    at a read error. *)
Definition at_eof : connection := mkConn [] false.
Definition at_error : connection := mkConn [] true.

End Protocol.

(** ** server.c: one turn of the service loop *)

Module Service.
Import Game Player Packet Store Objects Client Registry.

(** A buffer read as a C string: the characters before the first NUL. *)
Definition c_str (s : string) : string := String.substring 0 (strlen s) s.

(** [snprintf(..., "%d", n)] *)
Definition decimal (n : Z) : string := NilZero.string_of_int (Z.to_int n).

(** The line of the USERS reply for one player: name, tab, rating,
    newline. *)
Definition users_line (p : PLAYER) : string :=
  (c_str (username p) ++ String "009" (decimal (rating p) ++ String "010" EmptyString))%string.


(** The text the second loop writes into [result]. *)
Definition users_text (ps : list PLAYER) : string :=
  fold_right (fun p s => (users_line p ++ s)%string) EmptyString ps.

Fixpoint get_players (l : list nat) : M (list PLAYER) :=
  match l with
  | [] => ret []
  | pp :: l' => p ← get_player pp; ps ← get_players l'; ret (p :: ps)
  end.

(** The body of the service loop of [jeux_client_service] for one packet
    received.  [login] is the thread's variable of that name and the
    result is its value after the turn.  [ty] is the [type] byte of the
    header read through the enumeration of packet types, [None] standing
    for a byte that is none of them; [id] and [role] are the bytes of
    these names; [payload] holds the [size] bytes received, which the
    LOGIN, INVITE and MOVE branches copy and read as a C string.
    Allocation does not fail, so [preg_register] does not return NULL. *)
Definition jeux_client_service_step (client : nat) (login : bool)
    (ty : option JEUX_PACKET_TYPE) (id : nat) (role : Z) (payload : string)
  : M bool :=
  match ty with
  | Some JEUX_LOGIN_PKT =>
      if login then client_send_nack client;; ret login
      else
        player ← preg_register (c_str payload);
        i ← client_login client player;
        if i =? 0 then client_send_ack client None 0;; ret true
        else client_send_nack client;; ret login
  | _ =>
      if negb login then client_send_nack client;; ret login
      else
        match ty with
        | Some JEUX_USERS_PKT =>
            players ← creg_all_players;
            ps ← get_players players;
            let result := users_text ps in
            client_send_ack client (Some result) (Z.of_nat (strlen result));;
            ret login
        | Some JEUX_INVITE_PKT =>
            target ← creg_lookup (c_str payload);
            match target with
            | None => client_send_nack client;; ret login
            | Some t =>
                let source_role := Protocol.invite_source_role role in
                source_id ← client_make_invitation client t source_role role;
                if source_id =? -1 then client_send_nack client;; ret login
                else
                  r ← client_send_packet client
                        (mkHDR JEUX_ACK_PKT (uint8 source_id) 0 0) None;
                  if negb (r =? 0) then client_send_nack client;; ret login
                  else ret login
            end
        | Some JEUX_REVOKE_PKT =>
            r ← client_revoke_invitation client id;
            if negb (r =? 0) then client_send_nack client;; ret login
            else client_send_ack client None 0;; ret login
        | Some JEUX_DECLINE_PKT =>
            r ← client_decline_invitation client id;
            if negb (r =? 0) then client_send_nack client;; ret login
            else client_send_ack client None 0;; ret login
        | Some JEUX_ACCEPT_PKT =>
            rs ← client_accept_invitation client id;
            if negb (rs.1 =? 0) then client_send_nack client;; ret login
            else
              match rs.2 with
              | None =>
                  r ← client_send_packet client
                        (mkHDR JEUX_ACK_PKT (uint8 (Z.of_nat id)) 0 0) None;
                  if r =? -1 then client_send_nack client;; ret login
                  else ret login
              | Some str =>
                  r ← client_send_packet client
                        (mkHDR JEUX_ACK_PKT (uint8 (Z.of_nat id)) 0
                               (uint16 (Z.of_nat (strlen str))))
                        (Some str);
                  if r =? -1 then client_send_nack client;; ret login
                  else ret login
              end
        | Some JEUX_MOVE_PKT =>
            r ← client_make_move client id (c_str payload);
            if negb (r =? 0) then client_send_nack client;; ret login
            else client_send_ack client None 0;; ret login
        | Some JEUX_RESIGN_PKT =>
            r ← client_resign_game client id;
            if negb (r =? 0) then client_send_nack client;; ret login
            else client_send_ack client None 0;; ret login
        | _ => client_send_nack client;; ret login
        end
  end.

End Service.

(** ** main.c *)

Module Main.

(** The [while] loop over [argv[index]], from the position reached. *)
Fixpoint scan_options (args : list string) : option string :=
  match args with
  | [] => None
  | a :: rest =>
      if String.eqb a "-p" then
        match rest with
        | value :: _ => Some value
        | [] => scan_options rest
        end
      else scan_options rest
  end.

(** How far [main] gets: it leaves through [exit] with a status, or it
    reaches [Open_listenfd] and listens; the port it passes there is
    [argv[2]]. *)
Inductive startup :=
  | Exit (status : Z)
  | Listening (port : string).

Definition EXIT_SUCCESS : Z := 0.
Definition EXIT_FAILURE : Z := 1.

(** [main]; [sigaction_ok] tells whether installing the SIGHUP handler
    succeeded.  [terminate(status)] on the registries just created ends
    in [exit(status)]. *)
Definition main (sigaction_ok : bool) (argv : list string) : startup :=
  if (length argv <? 3)%nat then Exit 0
  else match scan_options (drop 1 argv) with
       | None => Exit 0
       | Some _ =>
           if sigaction_ok
           then Listening (default EmptyString (argv !! 2%nat))
           else Exit EXIT_FAILURE
       end.

End Main.

(** ** Runs of the server used in the statements below *)

Module Runs.
Import Game Player Packet Store Objects Client Registry.
Local Open Scope string_scope.

(** Modelled from the spec: the value of [MAX_CLIENTS], which
    [client_registry.h] defines; the spec gives 64. *)
Definition MAX_CLIENTS : nat := 64.

Definition world0 : World := initial_world MAX_CLIENTS.

(** A connection on descriptor [fd] is registered and logs in as [name]:
    what the service thread does for [creg_register] and a LOGIN packet. *)
Definition connect (fd : Z) (name : string) : M nat :=
  r ← creg_register fd;
  match r with
  | Some client =>
      pl ← preg_register name;
      client_login client pl;;
      ret client
  | None => fault
  end.

(** The rating of the player a client is logged in as. *)
Definition rating_of (w : World) (client : nat) : option Z :=
  c ← clients w !! client;
  pp ← player c;
  p ← players w !! pp;
  Some (rating p).

(** The game held by the invitation in slot [id] of a client's list. *)
Definition game_of (w : World) (client id : nat) : option GAME :=
  c ← clients w !! client;
  inv ← invlist_at c id;
  i ← invitations w !! inv;
  gp ← game i;
  games w !! gp.

(** The packets written to descriptor [fd], oldest first. *)
Definition packets_to (w : World) (fd : Z) : list (JEUX_PACKET_TYPE * Z * Z) :=
  map (fun p => (hdr_type (pkt_hdr p), hdr_id (pkt_hdr p), hdr_role (pkt_hdr p)))
      (filter (fun p => pkt_fd p = fd) (sent w)).

(** Moves made in turn in the game of one invitation: each entry is the
    client that moves, its index for the invitation, and the move. *)
Fixpoint play (moves : list (nat * nat * string)) : M (list Z) :=
  match moves with
  | [] => ret []
  | (client, id, mv) :: rest =>
      r ← client_make_move client id mv;
      rs ← play rest;
      ret (r :: rs)
  end.

(** alice (descriptor 4) invites bob (descriptor 5); alice takes the
    role [sr] and bob the role [tr]; bob accepts. *)
Definition alice_invites_bob (sr tr : GAME_ROLE) : M (nat * nat) :=
  alice ← connect 4 "alice";
  bob ← connect 5 "bob";
  client_make_invitation alice bob sr tr;;
  client_accept_invitation bob 0;;
  ret (alice, bob).

(** alice, playing first, takes the top row. *)
Definition source_wins : M (nat * nat * list Z) :=
  ab ← alice_invites_bob 1 2;
  rs ← play [(ab.1, 0, "1"); (ab.2, 0, "4"); (ab.1, 0, "2"); (ab.2, 0, "5");
             (ab.1, 0, "3")]%nat;
  ret (ab, rs).

(** alice, playing first, fills the last empty square with a move that
    completes the diagonal 1-5-9. *)
Definition last_square_wins : M (nat * nat * list Z) :=
  ab ← alice_invites_bob 1 2;
  rs ← play [(ab.1, 0, "1"); (ab.2, 0, "2"); (ab.1, 0, "3"); (ab.2, 0, "4");
             (ab.1, 0, "5"); (ab.2, 0, "6"); (ab.1, 0, "8"); (ab.2, 0, "7");
             (ab.1, 0, "9")]%nat;
  ret (ab, rs).

(** alice, the source, playing first, resigns the game. *)
Definition source_resigns : M (nat * nat * Z) :=
  ab ← alice_invites_bob 1 2;
  r ← client_resign_game ab.1 0;
  ret (ab, r).

(** alice's connection ends while the game is in progress, and the
    service thread logs her out. *)
Definition source_logs_out : M (nat * nat * Z) :=
  ab ← alice_invites_bob 1 2;
  r ← client_logout ab.1;
  ret (ab, r).

(** The same position one move earlier. *)
Definition before_last_square : M (nat * nat * list Z) :=
  ab ← alice_invites_bob 1 2;
  rs ← play [(ab.1, 0, "1"); (ab.2, 0, "2"); (ab.1, 0, "3"); (ab.2, 0, "4");
             (ab.1, 0, "5"); (ab.2, 0, "6"); (ab.1, 0, "8"); (ab.2, 0, "7")]%nat;
  ret (ab, rs).

(** alice invites carol and then bob, so that the invitation to bob sits
    at index 1 of her list and at index 0 of his; bob, who is to move
    first, accepts and moves. *)
Definition target_moves : M (nat * nat * Z) :=
  alice ← connect 4 "alice";
  bob ← connect 5 "bob";
  carol ← connect 6 "carol";
  client_make_invitation alice carol 1 2;;
  client_make_invitation alice bob 2 1;;
  client_accept_invitation bob 0;;
  r ← client_make_move bob 0 "5";
  ret (alice, bob, r).

(** alice has invited bob, and the invitation is still open. *)
Definition open_invitation : M (nat * nat) :=
  alice ← connect 4 "alice";
  bob ← connect 5 "bob";
  client_make_invitation alice bob 1 2;;
  ret (alice, bob).

(** alice invites herself: the INVITE branch looks the name up in the
    registry and finds the caller's own client. *)
Definition own_invitation : M nat :=
  alice ← connect 4 "alice";
  client_make_invitation alice alice 1 2;;
  ret alice.

(** The store an [M] computation leaves, and the value it returns. *)
Definition world_of {A} (o : outcome A) : World :=
  match o with Ret _ w => w | _ => world0 end.
Definition value_of {A} (d : A) (o : outcome A) : A :=
  match o with Ret a _ => a | _ => d end.

Definition open_world : World := world_of (open_invitation world0).
Definition open_alice : nat := (value_of (O, O) (open_invitation world0)).1.
Definition open_bob : nat := (value_of (O, O) (open_invitation world0)).2.


(** The address of the open invitation, and the store after bob has
    accepted it. *)
Definition open_inv : nat :=
  default O (c ← clients open_world !! open_bob; invlist_at c 0).
Definition accepted_world : World :=
  world_of (client_accept_invitation open_bob 0 open_world).

End Runs.

(** ** Predicates on the store used in the statements below *)

Module Specs.
Import Game Player Packet Store Objects Client Registry.

(** What holds of every invitation found in a client's list in a store
    the server can reach: its source and its target are clients of the
    store, and it is OPEN exactly when it holds no game ([inv_create]
    makes it OPEN without a game, [inv_accept] gives it a game, and
    [inv_close] is only called on an invitation with a game). *)
Definition inv_okb (w : World) (slot : option nat) : bool :=
  match slot with
  | None => true
  | Some inv =>
      match invitations w !! inv with
      | Some i =>
          bool_decide (is_Some (clients w !! source i))
          && bool_decide (is_Some (clients w !! target i))
          && eqb (bool_decide (state i = INV_OPEN_STATE))
                 (bool_decide (game i = None))
      | None => false
      end
  end.

Definition store_okb (w : World) (client : nat) : bool :=
  match clients w !! client with
  | Some c => forallb (inv_okb w) (invlist c)
  | None => false
  end.






(** The MOVED packet written to descriptor [fd] with id [idx] for the
    rendered state [st]. *)
Definition moved_packet (fd idx : Z) (st : string) : PACKET :=
  let hdr := mkHDR JEUX_MOVED_PKT idx 0 (uint16 (Z.of_nat (strlen st))) in
  mkPACKET fd hdr (payload_bytes hdr (Some st)).

(** The objects at an address, for stores in which they exist. *)
Definition client_at (w : World) (p : nat) : CLIENT :=
  default (mkCLIENT 0 None []) (clients w !! p).
Definition invitation_at (w : World) (p : nat) : INVITATION :=
  default (mkINV INV_CLOSED_STATE O O 0 0 None) (invitations w !! p).

End Specs.

(** ** Predicates on games, registries and lists used in the statements
    below *)

Module Invariants.
Import Game Player Packet Store Objects Client Registry Specs.

(** *** Games *)

(** The eight lines [check] tests, in the order in which it tests them. *)
Definition lines : list (nat * nat * nat) :=
  [(2, 4, 6); (0, 4, 8); (2, 5, 8); (1, 4, 7);
   (0, 3, 6); (6, 7, 8); (3, 4, 5); (0, 1, 2)]%nat.

Definition line_held (b : list GAME_ROLE) (l : nat * nat * nat) : bool :=
  pattern b l.1.1 l.1.2 l.2.

(** A square is empty or holds one of the two roles. *)
Definition valid_cell (c : GAME_ROLE) : bool := (c =? 0) || (c =? 1) || (c =? 2).

(** What holds of every game reached from [game_create] by moves and
    resignations: the board has nine valid squares, and while the game is
    not over [check] finds neither a line nor a full board. *)
Definition game_ok (g : GAME) : bool :=
  (length (board g) =? 9)%nat
  && forallb valid_cell (board g)
  && implb (winner g =? -1) (check (board g) =? -1).

(** Moves applied one after the other; [None] as soon as one of them is
    refused. *)
Fixpoint game_apply_moves (g : GAME) (ms : list GAME_MOVE) : option GAME :=
  match ms with
  | [] => Some g
  | m :: ms' =>
      match game_apply_move g m with
      | Some g' => game_apply_moves g' ms'
      | None => None
      end
  end.

(** The number of squares that are not empty. *)
Definition taken (b : list GAME_ROLE) : nat :=
  length (List.filter (fun c => negb (c =? 0)) b).

(** The decimal digit [d] as a character. *)
Definition digit_char (d : Z) : ascii := ascii_of_nat (Z.to_nat (48 + d)).

(** *** Ratings *)

(** The rating of the player at an address. *)
Definition rating_at (w : World) (p : nat) : option Z :=
  rating <$> players w !! p.

(** The points [player_post_result] moves to [player1] when the two
    ratings are less than 400 apart. *)
Definition close_rating_gain (result : Z) : Z :=
  if result =? 1 then 16 else if result =? 2 then -16 else 0.

(** A store that holds two players, at the addresses 1 and 2, and the
    store a posted result leaves. *)
Definition two_players (R1 R2 : Z) : World :=
  mkWorld ∅ ∅ ∅ (<[1%nat := mkPLAYER "a" R1]> (<[2%nat := mkPLAYER "b" R2]> ∅))
          3 (mkCREG [] 0 1) [] [] [].


(** The two increments of one posted result as a function of the
    exponent [k = (R2-R1)/400] of [E1]; the exponent of [E2] is [-k]. *)
Definition rating_changes (k result : Z) : option (Z * Z) :=
  match scores result with
  | Some (S1, S2) =>
      Some (rating_change S1 (expected_of k), rating_change S2 (expected_of (- k)))
  | None => None
  end.





(** *** The client registry *)

Definition slot_taken (x : option nat) : bool :=
  match x with Some _ => true | None => false end.

(** The number of slots of the registry that hold a client. *)
Definition occupied (l : list (option nat)) : nat :=
  length (List.filter slot_taken l).

(** What [creg_register] and [creg_unregister] keep true of the registry:
    [count] is the number of occupied slots, and the semaphore [empty]
    holds a unit exactly when [count] is 0. *)
Definition creg_ok (cr : CLIENT_REGISTRY) : Prop :=
  count cr = Z.of_nat (occupied (buf cr))
  ∧ empty cr = if count cr =? 0 then 1%nat else 0%nat.

(** The client at [cp] is logged in, and the name of its player is
    [user]. *)
Definition logged_in_as (w : World) (cp : nat) (user : string) : Prop :=
  ∃ c pp p, clients w !! cp = Some c ∧ player c = Some pp
            ∧ players w !! pp = Some p ∧ username p = user.

(** The pointers of the registry lead to clients of the store, and the
    [player] pointer of such a client to a player of the store. *)
Definition registry_sound (w : World) : Prop :=
  ∀ cp, Some cp ∈ buf (client_registry w) →
    ∃ c, clients w !! cp = Some c
         ∧ ∀ pp, player c = Some pp → is_Some (players w !! pp).

(** No two registered clients are logged in under the same name. *)
Definition names_unique (w : World) : Prop :=
  ∀ c1 c2 user,
    Some c1 ∈ buf (client_registry w) → Some c2 ∈ buf (client_registry w) →
    logged_in_as w c1 user → logged_in_as w c2 user → c1 = c2.

(** A store with two connections: the client at address 1, on
    descriptor 4, is logged in as alice; the client at address 3, on
    descriptor 5, is not logged in; bob is a registered player. *)
Definition lobby : World :=
  mkWorld (<[1%nat := mkCLIENT 4 (Some 2%nat) []]>
             (<[3%nat := mkCLIENT 5 None []]> ∅))
          ∅ ∅
          (<[2%nat := mkPLAYER "alice" 1500]> (<[4%nat := mkPLAYER "bob" 1500]> ∅))
          5
          (mkCREG [Some 1%nat; Some 3%nat; None; None] 2 0)
          [("alice"%string, 2%nat); ("bob"%string, 4%nat)] [] [].

(** The sample store before alice has logged in: two connections, none
    logged in. *)
Definition lobby_logged_out : World :=
  set_clients (<[1%nat := mkCLIENT 4 None []]>) lobby.

(** *** Invitation lists *)

(** The list [client_add_invitation] searches: the ten slots it
    allocates when the client has none, the client's list otherwise. *)
Definition invlist_or_new (c : CLIENT) : list (option nat) :=
  if (length (invlist c) =? 0)%nat then replicate 10 None else invlist c.


(** Two maps hold the same clients with the same descriptor, player and
    list of invitations.  The reference count of a client, which the
    embedding leaves out, is not compared. *)
Definition same_clients (m m' : gmap nat CLIENT) : Prop :=
  ∀ p, match m !! p, m' !! p with
       | Some c, Some c' =>
           connfd c' = connfd c ∧ player c' = player c ∧ invlist c' = invlist c
       | None, None => True
       | _, _ => False
       end.

(** Two maps hold the same players with the same names and ratings; the
    reference counts are not compared. *)
Definition same_players (m m' : gmap nat PLAYER) : Prop :=
  ∀ p, match m !! p, m' !! p with
       | Some x, Some x' => username x' = username x ∧ rating x' = rating x
       | None, None => True
       | _, _ => False
       end.







(** *** The heap and what the operations leave untouched *)

(** The addresses from [brk] on, which [Malloc] has not handed out, hold
    no invitation and no player. *)
Definition heap_ok (w : World) : Prop :=
  ∀ p, (brk w ≤ p)%nat →
    invitations w !! p = None ∧ players w !! p = None.

(** A packet that is a notification: neither ACK nor NACK. *)
Definition notification (pk : PACKET) : Prop :=
  hdr_type (pkt_hdr pk) ≠ JEUX_ACK_PKT ∧ hdr_type (pkt_hdr pk) ≠ JEUX_NACK_PKT.

(** What the operations on invitations and games leave as it is. *)
Record untouched (w w' : World) : Prop := mkUntouched {
  ut_clients :
    ∀ p c, clients w !! p = Some c →
      ∃ c', clients w' !! p = Some c'
            ∧ connfd c' = connfd c ∧ player c' = player c;
  ut_no_new_client :
    ∀ p, clients w !! p = None → clients w' !! p = None;
  ut_players :
    ∀ p x, players w !! p = Some x →
      ∃ x', players w' !! p = Some x' ∧ username x' = username x;
  ut_invitations :
    ∀ p i, invitations w !! p = Some i →
      ∃ i', invitations w' !! p = Some i'
            ∧ source i' = source i ∧ target i' = target i
            ∧ source_role i' = source_role i ∧ target_role i' = target_role i
            ∧ (state i ≠ INV_OPEN_STATE → state i' ≠ INV_OPEN_STATE)
            ∧ (state i = INV_CLOSED_STATE → state i' = INV_CLOSED_STATE);
  ut_registries :
    client_registry w' = client_registry w
    ∧ player_registry w' = player_registry w ∧ broken w' = broken w;
  ut_sent :
    ∃ rest, sent w' = sent w ++ rest ∧ Forall notification rest
}.

Definition frame (w w' : World) : Prop :=
  heap_ok w → heap_ok w' ∧ (brk w ≤ brk w')%nat ∧ untouched w w'.

Definition keeps {A} (m : M A) : Prop :=
  ∀ w a w', m w = Ret a w' → frame w w'.

(** Checking [heap_ok] on a store given in full. *)
Definition heap_okb (w : World) : bool :=
  forallb (λ kv, (kv.1 <? brk w)%nat) (map_to_list (invitations w))
  && forallb (λ kv, (kv.1 <? brk w)%nat) (map_to_list (players w)).

(** *** The service loop *)

(** The step has written, after notifications only, one ACK or NACK to
    descriptor [fd], and that packet is the last one written. *)
Definition replied (w w' : World) (fd : Z) : Prop :=
  ∃ rest reply,
    sent w' = sent w ++ rest ++ [reply]
    ∧ Forall notification rest
    ∧ pkt_fd reply = fd
    ∧ (hdr_type (pkt_hdr reply) = JEUX_ACK_PKT
       ∨ hdr_type (pkt_hdr reply) = JEUX_NACK_PKT).

(** The turn leaves the connection of the client as it was: the same
    descriptor in the client object, the same broken descriptors, and a
    heap on which the next turn can run. *)
Definition connection_kept (w w' : World) (client : nat) (c : CLIENT) : Prop :=
  heap_ok w' ∧ broken w' = broken w
  ∧ ∃ c', clients w' !! client = Some c' ∧ connfd c' = connfd c.

(** What the last write of a turn relies on: up to the store [w1] the
    turn has kept the connection and has written notifications only. *)
Definition quiet (w w1 : World) (client : nat) (c : CLIENT) : Prop :=
  connection_kept w w1 client c
  ∧ ∃ rest, sent w1 = sent w ++ rest ∧ Forall notification rest.




End Invariants.

(** * Properties *)

(** ** The game module *)

Module GameFacts.
Import Game.
Local Open Scope string_scope.
Local Open Scope Z_scope.

Lemma game_parse_move_player (g : GAME) (r : GAME_ROLE) (str : string) :
  (r =? 1) || (r =? 2) = true →
  game_parse_move g r str = Some (mkMOVE (atoi1 (first_char str) - 1) r).
Proof.
  intros Hr. unfold game_parse_move, NULL_ROLE.
  destruct (r =? 1) eqn:H1; [apply Z.eqb_eq in H1; subst; reflexivity|].
  destruct (r =? 2) eqn:H2; [apply Z.eqb_eq in H2; subst; reflexivity|].
  discriminate.
Qed.

Lemma game_apply_move_ignores_nextmover (w n n' : Z) (b : list GAME_ROLE)
    (mv : GAME_MOVE) :
  (fun g => (winner g, board g)) <$> game_apply_move (mkGAME w n b) mv
  = (fun g => (winner g, board g)) <$> game_apply_move (mkGAME w n' b) mv.
Proof.
  unfold game_apply_move; simpl.
  repeat (case_match; try reflexivity).
Qed.

(** On a board without an empty square [check] returns 0, whatever
    lines the board holds. *)
Lemma check_full_board (b : list GAME_ROLE) :
  zero_found b = false → check b = 0.
Proof. intros H. unfold check. by rewrite H. Qed.

(** C10.  The game module does not enforce turn alternation.  For the
    roles 1 and 2 [game_parse_move] returns a move whatever the game's
    next mover is; the comparison with the next mover decides the result
    only for [NULL_ROLE]; the board and winner that [game_apply_move]
    computes do not depend on the next mover; and in a new game, where
    the first player is to move, two moves in a row by the first player
    both parse and apply. *)
Theorem turn_alternation_not_enforced :
  (∀ (g : GAME) (str : string),
      game_parse_move g FIRST_PLAYER_ROLE str
        = Some (mkMOVE (atoi1 (first_char str) - 1) FIRST_PLAYER_ROLE)
      ∧ game_parse_move g SECOND_PLAYER_ROLE str
        = Some (mkMOVE (atoi1 (first_char str) - 1) SECOND_PLAYER_ROLE)
      ∧ game_parse_move g NULL_ROLE str
        = if nextmover g =? NULL_ROLE
          then Some (mkMOVE (atoi1 (first_char str) - 1) NULL_ROLE)
          else None)
  ∧ (∀ (w n n' : Z) (b : list GAME_ROLE) (mv : GAME_MOVE),
      (fun g => (winner g, board g)) <$> game_apply_move (mkGAME w n b) mv
      = (fun g => (winner g, board g)) <$> game_apply_move (mkGAME w n' b) mv)
  ∧ (∃ mv1 g1 mv2 g2,
      game_parse_move game_create FIRST_PLAYER_ROLE "1" = Some mv1
      ∧ game_apply_move game_create mv1 = Some g1
      ∧ nextmover g1 = SECOND_PLAYER_ROLE
      ∧ game_parse_move g1 FIRST_PLAYER_ROLE "2" = Some mv2
      ∧ game_apply_move g1 mv2 = Some g2
      ∧ role mv1 = FIRST_PLAYER_ROLE ∧ role mv2 = FIRST_PLAYER_ROLE
      ∧ board g2 = [1; 1; 0; 0; 0; 0; 0; 0; 0]).
Proof.
  split; [|split].
  - intros g str. split; [|split].
    + apply game_parse_move_player; reflexivity.
    + apply game_parse_move_player; reflexivity.
    + unfold game_parse_move, NULL_ROLE. simpl.
      destruct (nextmover g) as [|p|p]; reflexivity.
  - apply game_apply_move_ignores_nextmover.
  - eexists _, _, _, _. repeat split; reflexivity.
Qed.

End GameFacts.

(** ** The player module *)

Module PlayerFacts.
Import Player Store Objects Invariants.

(** The two exponents are opposite, because the division of [int]s
    truncates toward zero on both sides. *)
Lemma expected_swap (R1 R2 : Z) :
  expected R2 R1 = expected_of (- Z.quot (R2 - R1) 400).
Proof.
  unfold expected. replace (R1 - R2) with (- (R2 - R1)) by lia.
  by rewrite Z.quot_opp_l by lia.
Qed.

Lemma post_result_ratings_changes (R1 R2 result : Z) :
  post_result_ratings R1 R2 result
  = match rating_changes (Z.quot (R2 - R1) 400) result with
    | Some (d1, d2) => Some (R1 + d1, R2 + d2)
    | None => None
    end.
Proof.
  unfold post_result_ratings, rating_changes. rewrite (expected_swap R1 R2).
  unfold expected. by destruct (scores result) as [[S1 S2]|].
Qed.











(** Between two players of equal rating, [result = 1] moves 16 points
    from the second player to the first, and [result = 2] moves 16
    points from the first to the second. *)
Lemma post_result_ratings_equal (R : Z) :
  post_result_ratings R R 1 = Some (R + 16, R - 16)
  ∧ post_result_ratings R R 2 = Some (R - 16, R + 16)
  ∧ post_result_ratings R R 0 = Some (R, R).
Proof.
  rewrite !post_result_ratings_changes, Z.sub_diag.
  change (Z.quot 0 400) with 0.
  assert (H1 : rating_changes 0 1 = Some (16, -16)) by (vm_compute; reflexivity).
  assert (H2 : rating_changes 0 2 = Some (-16, 16)) by (vm_compute; reflexivity).
  assert (H3 : rating_changes 0 0 = Some (0, 0)) by (vm_compute; reflexivity).
  rewrite H1, H2, H3. repeat split; f_equal; f_equal; lia.
Qed.

(** [player_post_result] on two players of the store. *)
Lemma player_post_result_run (w : World) (p1 p2 : nat) (x1 x2 : PLAYER)
    (result R1 R2 : Z) :
  p1 ≠ p2 →
  players w !! p1 = Some x1 →
  players w !! p2 = Some x2 →
  post_result_ratings (rating x1) (rating x2) result = Some (R1, R2) →
  ∃ w', player_post_result (Some p1) (Some p2) result w = Ret tt w'
        ∧ players w' = <[p2 := mkPLAYER (username x2) R2]>
                         (<[p1 := mkPLAYER (username x1) R1]> (players w)).
Proof.
  intros Hne H1 H2 HR.
  unfold player_post_result, mbind, M_bind, bind, get_player. rewrite H1, H2, HR.
  unfold put_player, modify, get_player; simpl.
  rewrite lookup_insert_ne by done. rewrite H2.
  eexists. split; reflexivity.
Qed.




End PlayerFacts.
(** ** Games played through the client module *)

Module RunFacts.
Import Game Player Packet Store Objects Client Registry Runs.
Local Open Scope string_scope.
Local Open Scope Z_scope.

(** C2.  alice and bob are rated 1500; alice, the source of the
    invitation, plays role 1 and wins with the top row.  Every move is
    accepted and both clients receive ENDED with role 1, yet the posted
    result lowers alice's rating to 1484 and raises bob's to 1516:
    [client_make_move] passes the winning role as the [result] of
    [player_post_result] while passing the target's player first. *)
Theorem source_win_is_credited_to_target :
  match alice_invites_bob 1 2 world0, source_wins world0 with
  | Ret (a0, b0) w0, Ret (alice, bob, rs) w =>
      rating_of w0 a0 = Some 1500 ∧ rating_of w0 b0 = Some 1500
      ∧ (a0, b0) = (alice, bob)
      ∧ rs = [0; 0; 0; 0; 0]
      ∧ last (packets_to w 4) = Some (JEUX_ENDED_PKT, 0, 1)
      ∧ last (packets_to w 5) = Some (JEUX_ENDED_PKT, 0, 1)
      ∧ rating_of w alice = Some 1484
      ∧ rating_of w bob = Some 1516
  | _, _ => False
  end.
Proof. vm_compute. repeat split. Qed.

(** The same posting after a resignation.  alice, the source, plays
    role 1 and resigns: both clients are sent ENDED with bob's role 2,
    and the result is posted with [result = 2] and alice as [player2],
    which raises the rating of alice, who resigned. *)
Lemma resigning_source_is_credited :
  match source_resigns world0 with
  | Ret (alice, bob, r) w =>
      r = 0
      ∧ last (packets_to w 4) = Some (JEUX_ENDED_PKT, 0, 2)
      ∧ last (packets_to w 5) = Some (JEUX_ENDED_PKT, 0, 2)
      ∧ rating_of w alice = Some 1516
      ∧ rating_of w bob = Some 1484
  | _ => False
  end.
Proof. vm_compute. repeat split. Qed.

(** When the game ends because a player is logged out, no rating
    changes: [client_logout] clears the client's player before it
    resigns the game, and [player_post_result] returns at once on a NULL
    player. *)
Lemma logout_resignation_posts_nothing :
  match source_logs_out world0 with
  | Ret (alice, bob, r) w =>
      r = 0
      ∧ last (packets_to w 5) = Some (JEUX_ENDED_PKT, 0, 2)
      ∧ map (fun x => rating x.2) (map_to_list (players w)) = [1500; 1500]
  | _ => False
  end.
Proof. vm_compute. repeat split. Qed.

(** C5.  With eight squares taken and no line yet, the first player
    plays the last square and completes the diagonal 1-5-9.  The move is
    applied, the game is over, and its winner is 0: [check] looks for an
    empty square before it looks for a line.  Both clients are sent ENDED
    with role 0. *)
Theorem last_square_win_is_reported_as_draw :
  let g := mkGAME (-1) 1 [1; 2; 1; 2; 1; 2; 2; 1; 0] in
  match before_last_square world0 with
  | Ret (alice, _, _) w => game_of w alice 0 = Some g
  | _ => False
  end
  ∧ (∃ mv g',
        game_parse_move g FIRST_PLAYER_ROLE "9" = Some mv
        ∧ game_apply_move g mv = Some g'
        ∧ pattern (board g') 0 4 8 = true
        ∧ cell (board g') 0 = FIRST_PLAYER_ROLE
        ∧ game_is_over g' = true
        ∧ game_get_winner g' = 0)
  ∧ match last_square_wins world0 with
    | Ret (_, _, rs) w =>
        rs = [0; 0; 0; 0; 0; 0; 0; 0; 0]
        ∧ last (packets_to w 4) = Some (JEUX_ENDED_PKT, 0, 0)
        ∧ last (packets_to w 5) = Some (JEUX_ENDED_PKT, 0, 0)
    | _ => False
    end.
Proof.
  split; [vm_compute; reflexivity|].
  split; [eexists _, _; vm_compute; repeat split|].
  vm_compute. repeat split.
Qed.

(** C6.  alice holds the invitation to bob at index 1 of her list, bob
    holds it at index 0 of his.  bob, the target, moves; the move
    succeeds, and the MOVED packet written to alice's connection carries
    the id 0, which is not alice's index for the invitation. *)
Theorem moved_to_source_carries_id_zero :
  match target_moves world0 with
  | Ret (alice, bob, r) w =>
      r = 0
      ∧ (∃ ca cb inv,
            clients w !! alice = Some ca ∧ clients w !! bob = Some cb
            ∧ invlist_at cb 0 = Some inv
            ∧ find_slot (Some inv) (invlist ca) = Some 1%nat)
      ∧ last (packets_to w 4) = Some (JEUX_MOVED_PKT, 0, 0)
  | _ => False
  end.
Proof.
  vm_compute. split; [reflexivity|]. split; [|reflexivity].
  eexists _, _, _. repeat split.
Qed.

End RunFacts.

(** ** The client registry *)

Module RegistryFacts.
Import Store Client Registry.
Local Open Scope Z_scope.

(** [creg_register] returns NULL when no slot of the registry is free. *)
Lemma creg_register_full (w : World) (fd : Z) :
  find_slot None (buf (client_registry w)) = None →
  ∃ w', creg_register fd w = Ret None w'
        ∧ client_registry w' = client_registry w.
Proof.
  intros H. unfold creg_register, client_create, mbind, M_bind, bind, Malloc,
    put_client, modify, get_creg. simpl. rewrite H.
  eexists. split; reflexivity.
Qed.

(** [creg_register] does [P(&cr->empty)] exactly when the count is 0. *)
Lemma creg_register_arms (w : World) (fd : Z) (i : nat) :
  find_slot None (buf (client_registry w)) = Some i →
  empty (client_registry w) = 1%nat →
  ∃ w', creg_register fd w = Ret (Some (brk w)) w'
        ∧ count (client_registry w') = count (client_registry w) + 1
        ∧ empty (client_registry w')
          = if count (client_registry w) =? 0 then 0%nat else 1%nat.
Proof.
  intros H He. unfold creg_register, client_create, mbind, M_bind, bind, Malloc,
    put_client, put_creg, modify, get_creg, P_empty, mret, M_ret, ret. simpl.
  rewrite H. simpl.
  destruct (count (client_registry w) =? 0) eqn:Hc; simpl; rewrite ?He;
    eexists; repeat split; simpl; try exact He.
Qed.

(** [creg_unregister] does [V(&cr->empty)] exactly when the count
    reaches 0. *)
Lemma creg_unregister_releases (w : World) (client i : nat) :
  find_slot (Some client) (buf (client_registry w)) = Some i →
  ∃ w', creg_unregister client w = Ret 0 w'
        ∧ count (client_registry w') = count (client_registry w) - 1
        ∧ empty (client_registry w')
          = if count (client_registry w) - 1 =? 0
            then S (empty (client_registry w))
            else empty (client_registry w).
Proof.
  intros H. unfold creg_unregister, mbind, M_bind, bind, put_creg, modify,
    get_creg, V_empty, mret, M_ret, ret. simpl.
  rewrite H. simpl.
  destruct (count (client_registry w) - 1 =? 0) eqn:Hc; simpl;
    eexists; repeat split.
Qed.

(** A call of [creg_wait_for_empty] returns exactly when the semaphore
    holds a unit, and it takes that unit. *)
Lemma creg_wait_for_empty_returns (w : World) :
  (∃ w', creg_wait_for_empty w = Ret tt w') ↔ empty (client_registry w) ≠ O.
Proof.
  unfold creg_wait_for_empty, P_empty.
  destruct (empty (client_registry w)) as [|n]; split.
  - intros [w' H]. discriminate.
  - intros H. done.
  - intros _. done.
  - intros _. eauto.
Qed.

(** C9.  On a registry that has just been initialised, with no client
    registered, a first call of [creg_wait_for_empty] returns and leaves
    the count at zero; a second call then waits forever although the
    count is zero, and so does the [P] inside the next [creg_register]:
    the call that returned has taken the semaphore's only unit. *)
Theorem wait_for_empty_consumes_the_barrier (n : nat) (fd : Z) :
  ∃ w1,
    creg_wait_for_empty (initial_world (S n)) = Ret tt w1
    ∧ count (client_registry w1) = 0
    ∧ creg_wait_for_empty w1 = Blocked
    ∧ creg_register fd w1 = Blocked.
Proof.
  eexists. split; [reflexivity|]. split; [reflexivity|].
  split; reflexivity.
Qed.

End RegistryFacts.

(** ** Receiving packets and the service loop *)

Module ProtocolFacts.
Import Protocol.
Local Open Scope Z_scope.

Section AnyReader.

Variable conn : Type.
Variable rio_readn : conn → nat → rio_result * conn.

(** [proto_recv_packet] has two return values, and -1 is the one it uses
    when a call of [rio_readn] returns -1. *)
Lemma proto_recv_packet_codes (fd : conn) (hdr : list Z) :
  recv_ret conn (proto_recv_packet conn rio_readn fd hdr) = 0
  ∨ recv_ret conn (proto_recv_packet conn rio_readn fd hdr) = -1.
Proof.
  unfold proto_recv_packet.
  destruct (rio_readn fd HEADER_BYTES) as [[|bytes] fd1]; simpl; [by right|].
  destruct (negb (ntohs_size (overwrite bytes hdr) =? 0)); simpl; [|by left].
  destruct (rio_readn fd1 _) as [[|payload] fd2]; simpl; [by right|by left].
Qed.

(** The loop is left in the turn in which [proto_recv_packet] returns a
    value other than 0, and only then. *)
Lemma service_loop_turn (svc : Type)
    (dispatch : list Z → option (list Z) → svc → list Z * svc)
    (fuel : nat) (fd : conn) (hdr : list Z) (s : svc) :
  service_loop conn rio_readn svc dispatch (S fuel) fd hdr s
  = if recv_ret conn (proto_recv_packet conn rio_readn fd hdr) =? 0
    then service_loop conn rio_readn svc dispatch fuel
           (recv_conn conn (proto_recv_packet conn rio_readn fd hdr))
           (dispatch (recv_hdr conn (proto_recv_packet conn rio_readn fd hdr))
                     (recv_payload conn (proto_recv_packet conn rio_readn fd hdr))
                     s).1
           (dispatch (recv_hdr conn (proto_recv_packet conn rio_readn fd hdr))
                     (recv_payload conn (proto_recv_packet conn rio_readn fd hdr))
                     s).2
    else Some (s, recv_conn conn (proto_recv_packet conn rio_readn fd hdr)).
Proof.
  simpl. destruct (recv_ret conn _ =? 0); [|reflexivity].
  destruct (dispatch _ _ s); reflexivity.
Qed.

End AnyReader.

Lemma csapp_rio_readn_at_eof (n : nat) :
  csapp_rio_readn at_eof n = (RioCount [], at_eof).
Proof. destruct n; reflexivity. Qed.

Lemma recv_at_eof (hdr : list Z) :
  recv_ret connection (proto_recv_packet connection csapp_rio_readn at_eof hdr) = 0
  ∧ recv_hdr connection (proto_recv_packet connection csapp_rio_readn at_eof hdr) = hdr
  ∧ recv_conn connection (proto_recv_packet connection csapp_rio_readn at_eof hdr)
    = at_eof.
Proof.
  unfold proto_recv_packet. rewrite csapp_rio_readn_at_eof.
  change (overwrite [] hdr) with hdr.
  destruct (negb (ntohs_size hdr =? 0)); [|done].
  rewrite csapp_rio_readn_at_eof. done.
Qed.

(** C1.  When the stream is at end-of-file before any byte of a header,
    [rio_readn] returns the short count 0; [proto_recv_packet] tests
    its result against -1 only, leaves the header as it was and returns
    0, the value of a successful reception.  The service loop therefore
    runs its body again and is never left, whatever the body does.  A
    read error, by contrast, makes [proto_recv_packet] return -1 and
    ends the loop in that turn. *)
Theorem end_of_file_does_not_end_the_service_loop (svc : Type)
    (dispatch : list Z → option (list Z) → svc → list Z * svc)
    (fuel : nat) (hdr : list Z) (s : svc) :
  recv_ret connection (proto_recv_packet connection csapp_rio_readn at_eof hdr) = 0
  ∧ service_loop connection csapp_rio_readn svc dispatch fuel at_eof hdr s = None
  ∧ recv_ret connection (proto_recv_packet connection csapp_rio_readn at_error hdr)
    = -1
  ∧ service_loop connection csapp_rio_readn svc dispatch (S fuel) at_error hdr s
    = Some (s, at_error).
Proof.
  split; [apply recv_at_eof|]. split; [|split; reflexivity].
  revert hdr s. induction fuel as [|fuel IH]; intros hdr s; [reflexivity|].
  rewrite service_loop_turn.
  destruct (recv_at_eof hdr) as (-> & -> & ->). simpl.
  apply IH.
Qed.

End ProtocolFacts.

(** ** Start-up *)

Module MainFacts.
Import Main.
Local Open Scope string_scope.

Lemma scan_options_none (args : list string) :
  (∀ i : nat, args !! i = Some "-p" → args !! S i = None) →
  scan_options args = None.
Proof.
  induction args as [|a rest IH]; intros H; [reflexivity|].
  simpl. destruct (String.eqb a "-p") eqn:Ha.
  - apply String.eqb_eq in Ha. subst a.
    specialize (H O eq_refl). simpl in H.
    destruct rest as [|value rest]; [reflexivity|discriminate].
  - apply IH. intros i Hi. apply (H (S i) Hi).
Qed.

(** C3, as the code has it.  When no argument after the program name is
    a [-p] followed by a value, [main] leaves through [exit(0)] before
    it creates the registries or opens the listening socket. *)
Theorem main_without_port_exits_with_zero (sigaction_ok : bool)
    (argv : list string) :
  (∀ i : nat, (1 ≤ i)%nat → argv !! i = Some "-p" → argv !! S i = None) →
  main sigaction_ok argv = Exit 0.
Proof.
  intros H. unfold main.
  destruct (length argv <? 3)%nat; [reflexivity|].
  rewrite scan_options_none; [reflexivity|].
  intros i. rewrite !lookup_drop. simpl. apply H. lia.
Qed.

(** The theorem at a command line that ends in [-p]. *)
Lemma main_without_port_exits_with_zero_witness :
  main true ["jeux"; "-x"; "-p"] = Exit 0.
Proof.
  apply main_without_port_exits_with_zero.
  intros [|[|[|i]]] Hi; simpl; intros H; try reflexivity; try discriminate; lia.
Defined.

(** C3 as stated fails: started with no option at all, the process
    exits, and its exit code is 0. *)
Lemma main_no_option_exit_code_is_zero :
  main true ["jeux"] = Exit 0
  ∧ ¬ (∃ status : Z, status ≠ 0%Z ∧ main true ["jeux"] = Exit status).
Proof.
  split; [reflexivity|].
  intros (status & Hne & H). vm_compute in H. congruence.
Qed.

End MainFacts.

(** ** Invitations: revoking and accepting *)

Module ClientFacts.
Import Game Player Packet Store Objects Client Registry Runs Specs.
Local Open Scope Z_scope.

Lemma find_slot_lookup (x : option nat) (l : list (option nat)) (i : nat) :
  find_slot x l = Some i → l !! i = Some x.
Proof.
  revert i. induction l as [|y l IH]; intros i; simpl; [done|].
  case_decide; [intros [= <-]; by subst|].
  destruct (find_slot x l) as [j|]; [|done].
  intros [= <-]. simpl. by apply IH.
Qed.








(** In that store the revocation succeeds, and bob is sent REVOKED with
    his index 0. *)
Lemma revoke_open_invitation_succeeds :
  match client_revoke_invitation open_alice 0 open_world with
  | Ret r w' =>
      r = 0
      ∧ packets_to w' 5 = [(JEUX_INVITED_PKT, 0, 2); (JEUX_REVOKED_PKT, 0, 0)]
      ∧ invlist (client_at w' open_alice) = replicate 10 None
      ∧ invlist (client_at w' open_bob) = replicate 10 None
  | _ => False
  end.
Proof. vm_compute. repeat split. Qed.

(** A client that has invited itself holds the invitation twice, at
    the indices 0 and 1 of its one list.  Revoking index 0 clears both
    slots, and the REVOKED packet carries the index 1, where the
    invitation was found when the list was read for the target. *)
Lemma revoke_own_invitation :
  match own_invitation world0 with
  | Ret alice w =>
      store_okb w alice = true
      ∧ take 2 (invlist (client_at w alice))
        = [invlist_at (client_at w alice) 0; invlist_at (client_at w alice) 0]
      ∧ match client_revoke_invitation alice 0 w with
        | Ret r w' =>
            r = 0
            ∧ invlist (client_at w' alice) = replicate 10 None
            ∧ last (packets_to w' 4) = Some (JEUX_REVOKED_PKT, 1, 0)
        | _ => False
        end
  | _ => False
  end.
Proof. vm_compute. repeat split. Qed.





(** The roles the INVITE branch gives to an invitation whose target role
    is 1 or 2: both are 1 or 2 and they differ. *)
Lemma invite_roles_differ (role : Z) :
  role = 1 ∨ role = 2 →
  (Protocol.invite_source_role role = 1 ∨ Protocol.invite_source_role role = 2)
  ∧ Protocol.invite_source_role role ≠ role.
Proof. intros [-> | ->]; vm_compute; split; auto; discriminate. Qed.

(** Unfolding of the operations of the monad. *)
Ltac munfold :=
  unfold mbind, M_bind, bind, mret, M_ret, ret, modify, fault,
    get_client, get_invitation, get_game, get_player,
    put_client, put_invitation, put_game, put_player, Malloc.

(** Sending leaves everything but the list of packets as it was, and
    appends at most one packet to it. *)
Lemma client_send_packet_ret (client : nat) (hdr : JEUX_PACKET_HEADER)
    (data : option string) (w w' : World) (r : Z) :
  client_send_packet client hdr data w = Ret r w' →
  ∃ c, clients w !! client = Some c
       ∧ ((r = -1 ∧ w' = w)
          ∨ (r = 0 ∧ w' = set_sent (sent w ++ [mkPACKET (connfd c) hdr
                                               (payload_bytes hdr data)]) w)).
Proof.
  unfold client_send_packet, proto_send_packet. munfold.
  destruct (clients w !! client) as [c|]; [|done].
  case_bool_decide; intros [= <- <-]; exists c; split; auto.
Qed.

Lemma client_remove_invitation_ret (client inv : nat) (w w' : World) (r : Z) :
  client_remove_invitation client inv w = Ret r w' →
  sent w' = sent w ∧ invitations w' = invitations w ∧ games w' = games w.
Proof.
  unfold client_remove_invitation. munfold.
  destruct (clients w !! client) as [c|]; [|done].
  destruct (find_slot (Some inv) (invlist c)); intros [= <- <-]; done.
Qed.

Lemma player_post_result_sent (p1 p2 : option nat) (result : Z) (w w' : World) :
  player_post_result p1 p2 result w = Ret tt w' → sent w' = sent w.
Proof.
  unfold player_post_result. munfold.
  destruct p1 as [p1|], p2 as [p2|]; try (intros [= <-]; done).
  destruct (players w !! p1) as [x1|]; [|done].
  destruct (players w !! p2) as [x2|]; [|done].
  destruct (post_result_ratings _ _ _) as [[R1 R2]|]; [|intros [= <-]; done].
  unfold set_players; simpl.
  destruct (_ !! p2); [|done]. intros [= <-]. done.
Qed.

Lemma end_game_sent (client : nat) (id : Z) (opp : nat) (oppid r : Z)
    (inv g : nat) (w w' : World) (res : Z) :
  end_game client id opp oppid r inv g w = Ret res w' →
  ∃ rest, sent w' = sent w ++ rest.
Proof.
  unfold end_game. unfold mbind at 1, M_bind at 1, bind at 1.
  destruct (client_send_packet client _ None w) as [r1 w1| |] eqn:H1; [|done|done].
  apply client_send_packet_ret in H1 as (c & _ & [[-> ->]|[-> ->]]).
  { simpl. intros [= <- <-]. exists []. by rewrite app_nil_r. }
  simpl. unfold mbind at 1, M_bind at 1, bind at 1.
  destruct (client_send_packet opp _ None _) as [r2 w2| |] eqn:H2; [|done|done].
  apply client_send_packet_ret in H2 as (c2 & _ & [[-> ->]|[-> ->]]).
  { simpl. intros [= <- <-]. eexists. reflexivity. }
  simpl. unfold mbind at 1, M_bind at 1, bind at 1.
  destruct (client_remove_invitation client inv _) as [r3 w3| |] eqn:H3; [|done|done].
  apply client_remove_invitation_ret in H3 as (Hs3 & _ & _).
  destruct (r3 =? -1).
  { intros [= <- <-]. rewrite Hs3. simpl. rewrite <- app_assoc. eauto. }
  unfold mbind at 1, M_bind at 1, bind at 1.
  destruct (client_remove_invitation opp inv _) as [r4 w4| |] eqn:H4; [|done|done].
  apply client_remove_invitation_ret in H4 as (Hs4 & _ & _).
  destruct (r4 =? -1).
  { intros [= <- <-]. rewrite Hs4, Hs3. simpl. rewrite <- app_assoc. eauto. }
  munfold.
  destruct (invitations w4 !! inv) as [i|]; [|done].
  destruct (clients w4 !! target i) as [t|]; [|done].
  destruct (clients w4 !! source i) as [s|]; [|done].
  destruct (games w4 !! g) as [gm|]; [|done].
  destruct (player_post_result _ _ _ w4) as [[] w5| |] eqn:H5; [|done|done].
  apply player_post_result_sent in H5.
  intros [= <- <-]. rewrite H5, Hs4, Hs3. simpl. rewrite <- app_assoc. eauto.
Qed.

(** The MOVED packet of a successful move.  When the caller is the source
    of the invitation, the packet goes to the target and its id is the
    target's index; when the caller is not the source, the packet goes to
    the source and its id is 0.  In both cases the payload is the
    rendering of the state the move has produced. *)
Lemma moved_packet_of_move (w w' : World) (client id : nat) (move : string)
    (c : CLIENT) (inv : nat) (i : INVITATION) (g : nat) (gm : GAME) :
  client_make_move client id move w = Ret 0 w' →
  clients w !! client = Some c →
  invlist c !! id = Some (Some inv) →
  invitations w !! inv = Some i →
  game i = Some g →
  games w !! g = Some gm →
  ∃ pmove gm' opp rest,
    game_parse_move gm (if (client =? source i)%nat then source_role i
                        else target_role i) move = Some pmove
    ∧ game_apply_move gm pmove = Some gm'
    ∧ clients w !! (if (client =? source i)%nat then target i else source i)
      = Some opp
    ∧ if (client =? source i)%nat
      then ∃ targetid,
             find_slot (Some inv) (invlist opp) = Some targetid
             ∧ sent w' = sent w ++ moved_packet (connfd opp)
                                     (uint8 (Z.of_nat targetid))
                                     (game_unparse_state gm') :: rest
      else sent w' = sent w ++ moved_packet (connfd opp) 0
                                  (game_unparse_state gm') :: rest.
Proof.
  intros Hrun Hc Hid Hi Hg Hgm.
  unfold client_make_move in Hrun.
  unfold mbind at 1, M_bind at 1, bind at 1, get_client at 1 in Hrun.
  rewrite Hc in Hrun.
  destruct (length (invlist c) <=? id)%nat; [discriminate|].
  unfold invlist_at in Hrun. rewrite Hid in Hrun. simpl in Hrun.
  unfold mbind at 1, M_bind at 1, bind at 1, get_invitation at 1 in Hrun.
  rewrite Hi, Hg in Hrun.
  destruct (client =? source i)%nat.
  - unfold mbind at 1, M_bind at 1, bind at 1, get_client at 1 in Hrun.
    destruct (clients w !! target i) as [t|] eqn:Ht; [|discriminate].
    destruct (find_slot (Some inv) (invlist t)) as [targetid|] eqn:Htid;
      [|discriminate].
    unfold mbind at 1, M_bind at 1, bind at 1, get_game at 1 in Hrun.
    rewrite Hgm in Hrun.
    destruct (game_parse_move gm (source_role i) move) as [pmove|] eqn:Hp;
      [|discriminate].
    destruct (game_apply_move gm pmove) as [gm'|] eqn:Ha; [|discriminate].
    unfold mbind at 1, M_bind at 1, bind at 1, put_game at 1, modify in Hrun.
    unfold mbind at 1, M_bind at 1, bind at 1 in Hrun.
    destruct (client_send_packet (target i) _ _ _) as [r1 w1| |] eqn:H1;
      [|discriminate|discriminate].
    apply client_send_packet_ret in H1 as (t' & Ht' & [[-> ->]|[-> ->]]);
      [discriminate|].
    simpl in Ht'. rewrite Ht in Ht'. injection Ht' as <-.
    simpl in Hrun.
    exists pmove, gm', t.
    destruct (game_is_over gm').
    + apply end_game_sent in Hrun as [rest Hrest]. simpl in Hrest.
      exists rest. repeat split; try done.
      exists targetid. split; [done|]. rewrite Hrest, <- app_assoc. done.
    + injection Hrun as <-. exists []. repeat split; try done.
      exists targetid. split; done.
  - unfold mbind at 1, M_bind at 1, bind at 1, get_client at 1 in Hrun.
    destruct (clients w !! source i) as [s|] eqn:Hs; [|discriminate].
    destruct (find_slot (Some inv) (invlist s)) as [sourceid|] eqn:Hsid;
      [|discriminate].
    unfold mbind at 1, M_bind at 1, bind at 1, get_game at 1 in Hrun.
    rewrite Hgm in Hrun.
    destruct (game_parse_move gm (target_role i) move) as [pmove|] eqn:Hp;
      [|discriminate].
    destruct (game_apply_move gm pmove) as [gm'|] eqn:Ha; [|discriminate].
    unfold mbind at 1, M_bind at 1, bind at 1, put_game at 1, modify in Hrun.
    unfold mbind at 1, M_bind at 1, bind at 1 in Hrun.
    destruct (client_send_packet (source i) _ _ _) as [r1 w1| |] eqn:H1;
      [|discriminate|discriminate].
    apply client_send_packet_ret in H1 as (s' & Hs' & [[-> ->]|[-> ->]]);
      [discriminate|].
    simpl in Hs'. rewrite Hs in Hs'. injection Hs' as <-.
    simpl in Hrun.
    exists pmove, gm', s.
    destruct (game_is_over gm').
    + apply end_game_sent in Hrun as [rest Hrest]. simpl in Hrest.
      exists rest. repeat split; try done.
      rewrite Hrest, <- app_assoc. done.
    + injection Hrun as <-. exists []. repeat split; done.
Qed.

End ClientFacts.

(** ** More on the game module *)

Module GameProps.
Import Game Packet Invariants GameFacts.
Local Open Scope string_scope.
Local Open Scope Z_scope.

(** [check] as a search through the eight lines. *)
Lemma check_find (b : list GAME_ROLE) :
  check b = if negb (zero_found b) then 0
            else match find (line_held b) lines with
                 | Some l => cell b l.1.1
                 | None => -1
                 end.
Proof.
  unfold check, lines, line_held. simpl.
  destruct (zero_found b); simpl; [|reflexivity].
  repeat (match goal with |- context [pattern b ?x ?y ?z] =>
            destruct (pattern b x y z) eqn:?; simpl; try reflexivity end).
Qed.

Lemma pattern_cells (b : list GAME_ROLE) (x y z : nat) :
  pattern b x y z = true ↔
  cell b x = cell b y ∧ cell b x = cell b z ∧ cell b x ≠ 0.
Proof.
  unfold pattern. rewrite !andb_true_iff, negb_true_iff, !Z.eqb_eq, Z.eqb_neq.
  tauto.
Qed.

Lemma check_sound (b : list GAME_ROLE) (r : GAME_ROLE) :
  check b = r → r ≠ 0 → r ≠ -1 →
  ∃ l, l ∈ lines ∧ cell b l.1.1 = r ∧ cell b l.1.2 = r ∧ cell b l.2 = r.
Proof.
  rewrite check_find. intros Hr H0 H1.
  destruct (zero_found b); cbn [negb] in Hr; [|lia].
  destruct (find (line_held b) lines) as [l|] eqn:Hf; [|lia].
  apply find_some in Hf as [Hin Hl].
  exists l. split; [by apply list_elem_of_In|].
  unfold line_held in Hl. apply pattern_cells in Hl as (H2 & H3 & _).
  repeat split; lia.
Qed.

Lemma check_complete (b : list GAME_ROLE) (l : nat * nat * nat) :
  zero_found b = true → l ∈ lines → line_held b l = true →
  ∃ l', l' ∈ lines ∧ line_held b l' = true ∧ check b = cell b l'.1.1.
Proof.
  rewrite check_find. intros Hz Hin Hl. rewrite Hz. cbn [negb].
  destruct (find (line_held b) lines) as [l'|] eqn:Hf.
  - apply find_some in Hf as [Hin' Hl'].
    exists l'. split; [by apply list_elem_of_In|]. by split.
  - exfalso. apply list_elem_of_In in Hin.
    pose proof (find_none _ _ Hf l Hin). congruence.
Qed.

(** X1.  [check] names a role as winner only if that role holds the
    three squares of one of the eight lines; and on a board that still
    has an empty square, whenever some line is held by one role, [check]
    returns the role that holds a line. *)
Theorem check_reports_a_held_line (b : list GAME_ROLE) :
  (∀ r, check b = r → r ≠ 0 → r ≠ -1 →
        ∃ l, l ∈ lines ∧ cell b l.1.1 = r ∧ cell b l.1.2 = r ∧ cell b l.2 = r)
  ∧ (zero_found b = true →
     ∀ l, l ∈ lines → line_held b l = true →
          ∃ l', l' ∈ lines ∧ line_held b l' = true ∧ check b = cell b l'.1.1).
Proof.
  split.
  - intros r. apply check_sound.
  - intros Hz l. by apply check_complete.
Qed.

(** Squares of a board after one of them has been written. *)
Lemma cell_insert (b : list GAME_ROLE) (s i : nat) (r : GAME_ROLE) :
  (s < length b)%nat →
  cell (<[s := r]> b) i = if decide (i = s) then r else cell b i.
Proof.
  intros Hs. unfold cell. case_decide as Hi.
  - subst. by rewrite list_lookup_insert_eq.
  - by rewrite list_lookup_insert_ne.
Qed.

Lemma zero_found_cell (b : list GAME_ROLE) (s : nat) :
  (s < 9)%nat → cell b s = 0 → zero_found b = true.
Proof.
  intros Hs Hc. unfold zero_found. apply existsb_exists.
  exists s. split; [apply in_seq; lia|]. by apply Z.eqb_eq.
Qed.

Lemma valid_cell_cases (c : GAME_ROLE) :
  valid_cell c = true ↔ c = 0 ∨ c = 1 ∨ c = 2.
Proof. unfold valid_cell. rewrite !orb_true_iff, !Z.eqb_eq. tauto. Qed.

Lemma cell_valid (b : list GAME_ROLE) (i : nat) :
  forallb valid_cell b = true → valid_cell (cell b i) = true.
Proof.
  intros H. unfold cell. destruct (b !! i) as [c|] eqn:Hc; [|reflexivity].
  simpl. rewrite forallb_forall in H. apply H.
  apply list_elem_of_In. by eapply list_elem_of_lookup_2.
Qed.

Lemma forallb_insert (b : list GAME_ROLE) (s : nat) (r : GAME_ROLE) :
  forallb valid_cell b = true → valid_cell r = true →
  forallb valid_cell (<[s := r]> b) = true.
Proof.
  revert s. induction b as [|c b IH]; intros s; simpl; [done|].
  rewrite andb_true_iff. intros [Hc Hb] Hr.
  destruct s as [|s]; simpl; rewrite andb_true_iff; auto.
Qed.

(** What a successful [game_apply_move] has checked and done. *)
Lemma game_apply_move_Some (g g' : GAME) (m : GAME_MOVE) :
  game_apply_move g m = Some g' →
  0 ≤ spot m ≤ 8 ∧ (role m = 1 ∨ role m = 2) ∧ winner g = -1
  ∧ cell (board g) (Z.to_nat (spot m)) = 0
  ∧ g' = {| winner := check (<[Z.to_nat (spot m) := role m]> (board g));
            nextmover := if nextmover g =? 1 then 2 else 1;
            board := <[Z.to_nat (spot m) := role m]> (board g) |}.
Proof.
  unfold game_apply_move.
  destruct ((spot m <? 0) || (spot m >? 8)) eqn:H1; [done|].
  destruct ((role m <? 1) || (role m >? 2)) eqn:H2; [done|].
  destruct (negb (winner g =? -1)) eqn:H3; [done|].
  destruct (negb (cell (board g) (Z.to_nat (spot m)) =? 0)) eqn:H4; [done|].
  intros [= <-].
  apply orb_false_iff in H1 as [H1a H1b], H2 as [H2a H2b].
  apply negb_false_iff, Z.eqb_eq in H3, H4.
  repeat split; try lia.
Qed.

Lemma game_ok_cases (g : GAME) :
  game_ok g = true ↔
  length (board g) = 9%nat ∧ forallb valid_cell (board g) = true
  ∧ (winner g = -1 → check (board g) = -1).
Proof.
  unfold game_ok. rewrite !andb_true_iff, Nat.eqb_eq.
  destruct (winner g =? -1) eqn:Hw; simpl.
  - apply Z.eqb_eq in Hw. rewrite Z.eqb_eq. tauto.
  - apply Z.eqb_neq in Hw. tauto.
Qed.

Lemma in_lines_bound (l : nat * nat * nat) :
  l ∈ lines → (l.1.1 < 9 ∧ l.1.2 < 9 ∧ l.2 < 9)%nat.
Proof.
  unfold lines. rewrite !elem_of_cons, elem_of_nil.
  intros H. repeat (destruct H as [->|H]; [simpl; lia|]). done.
Qed.

(** X2.  The winner a move records is never the opponent of the mover.
    On a game as [game_create], [game_apply_move] and [game_resign]
    leave them, a successful move leaves such a game again, and its
    winner is -1 (not over), 0, or the role that moved. *)
Theorem game_apply_move_winner_is_mover (g g' : GAME) (m : GAME_MOVE) :
  game_ok g = true →
  game_apply_move g m = Some g' →
  game_ok g' = true
  ∧ (winner g' = -1 ∨ winner g' = 0 ∨ winner g' = role m).
Proof.
  intros Hok Hm.
  apply game_ok_cases in Hok as (Hlen & Hval & Hinv).
  apply game_apply_move_Some in Hm as (Hs & Hr & Hw & Hc & ->).
  set (s := Z.to_nat (spot m)) in *.
  assert (Hslt : (s < 9)%nat) by (subst s; lia).
  split.
  - apply game_ok_cases. simpl. rewrite length_insert. split; [done|].
    split; [|done].
    apply forallb_insert; [done|]. apply valid_cell_cases. lia.
  - simpl. set (b' := <[s := role m]> (board g)).
    destruct (decide (check b' = -1)) as [|H1]; [by left|].
    destruct (decide (check b' = 0)) as [|H0]; [by right; left|].
    right; right.
    destruct (check_sound b' _ eq_refl H0 H1) as (l & Hin & Hx & Hy & Hz).
    destruct (in_lines_bound l Hin) as (Bx & By & Bz).
    subst b'. rewrite cell_insert in Hx, Hy, Hz by lia.
    repeat case_decide; try congruence.
    (* the line does not go through the square played *)
    exfalso.
    destruct (check_complete (board g) l (zero_found_cell _ s Hslt Hc) Hin)
      as (l' & Hin' & Hl' & Hck).
    { unfold line_held. apply pattern_cells. repeat split; congruence. }
    specialize (Hinv Hw). rewrite Hinv in Hck.
    pose proof (cell_valid (board g) l'.1.1 Hval) as Hv.
    apply valid_cell_cases in Hv. lia.
Qed.

(** The theorem at the move that completes the top row for role 1. *)
Lemma game_apply_move_winner_is_mover_witness :
  game_ok (mkGAME 1 2 [1; 1; 1; 2; 2; 0; 0; 0; 0]) = true
  ∧ (1 = -1 ∨ 1 = 0 ∨ 1 = 1).
Proof.
  apply (game_apply_move_winner_is_mover
           (mkGAME (-1) 1 [1; 1; 0; 2; 2; 0; 0; 0; 0])
           (mkGAME 1 2 [1; 1; 1; 2; 2; 0; 0; 0; 0]) (mkMOVE 2 1)).
  - reflexivity.
  - reflexivity.
Defined.

(** Counting the squares taken. *)
Lemma taken_le (b : list GAME_ROLE) : (taken b ≤ length b)%nat.
Proof.
  unfold taken. induction b as [|c b IH]; simpl; [lia|].
  destruct (c =? 0); simpl; lia.
Qed.

Lemma taken_insert (b : list GAME_ROLE) (s : nat) (r : GAME_ROLE) :
  b !! s = Some 0 → r ≠ 0 → taken (<[s := r]> b) = S (taken b).
Proof.
  unfold taken. revert s. induction b as [|c b IH]; intros s Hs Hr; [done|].
  destruct s as [|s]; simpl in Hs |- *.
  - injection Hs as ->. apply Z.eqb_neq in Hr. rewrite Hr. reflexivity.
  - specialize (IH s Hs Hr). destruct (c =? 0); simpl; lia.
Qed.

Lemma taken_all (b : list GAME_ROLE) :
  taken b = length b → Forall (fun c => c ≠ 0) b.
Proof.
  unfold taken. induction b as [|c b IH]; simpl; intros H; [constructor|].
  pose proof (taken_le b) as Hle. unfold taken in Hle.
  destruct (c =? 0) eqn:Hc; simpl in H; [lia|].
  apply Z.eqb_neq in Hc. constructor; [done|]. apply IH. lia.
Qed.

Lemma zero_found_full (b : list GAME_ROLE) :
  length b = 9%nat → taken b = 9%nat → zero_found b = false.
Proof.
  intros Hlen Ht. assert (Hall : Forall (fun c => c ≠ 0) b).
  { apply taken_all. lia. }
  unfold zero_found. apply not_true_is_false. intros H.
  apply existsb_exists in H as (i & Hi & Hc). apply in_seq in Hi.
  apply Z.eqb_eq in Hc. unfold cell in Hc.
  destruct (b !! i) as [c|] eqn:Hb.
  - simpl in Hc. subst c. rewrite Forall_lookup in Hall. by apply (Hall i 0).
  - apply lookup_ge_None in Hb. unfold GAME_ROLE in *. lia.
Qed.

Lemma cell_lookup_zero (b : list GAME_ROLE) (s : nat) :
  (s < length b)%nat → cell b s = 0 → b !! s = Some 0.
Proof.
  intros Hs Hc. unfold cell in Hc.
  destruct (b !! s) as [c|] eqn:Hb; [simpl in Hc; by subst|].
  apply lookup_ge_None in Hb. unfold GAME_ROLE in *. lia.
Qed.

Lemma game_apply_moves_count (ms : list GAME_MOVE) (g g' : GAME) :
  length (board g) = 9%nat →
  game_apply_moves g ms = Some g' →
  length (board g') = 9%nat
  ∧ taken (board g') = (taken (board g) + length ms)%nat
  ∧ (ms ≠ [] → winner g' = check (board g')).
Proof.
  revert g. induction ms as [|m ms IH]; intros g Hlen; simpl.
  - intros [= <-]. split; [done|]. split; [lia|done].
  - destruct (game_apply_move g m) as [g1|] eqn:Hm; [|done].
    intros Hrest.
    apply game_apply_move_Some in Hm as (Hs & Hr & Hw & Hc & ->).
    pose proof Hrest as Hrest'.
    apply IH in Hrest' as (Hlen' & Ht & Hwin);
      [|simpl; by rewrite length_insert].
    simpl in Ht. rewrite taken_insert in Ht.
    + split; [done|]. split; [lia|]. intros _.
      destruct ms as [|m' ms]; [|by apply Hwin].
      simpl in Hrest. by injection Hrest as <-.
    + apply cell_lookup_zero; [unfold GAME_ROLE in *; lia|done].
    + lia.
Qed.

(** X3.  No game takes more than nine moves, and a game in which nine
    moves have been applied is over with winner 0, whatever lines its
    board holds. *)
Theorem nine_moves_end_in_a_draw (ms : list GAME_MOVE) (g : GAME) :
  game_apply_moves game_create ms = Some g →
  (length ms ≤ 9)%nat
  ∧ (length ms = 9%nat → game_is_over g = true ∧ game_get_winner g = 0).
Proof.
  intros H.
  destruct (game_apply_moves_count ms game_create g eq_refl H)
    as (Hlen & Ht & Hw).
  change (taken (board game_create)) with 0%nat in Ht. simpl in Ht.
  pose proof (taken_le (board g)). unfold GAME_ROLE in *. split; [lia|].
  intros H9. unfold game_is_over, game_get_winner.
  rewrite Hw by (intros ->; discriminate).
  rewrite check_full_board; [done|].
  apply zero_found_full; unfold GAME_ROLE in *; lia.
Qed.

(** The theorem at a game of nine moves whose last move completes the
    diagonal 1-5-9 for role 1. *)
Lemma nine_moves_end_in_a_draw_witness :
  (9 ≤ 9)%nat
  ∧ (9%nat = 9%nat →
     game_is_over (mkGAME 0 2 [1; 2; 1; 2; 1; 2; 2; 1; 1]) = true
     ∧ game_get_winner (mkGAME 0 2 [1; 2; 1; 2; 1; 2; 2; 1; 1]) = 0).
Proof.
  apply (nine_moves_end_in_a_draw
           [mkMOVE 0 1; mkMOVE 1 2; mkMOVE 2 1; mkMOVE 3 2; mkMOVE 4 1;
            mkMOVE 5 2; mkMOVE 7 1; mkMOVE 6 2; mkMOVE 8 1]
           (mkGAME 0 2 [1; 2; 1; 2; 1; 2; 2; 1; 1])).
  reflexivity.
Defined.

(** X4.  A resignation is accepted exactly from role 1 or 2 in a game
    that is not over.  It makes the other role the winner and leaves the
    board and the next mover as they were; afterwards the game is over,
    and it accepts no move and no further resignation. *)
Theorem game_resign_ends_the_game (g : GAME) (r : GAME_ROLE) :
  (∀ g', game_resign g r = Some g' →
     (r = 1 ∨ r = 2) ∧ winner g = -1
     ∧ winner g' = 3 - r ∧ board g' = board g ∧ nextmover g' = nextmover g
     ∧ game_is_over g' = true
     ∧ (∀ m, game_apply_move g' m = None)
     ∧ (∀ r', game_resign g' r' = None))
  ∧ (game_resign g r = None ↔ ¬ ((r = 1 ∨ r = 2) ∧ winner g = -1)).
Proof.
  unfold game_resign, NULL_ROLE, FIRST_PLAYER_ROLE, SECOND_PLAYER_ROLE.
  destruct (Z.eqb_spec r 0) as [H0|H0]; simpl.
  { split; [done|]. split; [lia|done]. }
  destruct (Z.eqb_spec r 1) as [H1|H1], (Z.eqb_spec r 2) as [H2|H2],
    (Z.eqb_spec (winner g) (-1)) as [Hw|Hw]; simpl; try lia.
  all: try (split; [done|split; [lia|done]]).
  all: split; [|split; [done|lia]].
  all: intros g' [= <-]; simpl; unfold game_is_over, game_apply_move; simpl.
  all: repeat split; try lia; try done.
  all: try (intros m; by repeat case_match).
  all: intros r'; by repeat case_match.
Qed.

(** X5.  The string [game_unparse_move] gives for a move on one of the
    nine squares by role 1 or 2 has four characters, and
    [game_parse_move] recovers the move from it. *)
Theorem game_unparse_move_round_trip (g : GAME) (m : GAME_MOVE) :
  0 ≤ spot m ≤ 8 → role m = 1 ∨ role m = 2 →
  ∃ s, game_unparse_move m = Some s
       ∧ String.length s = 4%nat
       ∧ game_parse_move g (role m) s = Some m.
Proof.
  destruct m as [sp r]. simpl. intros Hs Hr.
  assert (sp = 0 ∨ sp = 1 ∨ sp = 2 ∨ sp = 3 ∨ sp = 4 ∨ sp = 5 ∨ sp = 6
          ∨ sp = 7 ∨ sp = 8) as Hsp by lia.
  destruct Hr as [-> | ->];
    repeat (destruct Hsp as [-> | Hsp]); subst;
    (eexists; split; [reflexivity|split; reflexivity]).
Qed.

(** The theorem at the move of role 2 on the centre square. *)
Lemma game_unparse_move_round_trip_witness :
  ∃ s, game_unparse_move (mkMOVE 4 2) = Some s
       ∧ String.length s = 4%nat
       ∧ game_parse_move game_create 2 s = Some (mkMOVE 4 2).
Proof.
  apply (game_unparse_move_round_trip game_create (mkMOVE 4 2)).
  - simpl. lia.
  - right. reflexivity.
Defined.

Lemma atoi1_range (c : ascii) : 0 ≤ atoi1 c ≤ 9.
Proof. unfold atoi1. case_match; lia. Qed.

Lemma atoi1_digit (c : ascii) :
  atoi1 c ≠ 0 → c = digit_char (atoi1 c).
Proof.
  unfold atoi1, digit_char.
  destruct ((48 <=? Z.of_nat (nat_of_ascii c))
            && (Z.of_nat (nat_of_ascii c) <=? 57)) eqn:H; [|done].
  intros _. replace (48 + (Z.of_nat (nat_of_ascii c) - 48))
    with (Z.of_nat (nat_of_ascii c)) by lia.
  by rewrite Nat2Z.id, ascii_nat_embedding.
Qed.

(** X6.  A move string is applied only if it begins with one of the
    digits 1 to 9, the role is 1 or 2 and the square the digit names is
    empty; the move then writes the role into that square.  Whatever
    follows the first character plays no part. *)
Theorem move_string_semantics (g g' : GAME) (r : GAME_ROLE) (str : string)
    (m : GAME_MOVE) :
  game_parse_move g r str = Some m →
  game_apply_move g m = Some g' →
  ∃ d, 1 ≤ d ≤ 9
       ∧ first_char str = digit_char d
       ∧ (r = 1 ∨ r = 2)
       ∧ cell (board g) (Z.to_nat (d - 1)) = 0
       ∧ board g' = <[Z.to_nat (d - 1) := r]> (board g).
Proof.
  intros Hp Ha.
  unfold game_parse_move in Hp.
  destruct ((r <? 0) || (r >? 2)); [done|].
  destruct ((r =? NULL_ROLE) && negb (r =? nextmover g)); [done|].
  injection Hp as <-.
  apply game_apply_move_Some in Ha as (Hs & Hr & Hw & Hc & ->).
  simpl in *.
  exists (atoi1 (first_char str)).
  pose proof (atoi1_range (first_char str)).
  split; [lia|]. split; [apply atoi1_digit; lia|]. done.
Qed.

(** The theorem at the string "5x" played by role 1 in a new game. *)
Lemma move_string_semantics_witness :
  ∃ d, 1 ≤ d ≤ 9
       ∧ first_char "5x" = digit_char d
       ∧ (1 = 1 ∨ 1 = 2)
       ∧ cell (board game_create) (Z.to_nat (d - 1)) = 0
       ∧ board (mkGAME (-1) 2 [0; 0; 0; 0; 1; 0; 0; 0; 0])
         = <[Z.to_nat (d - 1) := 1]> (board game_create).
Proof.
  apply (move_string_semantics game_create
           (mkGAME (-1) 2 [0; 0; 0; 0; 1; 0; 0; 0; 0]) 1 "5x" (mkMOVE 4 1)).
  - reflexivity.
  - reflexivity.
Defined.

Lemma role_to_xo_inj (a b : GAME_ROLE) :
  valid_cell a = true → valid_cell b = true →
  role_to_xo a = role_to_xo b → a = b.
Proof.
  intros Ha%valid_cell_cases Hb%valid_cell_cases.
  destruct Ha as [->|[->| ->]], Hb as [->|[->| ->]]; cbv; congruence.
Qed.

Lemma role_to_xo_not_nul (a : GAME_ROLE) :
  valid_cell a = true → Ascii.eqb (role_to_xo a) Ascii.zero = false.
Proof.
  intros Ha%valid_cell_cases. by destruct Ha as [->|[->| ->]].
Qed.

(** X7.  The rendering of a game with nine valid squares is a C string
    of 40 characters, and it determines the board and the next mover: two
    such games with the same rendering have the same board and the same
    next mover. *)
Theorem game_unparse_state_faithful (g1 g2 : GAME) :
  length (board g1) = 9%nat → forallb valid_cell (board g1) = true →
  valid_cell (nextmover g1) = true →
  length (board g2) = 9%nat → forallb valid_cell (board g2) = true →
  valid_cell (nextmover g2) = true →
  strlen (game_unparse_state g1) = 40%nat
  ∧ (game_unparse_state g1 = game_unparse_state g2 →
     board g1 = board g2 ∧ nextmover g1 = nextmover g2).
Proof.
  destruct g1 as [w1 n1 b1], g2 as [w2 n2 b2]. simpl.
  intros L1 V1 N1 L2 V2 N2.
  do 10 (destruct b1 as [|? b1]; try discriminate L1).
  do 10 (destruct b2 as [|? b2]; try discriminate L2).
  simpl in V1, V2.
  repeat match goal with
         | H : _ && _ = true |- _ => apply andb_true_iff in H as [? H]
         end.
  unfold game_unparse_state, fill_string, row_string, rule_string, cell. simpl.
  split.
  - rewrite !role_to_xo_not_nul by done. reflexivity.
  - intros Heq. injection Heq as ?%role_to_xo_inj ?%role_to_xo_inj
      ?%role_to_xo_inj ?%role_to_xo_inj ?%role_to_xo_inj ?%role_to_xo_inj
      ?%role_to_xo_inj ?%role_to_xo_inj ?%role_to_xo_inj ?%role_to_xo_inj;
      try done.
    by subst.
Qed.

(** The theorem at a new game and the game after a first move. *)
Lemma game_unparse_state_faithful_witness :
  strlen (game_unparse_state game_create) = 40%nat
  ∧ (game_unparse_state game_create
     = game_unparse_state (mkGAME (-1) 2 [0; 0; 0; 0; 1; 0; 0; 0; 0]) →
     board game_create = [0; 0; 0; 0; 1; 0; 0; 0; 0]
     ∧ nextmover game_create = 2).
Proof.
  apply (game_unparse_state_faithful game_create
           (mkGAME (-1) 2 [0; 0; 0; 0; 1; 0; 0; 0; 0])); reflexivity.
Defined.

End GameProps.

(** ** More on the ratings *)

Module RatingProps.
Import Player Store Objects Invariants PlayerFacts.
Local Open Scope Z_scope.

(** The division of [int]s gives 0 for every rating gap below 400. *)
Lemma quot_400_small (d : Z) : -400 < d < 400 → Z.quot d 400 = 0.
Proof.
  intros H. destruct (Z_le_gt_dec 0 d).
  - apply Z.quot_small. lia.
  - rewrite <- (Z.opp_involutive d), Z.quot_opp_l by lia.
    rewrite Z.quot_small; lia.
Qed.

Lemma post_result_ratings_close (R1 R2 result : Z) :
  -400 < R2 - R1 < 400 → 0 ≤ result ≤ 2 →
  post_result_ratings R1 R2 result
  = Some (R1 + close_rating_gain result, R2 - close_rating_gain result).
Proof.
  intros Hgap Hres. rewrite post_result_ratings_changes.
  rewrite quot_400_small by lia.
  assert (H1 : rating_changes 0 1 = Some (16, -16)) by (vm_compute; reflexivity).
  assert (H2 : rating_changes 0 2 = Some (-16, 16)) by (vm_compute; reflexivity).
  assert (H3 : rating_changes 0 0 = Some (0, 0)) by (vm_compute; reflexivity).
  assert (result = 0 ∨ result = 1 ∨ result = 2) as [->|[->| ->]] by lia;
    rewrite ?H1, ?H2, ?H3; unfold close_rating_gain; simpl;
    f_equal; f_equal; lia.
Qed.

(** X8.  A rating gap below 400 plays no part in the update: the
    exponent [(R2-R1)/400] is a quotient of [int]s and is 0, so both
    expected scores are one half.  Between two such players a win moves
    exactly 16 points from the loser to the winner and a draw moves
    none. *)
Theorem rating_gap_below_400_is_ignored (w : World) (p1 p2 : nat)
    (x1 x2 : PLAYER) (result : Z) :
  p1 ≠ p2 →
  players w !! p1 = Some x1 →
  players w !! p2 = Some x2 →
  -400 < rating x2 - rating x1 < 400 →
  0 ≤ result ≤ 2 →
  ∃ w', player_post_result (Some p1) (Some p2) result w = Ret tt w'
        ∧ rating_at w' p1 = Some (rating x1 + close_rating_gain result)
        ∧ rating_at w' p2 = Some (rating x2 - close_rating_gain result).
Proof.
  intros Hne H1 H2 Hgap Hres.
  destruct (player_post_result_run w p1 p2 x1 x2 result _ _ Hne H1 H2
              (post_result_ratings_close _ _ _ Hgap Hres)) as (w' & Hrun & Hp).
  exists w'. split; [done|]. unfold rating_at. rewrite Hp.
  rewrite lookup_insert_ne by done. rewrite !lookup_insert_eq. done.
Qed.

(** The theorem at players rated 1500 and 1600 and a win of the
    second. *)
Lemma rating_gap_below_400_is_ignored_witness :
  ∃ w', player_post_result (Some 1%nat) (Some 2%nat) 2 (two_players 1500 1600)
        = Ret tt w'
        ∧ rating_at w' 1%nat = Some (1500 + close_rating_gain 2)
        ∧ rating_at w' 2%nat = Some (1600 - close_rating_gain 2).
Proof.
  apply (rating_gap_below_400_is_ignored (two_players 1500 1600) 1%nat 2%nat
           (mkPLAYER "a" 1500) (mkPLAYER "b" 1600) 2).
  - lia.
  - reflexivity.
  - reflexivity.
  - simpl. lia.
  - lia.
Defined.



End RatingProps.
(** ** More on the registries *)

Module RegistryProps.
Import Game Player Packet Store Objects Client Registry Invariants ClientFacts.
Local Open Scope Z_scope.

Lemma same_clients_refl (m : gmap nat CLIENT) : same_clients m m.
Proof. intros p. by destruct (m !! p). Qed.

Lemma same_players_refl (m : gmap nat PLAYER) : same_players m m.
Proof. intros p. by destruct (m !! p). Qed.

Lemma occupied_le (l : list (option nat)) : (occupied l ≤ length l)%nat.
Proof.
  unfold occupied. induction l as [|x l IH]; simpl; [lia|].
  destruct (slot_taken x); simpl; lia.
Qed.

(** Writing [y] over [x] in one slot. *)
Lemma occupied_insert (l : list (option nat)) (i : nat) (x y : option nat) :
  l !! i = Some x →
  (occupied (<[i := y]> l) + (if slot_taken x then 1 else 0)
   = occupied l + (if slot_taken y then 1 else 0))%nat.
Proof.
  unfold occupied. revert i. induction l as [|z l IH]; intros i Hi; [done|].
  destruct i as [|i]; simpl in Hi |- *.
  - injection Hi as ->. destruct (slot_taken x), (slot_taken y); simpl; lia.
  - specialize (IH i Hi). destruct (slot_taken z); simpl; lia.
Qed.

Lemma occupied_pos (l : list (option nat)) (i c : nat) :
  l !! i = Some (Some c) → (1 ≤ occupied l)%nat.
Proof.
  intros Hi. pose proof (occupied_insert l i (Some c) None Hi) as H.
  simpl in H. lia.
Qed.

(** The search for a free slot fails exactly on a full array. *)
Lemma find_slot_full (l : list (option nat)) :
  find_slot None l = None ↔ occupied l = length l.
Proof.
  unfold occupied. induction l as [|x l IH]; [done|].
  cbn [find_slot List.filter length].
  pose proof (occupied_le l) as Hle. unfold occupied in Hle.
  destruct (decide (x = None)) as [->|Hx].
  - simpl. split; [done|lia].
  - destruct x as [c|]; [|done]. simpl.
    destruct (find_slot None l) as [j|].
    + split; [done|]. intros H. assert (Some j = None) by (apply IH; lia). done.
    + split; [|done]. intros _. f_equal. by apply IH.
Qed.

Lemma find_slot_None_iff (x : option nat) (l : list (option nat)) :
  find_slot x l = None ↔ x ∉ l.
Proof.
  induction l as [|y l IH]; simpl.
  - split; [intros _; apply not_elem_of_nil|done].
  - rewrite not_elem_of_cons. case_decide as Hy.
    + split; [done|]. intros [H _]. by destruct H.
    + destruct (find_slot x l) as [j|].
      * split; [done|]. intros [_ H]. by apply IH in H.
      * split; [|done]. intros _. split; [done|]. by apply IH.
Qed.

Lemma find_slot_first (x : option nat) (l : list (option nat)) (i j : nat) :
  find_slot x l = Some i → (j < i)%nat → l !! j ≠ Some x.
Proof.
  revert i j. induction l as [|y l IH]; intros i j; simpl; [done|].
  case_decide as Hy; [intros [= <-]; lia|].
  destruct (find_slot x l) as [k|] eqn:Hk; [|done].
  intros [= <-] Hj. destruct j as [|j]; simpl; [congruence|].
  apply (IH k); [done|lia].
Qed.

Lemma find_slot_insert_fresh (l : list (option nat)) (i : nat) (x y : option nat) :
  l !! i = Some y → x ∉ l → find_slot x (<[i := x]> l) = Some i.
Proof.
  revert i. induction l as [|z l IH]; intros i Hi Hx; [done|].
  apply not_elem_of_cons in Hx as [Hz Hx].
  destruct i as [|i]; simpl in Hi |- *.
  - by rewrite decide_True.
  - rewrite decide_False by done. by rewrite (IH i Hi Hx).
Qed.

Lemma list_insert_insert_id (l : list (option nat)) (i : nat) (x y : option nat) :
  l !! i = Some y → <[i := y]> (<[i := x]> l) = l.
Proof.
  intros Hi. rewrite list_insert_insert_eq. by apply list_insert_id.
Qed.

(** The sample store satisfies the three predicates. *)
Lemma lobby_creg_ok : creg_ok (client_registry lobby).
Proof. split; reflexivity. Qed.

Lemma lobby_sound : registry_sound lobby.
Proof.
  intros cp H. simpl in H.
  repeat (apply elem_of_cons in H as [H|H];
          [first [discriminate H
                 |injection H as ->; eexists; split; [reflexivity|]; simpl;
                  intros pp Hpp;
                  first [discriminate Hpp|injection Hpp as <-; by eexists]]|]).
  by apply elem_of_nil in H.
Qed.


(** X10.  [creg_register] keeps the count equal to the number of
    occupied slots and the semaphore [empty] in step with it, and on such
    a registry it never waits.  It creates the client and returns NULL
    exactly when every slot is occupied, leaving the registry as it was;
    otherwise the new client takes the first free slot and the count
    grows by one. *)
Theorem creg_register_keeps_the_count (w : World) (fd : Z) :
  creg_ok (client_registry w) →
  ∃ r w',
    creg_register fd w = Ret r w'
    ∧ creg_ok (client_registry w')
    ∧ length (buf (client_registry w')) = length (buf (client_registry w))
    ∧ clients w' !! brk w = Some (mkCLIENT fd None [])
    ∧ match r with
      | None =>
          occupied (buf (client_registry w)) = length (buf (client_registry w))
          ∧ client_registry w' = client_registry w
      | Some cp =>
          cp = brk w
          ∧ ∃ i, find_slot None (buf (client_registry w)) = Some i
                 ∧ buf (client_registry w')
                   = <[i := Some cp]> (buf (client_registry w))
                 ∧ count (client_registry w') = count (client_registry w) + 1
      end.
Proof.
  intros [Hc He].
  unfold creg_register, client_create, mbind, M_bind, bind, Malloc,
    put_client, put_creg, modify, get_creg, P_empty, mret, M_ret, ret. simpl.
  destruct (find_slot None (buf (client_registry w))) as [i|] eqn:Hf; simpl.
  - pose proof (find_slot_lookup _ _ _ Hf) as Hi.
    pose proof (occupied_insert _ i None (Some (brk w)) Hi) as Ho. simpl in Ho.
    destruct (count (client_registry w) =? 0) eqn:H0; simpl; rewrite ?He; simpl.
    + apply Z.eqb_eq in H0.
      eexists _, _. split; [reflexivity|]. simpl.
      split; [|split; [by rewrite length_insert|split; [by rewrite lookup_insert_eq|]]].
      * split; simpl; [lia|]. rewrite H0. reflexivity.
      * split; [done|]. exists i. by rewrite H0.
    + apply Z.eqb_neq in H0.
      eexists _, _. split; [reflexivity|]. simpl.
      split; [|split; [by rewrite length_insert|split; [by rewrite lookup_insert_eq|]]].
      * split; simpl; [lia|].
        destruct (Z.eqb_spec (count (client_registry w) + 1) 0); [lia|done].
      * split; [done|]. by exists i.
  - eexists _, _. split; [reflexivity|]. simpl.
    split; [by split|]. split; [done|]. split; [by rewrite lookup_insert_eq|].
    split; [by apply find_slot_full|]. by destruct (client_registry w).
Qed.

(** The theorem at a third connection to the sample store. *)
Lemma creg_register_keeps_the_count_witness :
  ∃ r w',
    creg_register 6 lobby = Ret r w'
    ∧ creg_ok (client_registry w')
    ∧ length (buf (client_registry w')) = length (buf (client_registry lobby))
    ∧ clients w' !! brk lobby = Some (mkCLIENT 6 None [])
    ∧ match r with
      | None =>
          occupied (buf (client_registry lobby))
          = length (buf (client_registry lobby))
          ∧ client_registry w' = client_registry lobby
      | Some cp =>
          cp = brk lobby
          ∧ ∃ i, find_slot None (buf (client_registry lobby)) = Some i
                 ∧ buf (client_registry w')
                   = <[i := Some cp]> (buf (client_registry lobby))
                 ∧ count (client_registry w') = count (client_registry lobby) + 1
      end.
Proof.
  apply (creg_register_keeps_the_count lobby 6).
  split; reflexivity.
Defined.

(** X11.  [creg_unregister] keeps the count equal to the number of
    occupied slots and the semaphore [empty] in step with it.  It returns
    -1 and changes nothing when the client is in no slot; otherwise it
    clears the first slot that holds the client and lowers the count by
    one.  Of the client object, which the code releases, nothing is
    said. *)
Theorem creg_unregister_keeps_the_count (w : World) (client : nat) :
  creg_ok (client_registry w) →
  ∃ r w',
    creg_unregister client w = Ret r w'
    ∧ creg_ok (client_registry w')
    ∧ length (buf (client_registry w')) = length (buf (client_registry w))
    ∧ ((r = -1 ∧ (Some client ∉ buf (client_registry w)) ∧ w' = w)
       ∨ (r = 0
          ∧ ∃ i, find_slot (Some client) (buf (client_registry w)) = Some i
                 ∧ buf (client_registry w')
                   = <[i := None]> (buf (client_registry w))
                 ∧ count (client_registry w') = count (client_registry w) - 1)).
Proof.
  intros [Hc He].
  unfold creg_unregister, mbind, M_bind, bind, put_creg, modify,
    get_creg, V_empty, mret, M_ret, ret. simpl.
  destruct (find_slot (Some client) (buf (client_registry w))) as [i|] eqn:Hf;
    simpl.
  - pose proof (find_slot_lookup _ _ _ Hf) as Hi.
    pose proof (occupied_insert _ i (Some client) None Hi) as Ho. simpl in Ho.
    pose proof (occupied_pos _ _ _ Hi) as Hpos.
    destruct (Z.eqb_spec (count (client_registry w)) 0) as [H0|H0]; [lia|].
    destruct (Z.eqb_spec (count (client_registry w) - 1) 0) as [H1|H1]; simpl.
    + eexists _, _. split; [reflexivity|]. simpl.
      split; [|split; [by rewrite length_insert|]].
      * split; simpl; [lia|]. rewrite He.
        by destruct (Z.eqb_spec (count (client_registry w) - 1) 0).
      * right. split; [done|]. by exists i.
    + eexists _, _. split; [reflexivity|]. simpl.
      split; [|split; [by rewrite length_insert|]].
      * split; simpl; [lia|]. rewrite He.
        by destruct (Z.eqb_spec (count (client_registry w) - 1) 0).
      * right. split; [done|]. by exists i.
  - eexists _, _. split; [reflexivity|].
    split; [by split|]. split; [done|]. left.
    split; [done|]. split; [by apply find_slot_None_iff|done].
Qed.

(** The theorem at the removal of the second connection of the sample
    store. *)
Lemma creg_unregister_keeps_the_count_witness :
  ∃ r w',
    creg_unregister 3 lobby = Ret r w'
    ∧ creg_ok (client_registry w')
    ∧ length (buf (client_registry w')) = length (buf (client_registry lobby))
    ∧ ((r = -1 ∧ (Some 3%nat ∉ buf (client_registry lobby)) ∧ w' = lobby)
       ∨ (r = 0
          ∧ ∃ i, find_slot (Some 3%nat) (buf (client_registry lobby)) = Some i
                 ∧ buf (client_registry w')
                   = <[i := None]> (buf (client_registry lobby))
                 ∧ count (client_registry w')
                   = count (client_registry lobby) - 1)).
Proof.
  apply (creg_unregister_keeps_the_count lobby 3).
  split; reflexivity.
Defined.

(** X12.  Registering a connection and unregistering the client just
    created gives the registry back as it was: the slots, the count and
    the semaphore.  (The address [Malloc] hands out is in no slot, and
    one slot at least is free.) *)
Theorem creg_register_then_unregister (w : World) (fd : Z) :
  creg_ok (client_registry w) →
  Some (brk w) ∉ buf (client_registry w) →
  (occupied (buf (client_registry w)) < length (buf (client_registry w)))%nat →
  ∃ w1 w2,
    creg_register fd w = Ret (Some (brk w)) w1
    ∧ creg_unregister (brk w) w1 = Ret 0 w2
    ∧ client_registry w2 = client_registry w.
Proof.
  intros [Hc He] Hfresh Hroom.
  destruct (find_slot None (buf (client_registry w))) as [i|] eqn:Hf;
    [|apply find_slot_full in Hf; lia].
  pose proof (find_slot_lookup _ _ _ Hf) as Hi.
  unfold creg_register, creg_unregister, client_create, mbind, M_bind, bind,
    Malloc, put_client, put_creg, modify, get_creg, P_empty, V_empty,
    mret, M_ret, ret. simpl. rewrite Hf. simpl.
  destruct (client_registry w) as [b c e] eqn:Hcr. simpl in *. clear Hc.
  destruct (Z.eqb_spec c 0) as [H0|H0]; simpl.
  - subst c e. simpl.
    eexists _, _. split; [reflexivity|]. simpl.
    rewrite (find_slot_insert_fresh _ _ _ _ Hi Hfresh). simpl.
    split; [reflexivity|]. simpl.
    by rewrite (list_insert_insert_id _ _ _ _ Hi).
  - eexists _, _. split; [reflexivity|]. simpl.
    rewrite (find_slot_insert_fresh _ _ _ _ Hi Hfresh). simpl.
    destruct (Z.eqb_spec (c + 1 - 1) 0) as [H1|H1]; [lia|]. simpl.
    split; [reflexivity|]. simpl.
    rewrite (list_insert_insert_id _ _ _ _ Hi). f_equal. lia.
Qed.

(** The theorem at the sample store. *)
Lemma creg_register_then_unregister_witness :
  ∃ w1 w2,
    creg_register 6 lobby = Ret (Some (brk lobby)) w1
    ∧ creg_unregister (brk lobby) w1 = Ret 0 w2
    ∧ client_registry w2 = client_registry lobby.
Proof.
  apply (creg_register_then_unregister lobby 6).
  - split; reflexivity.
  - simpl. rewrite !not_elem_of_cons.
    repeat split; try discriminate. apply not_elem_of_nil.
  - vm_compute. lia.
Defined.

(** The loop of [creg_lookup] on any part of the array. *)
Lemma creg_lookup_from_run (l : list (option nat)) (user : string) (w : World) :
  (∀ cp, Some cp ∈ l →
     ∃ c, clients w !! cp = Some c
          ∧ ∀ pp, player c = Some pp → is_Some (players w !! pp)) →
  ∃ r, creg_lookup_from l user w = Ret r w
       ∧ match r with
         | Some cp =>
             ∃ i, l !! i = Some (Some cp) ∧ logged_in_as w cp user
                  ∧ ∀ j cq, (j < i)%nat → l !! j = Some (Some cq) →
                            ¬ logged_in_as w cq user
         | None => ∀ cq, Some cq ∈ l → ¬ logged_in_as w cq user
         end.
Proof.
  induction l as [|x l IH]; intros Hs.
  - exists None. split; [reflexivity|]. intros cq H. by apply elem_of_nil in H.
  - destruct IH as (r & Hr & Hspec).
    { intros cp H. apply Hs. by right. }
    assert (Hskip : (∀ cq, x = Some cq → ¬ logged_in_as w cq user) →
      creg_lookup_from l user w = Ret r w →
      match r with
      | Some cp =>
          ∃ i, (x :: l) !! i = Some (Some cp) ∧ logged_in_as w cp user
               ∧ ∀ j cq, (j < i)%nat → (x :: l) !! j = Some (Some cq) →
                         ¬ logged_in_as w cq user
      | None => ∀ cq, Some cq ∈ x :: l → ¬ logged_in_as w cq user
      end).
    { intros Hx _. destruct r as [cp|].
      - destruct Hspec as (i & Hi & Hlog & Hbefore). exists (S i).
        split; [done|]. split; [done|]. intros [|j] cq Hj Hq; simpl in Hq.
        + injection Hq as Hq. by apply Hx.
        + apply (Hbefore j); [lia|done].
      - intros cq [Hq|H]%elem_of_cons; [by apply Hx|by apply Hspec]. }
    destruct x as [cp|]; simpl.
    + destruct (Hs cp) as (c & Hc & Hp); [by left|].
      unfold mbind, M_bind, bind, get_client. rewrite Hc.
      destruct (player c) as [pp|] eqn:Hpl.
      * destruct (Hp pp eq_refl) as [p Hpp].
        unfold get_player. rewrite Hpp.
        destruct (String.eqb user (username p)) eqn:Heq.
        -- apply String.eqb_eq in Heq. exists (Some cp).
           split; [reflexivity|]. exists O. split; [done|].
           split; [by exists c, pp, p|]. intros j cq Hj. lia.
        -- apply String.eqb_neq in Heq. exists r. split; [done|].
           apply Hskip; [|done].
           intros cq [= <-] (c' & pp' & p' & H1 & H2 & H3 & H4). congruence.
      * exists r. split; [done|]. apply Hskip; [|done].
        intros cq [= <-] (c' & pp' & p' & H1 & H2 & H3 & H4). congruence.
    + exists r. split; [done|]. apply Hskip; [|done]. done.
Qed.

(** X13.  [creg_lookup] returns the client of the first slot whose
    client is logged in under the name asked for, and NULL exactly when
    no registered client is logged in under that name.  It leaves the
    registry, and the descriptor, the player and the list of every
    client, as they were; when it returns NULL it changes nothing at all.
    Of the reference it takes on the client it returns nothing is
    said. *)
Theorem creg_lookup_finds_the_first_match (w : World) (user : string) :
  registry_sound w →
  ∃ r w',
    creg_lookup user w = Ret r w'
    ∧ client_registry w' = client_registry w
    ∧ same_clients (clients w) (clients w')
    ∧ match r with
      | Some cp =>
          ∃ i, buf (client_registry w) !! i = Some (Some cp)
               ∧ logged_in_as w cp user
               ∧ ∀ j cq, (j < i)%nat →
                         buf (client_registry w) !! j = Some (Some cq) →
                         ¬ logged_in_as w cq user
      | None =>
          w' = w
          ∧ ∀ cq, Some cq ∈ buf (client_registry w) →
                  ¬ logged_in_as w cq user
      end.
Proof.
  intros Hs.
  destruct (creg_lookup_from_run (buf (client_registry w)) user w Hs)
    as (r & Hr & Hspec).
  exists r, w. unfold creg_lookup, mbind, M_bind, bind, get_creg.
  split; [exact Hr|]. split; [done|]. split; [apply same_clients_refl|].
  destruct r; [exact Hspec|by split].
Qed.

(** The theorem at the sample store and the name alice. *)
Lemma creg_lookup_finds_the_first_match_witness :
  ∃ r w',
    creg_lookup "alice" lobby = Ret r w'
    ∧ client_registry w' = client_registry lobby
    ∧ same_clients (clients lobby) (clients w')
    ∧ match r with
      | Some cp =>
          ∃ i, buf (client_registry lobby) !! i = Some (Some cp)
               ∧ logged_in_as lobby cp "alice"
               ∧ ∀ j cq, (j < i)%nat →
                         buf (client_registry lobby) !! j = Some (Some cq) →
                         ¬ logged_in_as lobby cq "alice"
      | None =>
          w' = lobby
          ∧ ∀ cq, Some cq ∈ buf (client_registry lobby) →
                  ¬ logged_in_as lobby cq "alice"
      end.
Proof.
  apply (creg_lookup_finds_the_first_match lobby "alice").
  exact lobby_sound.
Defined.
Lemma logged_in_as_after_login (w : World) (client pl : nat) (c : CLIENT)
    (p : PLAYER) (cq : nat) (user : string) :
  players w !! pl = Some p →
  logged_in_as
    (set_clients (insert client (mkCLIENT (connfd c) (Some pl) (invlist c))) w)
    cq user
  ↔ if decide (cq = client) then user = username p else logged_in_as w cq user.
Proof.
  intros Hp. unfold logged_in_as. simpl. case_decide as Hq.
  - subst cq. rewrite lookup_insert_eq. split.
    + intros (c' & pp & p' & [= <-] & [= <-] & H3 & <-). simpl in *. congruence.
    + intros ->. by eexists _, pl, p.
  - by rewrite lookup_insert_ne.
Qed.

(** X14.  What a call of [client_login] decides and does when no other
    thread runs between its tests and its store.  It returns 0 exactly
    when the client is not logged in and no registered client is logged
    in under the player's name, and it has then stored the player in the
    client; otherwise it returns -1 and has stored nothing.  In both
    cases the descriptor and the list of the client, the descriptor, the
    player and the list of every other client, the two registries and
    the names and ratings of the players are as they were.  Of reference
    counts nothing is said. *)
Theorem client_login_checks_the_name (w : World) (client pl : nat)
    (c : CLIENT) (p : PLAYER) :
  registry_sound w →
  clients w !! client = Some c → players w !! pl = Some p →
  ∃ r w',
    client_login client pl w = Ret r w'
    ∧ (r = 0 ∨ r = -1)
    ∧ (r = 0 ↔ player c = None
               ∧ ∀ cq, Some cq ∈ buf (client_registry w) →
                       ¬ logged_in_as w cq (username p))
    ∧ same_clients
        (<[client := mkCLIENT (connfd c)
                       (if r =? 0 then Some pl else player c) (invlist c)]>
           (clients w))
        (clients w')
    ∧ client_registry w' = client_registry w
    ∧ player_registry w' = player_registry w
    ∧ same_players (players w) (players w').
Proof.
  intros Hs Hc Hp.
  assert (Hsame : ∀ r, r ≠ 0 →
            same_clients
              (<[client := mkCLIENT (connfd c)
                             (if r =? 0 then Some pl else player c) (invlist c)]>
                 (clients w))
              (clients w)).
  { intros r Hr. rewrite (proj2 (Z.eqb_neq r 0) Hr).
    replace (mkCLIENT (connfd c) (player c) (invlist c)) with c by by destruct c.
    rewrite insert_id by done. apply same_clients_refl. }
  unfold client_login, mbind, M_bind, bind, get_client. rewrite Hc.
  case_bool_decide as Hpl.
  { exists (-1), w. split; [reflexivity|]. split; [by right|].
    split; [split; [done|by intros [? _]]|].
    split; [by apply Hsame|]. split; [done|]. split; [done|].
    apply same_players_refl. }
  unfold get_player. rewrite Hp.
  destruct (creg_lookup_from_run (buf (client_registry w)) (username p) w Hs)
    as (r & Hr & Hspec).
  unfold creg_lookup, mbind, M_bind, bind, get_creg.
  rewrite Hr. destruct r as [cq|]; case_bool_decide as Ho; try done.
  { destruct Hspec as (i & Hi & Hlog & _).
    exists (-1), w. split; [reflexivity|]. split; [by right|].
    split.
    { split; [done|]. intros [_ Hno]. exfalso. apply (Hno cq); [|done].
      by eapply list_elem_of_lookup_2. }
    split; [by apply Hsame|]. split; [done|]. split; [done|].
    apply same_players_refl. }
  rewrite Hc. unfold put_client, modify, mret, M_ret, ret. simpl.
  eexists 0, _. split; [reflexivity|]. split; [by left|].
  assert (player c = None) as Hnone. { by destruct (player c). }
  split; [by split|]. simpl.
  split; [apply same_clients_refl|]. split; [done|]. split; [done|].
  apply same_players_refl.
Qed.

(** The theorem at the login of the second connection of the sample
    store as bob. *)
Lemma client_login_checks_the_name_witness :
  ∃ r w',
    client_login 3 4 lobby = Ret r w'
    ∧ (r = 0 ∨ r = -1)
    ∧ (r = 0 ↔ @None nat = None
               ∧ ∀ cq, Some cq ∈ buf (client_registry lobby) →
                       ¬ logged_in_as lobby cq "bob")
    ∧ same_clients
        (<[3%nat := mkCLIENT 5 (if r =? 0 then Some 4%nat else None) []]>
           (clients lobby))
        (clients w')
    ∧ client_registry w' = client_registry lobby
    ∧ player_registry w' = player_registry lobby
    ∧ same_players (players lobby) (players w').
Proof.
  apply (client_login_checks_the_name lobby 3 4
           (mkCLIENT 5 None []) (mkPLAYER "bob" 1500)).
  - exact lobby_sound.
  - reflexivity.
  - reflexivity.
Defined.

(** [client_login] is its tests followed by its store. *)
Lemma client_login_in_two_parts (client pl : nat) (w : World) :
  client_login client pl w
  = (ok ← client_login_test client pl;
     if ok : bool then client_login_store client pl else ret (-1)) w.
Proof.
  unfold client_login, client_login_test, client_login_store,
    mbind, M_bind, bind, get_client, ret.
  destruct (clients w !! client) as [c|]; [|done].
  case_bool_decide; [done|].
  destruct (get_player pl w) as [p w1| |]; [|done|done].
  destruct (creg_lookup (username p) w1) as [o w2| |]; [|done|done].
  destruct o as [cq|].
  - rewrite bool_decide_eq_true_2 by done. by rewrite bool_decide_eq_false_2.
  - rewrite bool_decide_eq_false_2 by (by intros []).
    by rewrite bool_decide_eq_true_2.
Qed.

Lemma lobby_logged_out_sound : registry_sound lobby_logged_out.
Proof.
  intros cp H. simpl in H.
  repeat (apply elem_of_cons in H as [H|H];
          [first [discriminate H
                 |injection H as ->; eexists; split; [reflexivity|]; simpl;
                  intros pp Hpp; discriminate Hpp]|]).
  by apply elem_of_nil in H.
Qed.

(** X29.  [client_login] does not keep two threads from logging in under
    one name.  Its tests and its store are separate critical sections:
    when two threads call it for two clients that are not logged in and
    for the same player, under whose name nobody is logged in, and both
    run the tests before either runs the store, both calls return 0 and
    both clients are logged in under that name.  Run one after the
    other, the first call returns 0 and the second -1. *)
Theorem two_logins_share_a_name (w : World) (c1 c2 pl : nat)
    (x1 x2 : CLIENT) (p : PLAYER) :
  registry_sound w → c1 ≠ c2 →
  Some c1 ∈ buf (client_registry w) → Some c2 ∈ buf (client_registry w) →
  clients w !! c1 = Some x1 → player x1 = None →
  clients w !! c2 = Some x2 → player x2 = None →
  players w !! pl = Some p →
  (∀ cq, Some cq ∈ buf (client_registry w) →
         ¬ logged_in_as w cq (username p)) →
  (∃ w', two_logins c1 c2 pl w = Ret (0, 0) w'
         ∧ logged_in_as w' c1 (username p)
         ∧ logged_in_as w' c2 (username p)
         ∧ ¬ names_unique w')
  ∧ (∃ w1 w2, client_login c1 pl w = Ret 0 w1
              ∧ client_login c2 pl w1 = Ret (-1) w2).
Proof.
  intros Hs Hne Hin1 Hin2 Hc1 Hp1 Hc2 Hp2 Hp Hno.
  destruct (creg_lookup_from_run (buf (client_registry w)) (username p) w Hs)
    as (r & Hr & Hspec).
  assert (r = None) as ->.
  { destruct r as [cq|]; [|done]. destruct Hspec as (i & Hi & Hlog & _).
    destruct (Hno cq); [by eapply list_elem_of_lookup_2|done]. }
  assert (Htest : ∀ c x, clients w !! c = Some x → player x = None →
            client_login_test c pl w = Ret true w).
  { intros c x Hc Hx.
    unfold client_login_test, mbind, M_bind, bind, get_client, get_player.
    rewrite Hc, Hx, bool_decide_eq_false_2 by (by intros []).
    rewrite Hp. unfold creg_lookup, mbind, M_bind, bind, get_creg.
    by rewrite Hr. }
  set (w1 := set_clients (<[c1 := mkCLIENT (connfd x1) (Some pl) (invlist x1)]>) w).
  assert (Hstore1 : client_login_store c1 pl w = Ret 0 w1).
  { unfold client_login_store, mbind, M_bind, bind, get_client, put_client,
      modify, ret. by rewrite Hc1. }
  assert (Hc2' : clients w1 !! c2 = Some x2).
  { subst w1. cbn [clients set_clients]. by rewrite lookup_insert_ne. }
  assert (Hlog1 : ∀ m, m !! c1 = Some (mkCLIENT (connfd x1) (Some pl) (invlist x1)) →
            logged_in_as (set_clients (λ _, m) w) c1 (username p)).
  { intros m Hm. by exists (mkCLIENT (connfd x1) (Some pl) (invlist x1)), pl, p. }
  split.
  - set (w2 := set_clients (<[c2 := mkCLIENT (connfd x2) (Some pl) (invlist x2)]>) w1).
    exists w2. split.
    { unfold two_logins.
      unfold mbind at 1, M_bind at 1, bind at 1. rewrite (Htest c1 x1 Hc1 Hp1).
      unfold mbind at 1, M_bind at 1, bind at 1. rewrite (Htest c2 x2 Hc2 Hp2).
      unfold mbind at 1, M_bind at 1, bind at 1. rewrite Hstore1.
      unfold mbind at 1, M_bind at 1, bind at 1.
      unfold client_login_store, mbind, M_bind, bind, get_client, put_client,
        modify, ret. by rewrite Hc2'. }
    assert (L1 : logged_in_as w2 c1 (username p)).
    { exists (mkCLIENT (connfd x1) (Some pl) (invlist x1)), pl, p.
      subst w2 w1. cbn [clients players set_clients].
      rewrite lookup_insert_ne by done. by rewrite lookup_insert_eq. }
    assert (L2 : logged_in_as w2 c2 (username p)).
    { exists (mkCLIENT (connfd x2) (Some pl) (invlist x2)), pl, p.
      subst w2 w1. cbn [clients players set_clients].
      by rewrite lookup_insert_eq. }
    split; [done|]. split; [done|].
    intros Hu. apply Hne. by apply (Hu c1 c2 (username p)).
  - exists w1.
    assert (Hrun1 : client_login c1 pl w = Ret 0 w1).
    { rewrite client_login_in_two_parts.
      unfold mbind at 1, M_bind at 1, bind at 1.
      by rewrite (Htest c1 x1 Hc1 Hp1). }
    assert (Hs1 : registry_sound w1).
    { intros cp Hin. destruct (decide (cp = c1)) as [->|Hcp].
      - eexists. split; [subst w1; cbn [clients set_clients];
                         by rewrite lookup_insert_eq|].
        simpl. intros pp [= <-]. by exists p.
      - destruct (Hs cp Hin) as (c & Hc & Hk). exists c.
        split; [|exact Hk]. subst w1. cbn [clients set_clients].
        by rewrite lookup_insert_ne. }
    destruct (creg_lookup_from_run (buf (client_registry w1)) (username p) w1 Hs1)
      as (r & Hr1 & Hspec1).
    destruct r as [cq|].
    2:{ destruct (Hspec1 c1 Hin1).
        exists (mkCLIENT (connfd x1) (Some pl) (invlist x1)), pl, p.
        subst w1. cbn [clients players set_clients].
        by rewrite lookup_insert_eq. }
    exists w1. split; [done|].
    unfold client_login, mbind, M_bind, bind, get_client, get_player.
    rewrite Hc2', Hp2, bool_decide_eq_false_2 by (by intros []).
    assert (players w1 !! pl = Some p) as -> by done.
    unfold creg_lookup, mbind, M_bind, bind, get_creg. rewrite Hr1.
    by rewrite bool_decide_eq_true_2.
Qed.

(** The theorem at the two connections of the sample store and the
    player bob. *)
Lemma two_logins_share_a_name_witness :
  (∃ w', two_logins 1 3 4 lobby_logged_out = Ret (0, 0) w'
         ∧ logged_in_as w' 1 "bob"
         ∧ logged_in_as w' 3 "bob"
         ∧ ¬ names_unique w')
  ∧ (∃ w1 w2, client_login 1 4 lobby_logged_out = Ret 0 w1
              ∧ client_login 3 4 w1 = Ret (-1) w2).
Proof.
  apply (two_logins_share_a_name lobby_logged_out 1 3 4
           (mkCLIENT 4 None []) (mkCLIENT 5 None []) (mkPLAYER "bob" 1500)).
  - exact lobby_logged_out_sound.
  - lia.
  - apply elem_of_cons. by left.
  - apply elem_of_cons. right. apply elem_of_cons. by left.
  - reflexivity.
  - reflexivity.
  - reflexivity.
  - reflexivity.
  - reflexivity.
  - intros cq Hin (c & pp & q & Hc & Hpl & _). simpl in Hin.
    repeat (apply elem_of_cons in Hin as [Hin|Hin];
            [first [discriminate Hin
                   |injection Hin as ->; vm_compute in Hc; injection Hc as <-;
                    discriminate Hpl]|]).
    by apply elem_of_nil in Hin.
Defined.
(** The entries of the player registry after one more has been
    appended. *)
Lemma preg_find_app (l : list (string * nat)) (n m : string) (p : nat) :
  preg_find (l ++ [(n, p)]) m
  = match preg_find l m with
    | Some q => Some q
    | None => if String.eqb n m then Some p else None
    end.
Proof.
  induction l as [|[n' p'] l IH]; simpl; [done|].
  destruct (String.eqb n' m); [done|apply IH].
Qed.

(** X15.  [preg_register] is idempotent in what it returns and in what
    it registers: a second registration of the same name returns the same
    player, adds no entry and leaves the name and the rating of every
    player as they were.  The first registration of a name creates a
    player with the initial rating and appends one entry; a name already
    registered gives the registered player, with the entries, the names
    and the ratings unchanged; and in both cases the players registered
    under other names stay as they were.  Of the reference counts, which
    every registration raises, nothing is said. *)
Theorem preg_register_is_idempotent (w : World) (name : string) :
  ∃ p w',
    preg_register name w = Ret p w'
    ∧ (∃ w'', preg_register name w' = Ret p w''
              ∧ player_registry w'' = player_registry w'
              ∧ same_players (players w') (players w''))
    ∧ preg_find (player_registry w') name = Some p
    ∧ (∀ other, other ≠ name →
         preg_find (player_registry w') other
         = preg_find (player_registry w) other)
    ∧ match preg_find (player_registry w) name with
      | Some q =>
          p = q
          ∧ player_registry w' = player_registry w
          ∧ same_players (players w) (players w')
      | None =>
          p = brk w
          ∧ players w' = <[p := mkPLAYER name PLAYER_INITIAL_RATING]> (players w)
          ∧ player_registry w' = player_registry w ++ [(name, p)]
      end.
Proof.
  unfold preg_register.
  destruct (preg_find (player_registry w) name) as [q|] eqn:Hf.
  - exists q, w. rewrite Hf. split; [done|].
    split; [exists w; split; [done|split; [done|apply same_players_refl]]|].
    split; [done|]. split; [done|].
    split; [done|split; [done|apply same_players_refl]].
  - unfold player_create, mbind, M_bind, bind, Malloc, put_player, modify,
      mret, M_ret, ret. simpl.
    eexists _, _. split; [reflexivity|]. simpl.
    rewrite preg_find_app, Hf, String.eqb_refl.
    split; [eexists; split; [reflexivity|split; [done|apply same_players_refl]]|].
    split; [reflexivity|].
    split; [|done].
    intros other Hne. rewrite preg_find_app.
    destruct (preg_find (player_registry w) other); [done|].
    destruct (String.eqb_spec name other); [congruence|done].
Qed.
End RegistryProps.

(** ** More on the client module *)

Module InvitationProps.
Import Game Player Packet Store Objects Client Registry Runs Specs Invariants.
Import ClientFacts RegistryProps.
Local Open Scope Z_scope.

Lemma invlist_or_new_at (c : CLIENT) (j : nat) :
  default None (invlist_or_new c !! j) = invlist_at c j.
Proof.
  unfold invlist_or_new, invlist_at.
  destruct (invlist c) as [|x l]; [|done].
  cbn [length Nat.eqb]. cbv iota.
  destruct (decide (j < 10)%nat).
  - by rewrite (lookup_replicate_2 _ _ _ ltac:(eassumption)).
  - rewrite lookup_ge_None_2; [done|]. rewrite length_replicate. lia.
Qed.

Lemma lookup_app_replicate_None (l : list (option nat)) (n j : nat) :
  default None ((l ++ replicate n None) !! j) = default None (l !! j).
Proof.
  destruct (decide (j < length l)%nat).
  - by rewrite lookup_app_l.
  - rewrite lookup_app_r by lia. rewrite (lookup_ge_None_2 l) by lia.
    destruct (decide (j - length l < n)%nat).
    + by rewrite lookup_replicate_2.
    + rewrite lookup_ge_None_2; [done|]. rewrite length_replicate. lia.
Qed.

Lemma client_add_invitation_run (w : World) (client inv : nat) (c : CLIENT) :
  clients w !! client = Some c →
  ∃ idx l',
    client_add_invitation client inv w
    = Ret (Z.of_nat idx) (set_clients (insert client (set_invlist c l')) w)
    ∧ l' !! idx = Some (Some inv)
    ∧ invlist_at c idx = None
    ∧ (∀ j, (j < idx)%nat → invlist_at c j ≠ None)
    ∧ (∀ j, j ≠ idx → default None (l' !! j) = invlist_at c j)
    ∧ (length l' = length (invlist c) ∨ length l' = (length (invlist c) + 10)%nat)
    ∧ (Some inv ∉ invlist c → find_slot (Some inv) l' = Some idx).
Proof.
  intros Hc. unfold client_add_invitation. munfold. rewrite Hc.
  fold (invlist_or_new c).
  assert (Hlen : length (invlist_or_new c) = length (invlist c)
                 ∨ length (invlist_or_new c) = (length (invlist c) + 10)%nat).
  { unfold invlist_or_new. destruct (invlist c); simpl; auto. }
  assert (Hfresh : Some inv ∉ invlist c → Some inv ∉ invlist_or_new c).
  { unfold invlist_or_new. destruct (invlist c); [|done].
    cbn [length Nat.eqb]. cbv iota.
    intros _ H. apply elem_of_replicate in H as [H _]. done. }
  destruct (find_slot None (invlist_or_new c)) as [idx|] eqn:Hf.
  - pose proof (find_slot_lookup _ _ _ Hf) as Hi.
    assert (Hlt : (idx < length (invlist_or_new c))%nat)
      by (eapply lookup_lt_Some; eauto).
    exists idx, (<[idx := Some inv]> (invlist_or_new c)).
    split; [reflexivity|]. split; [by rewrite list_lookup_insert_eq|].
    split; [by rewrite <- invlist_or_new_at, Hi|]. split; [|split; [|split]].
    + intros j Hj. rewrite <- invlist_or_new_at.
      pose proof (find_slot_first _ _ _ j Hf Hj) as Hne.
      destruct (invlist_or_new c !! j) as [[x|]|] eqn:Hj'; simpl; try done.
      apply lookup_ge_None in Hj'. lia.
    + intros j Hj. rewrite list_lookup_insert_ne by done.
      apply invlist_or_new_at.
    + by rewrite length_insert.
    + intros H. apply (find_slot_insert_fresh _ _ _ None); [done|by apply Hfresh].
  - set (l := invlist_or_new c) in *.
    exists (length l), (<[length l := Some inv]> (l ++ replicate 10 None)).
    assert (Hl : (length l < length (l ++ replicate 10 None))%nat).
    { rewrite length_app, length_replicate. lia. }
    split; [reflexivity|]. split; [by rewrite list_lookup_insert_eq|].
    assert (Hfull : ∀ j, (j < length l)%nat → ∃ x, l !! j = Some (Some x)).
    { intros j Hj. destruct (lookup_lt_is_Some_2 _ _ Hj) as [[x|] Hx]; [eauto|].
      apply find_slot_None_iff in Hf. destruct Hf.
      by eapply list_elem_of_lookup_2. }
    assert (invlist c ≠ [] ∧ l = invlist c) as [Hne Hl'].
    { subst l. unfold invlist_or_new in *.
      destruct (invlist c); [simpl in Hf; done|done]. }
    split; [|split; [|split; [|split]]].
    + unfold invlist_at. rewrite <- Hl'. by rewrite lookup_ge_None_2.
    + intros j Hj. unfold invlist_at. rewrite <- Hl'.
      destruct (Hfull j Hj) as [x ->]. done.
    + intros j Hj. rewrite list_lookup_insert_ne by done.
      rewrite lookup_app_replicate_None. by rewrite Hl'.
    + right. rewrite length_insert, length_app, length_replicate. by rewrite Hl'.
    + intros H. apply (find_slot_insert_fresh _ _ _ None).
      * rewrite lookup_app_r by lia. by rewrite Nat.sub_diag.
      * intros [H1|H1]%elem_of_app; [by apply Hfresh in H|].
        apply elem_of_replicate in H1 as [H1 _]. done.
Qed.

(** X16.  [client_add_invitation] puts the invitation at the lowest
    index whose slot is free, and returns that index; when no slot is
    free (or the client has no list yet) it first adds ten free slots.
    It never fails, the ids of the invitations the client already holds
    do not change, and nothing but the client's list changes. *)
Theorem client_add_invitation_takes_lowest_free_id (w : World)
    (client inv : nat) (c : CLIENT) :
  clients w !! client = Some c →
  ∃ idx w' c',
    client_add_invitation client inv w = Ret (Z.of_nat idx) w'
    ∧ clients w' = <[client := c']> (clients w)
    ∧ connfd c' = connfd c ∧ player c' = player c
    ∧ invlist_at c' idx = Some inv
    ∧ invlist_at c idx = None
    ∧ (∀ j, (j < idx)%nat → invlist_at c j ≠ None)
    ∧ (∀ j, j ≠ idx → invlist_at c' j = invlist_at c j)
    ∧ (length (invlist c') = length (invlist c)
       ∨ length (invlist c') = (length (invlist c) + 10)%nat).
Proof.
  intros Hc.
  destruct (client_add_invitation_run w client inv c Hc)
    as (idx & l' & Hrun & Hidx & Hfree & Hlow & Hkeep & Hlen & _).
  eexists idx, _, (set_invlist c l'). split; [exact Hrun|].
  split; [done|]. split; [done|]. split; [done|].
  split; [unfold invlist_at; simpl; by rewrite Hidx|].
  repeat split; done.
Qed.

(** The theorem at the first invitation given to a client of the sample
    store. *)
Lemma client_add_invitation_takes_lowest_free_id_witness :
  ∃ idx w' c',
    client_add_invitation 1 7 lobby = Ret (Z.of_nat idx) w'
    ∧ clients w' = <[1%nat := c']> (clients lobby)
    ∧ connfd c' = 4 ∧ player c' = Some 2%nat
    ∧ invlist_at c' idx = Some 7%nat
    ∧ invlist_at (mkCLIENT 4 (Some 2%nat) []) idx = None
    ∧ (∀ j, (j < idx)%nat → invlist_at (mkCLIENT 4 (Some 2%nat) []) j ≠ None)
    ∧ (∀ j, j ≠ idx →
         invlist_at c' j = invlist_at (mkCLIENT 4 (Some 2%nat) []) j)
    ∧ (length (invlist c') = length (@nil (option nat))
       ∨ length (invlist c') = (length (@nil (option nat)) + 10)%nat).
Proof.
  apply (client_add_invitation_takes_lowest_free_id lobby 1 7
           (mkCLIENT 4 (Some 2%nat) [])).
  reflexivity.
Defined.

(** X17.  Adding an invitation that the client does not hold and
    removing it again returns the same id both times and leaves every
    slot of the client's list as it was. *)
Theorem client_add_then_remove_invitation (w : World) (client inv : nat)
    (c : CLIENT) :
  clients w !! client = Some c →
  Some inv ∉ invlist c →
  ∃ idx w1 w2 c2,
    client_add_invitation client inv w = Ret (Z.of_nat idx) w1
    ∧ client_remove_invitation client inv w1 = Ret (Z.of_nat idx) w2
    ∧ clients w2 = <[client := c2]> (clients w)
    ∧ connfd c2 = connfd c ∧ player c2 = player c
    ∧ (∀ j, invlist_at c2 j = invlist_at c j).
Proof.
  intros Hc Hfresh.
  destruct (client_add_invitation_run w client inv c Hc)
    as (idx & l' & Hrun & Hidx & Hfree & Hlow & Hkeep & Hlen & Hfind).
  specialize (Hfind Hfresh).
  eexists idx, _, _, (set_invlist c (<[idx := None]> l')).
  split; [exact Hrun|].
  unfold client_remove_invitation. munfold. simpl.
  rewrite lookup_insert_eq. simpl. rewrite Hfind.
  split; [reflexivity|]. unfold set_clients; simpl.
  split; [by rewrite insert_insert_eq|]. split; [done|]. split; [done|].
  intros j. unfold invlist_at at 1. simpl.
  destruct (decide (j = idx)) as [->|Hj].
  - rewrite list_lookup_insert_eq by (by eapply lookup_lt_Some). by rewrite Hfree.
  - rewrite list_lookup_insert_ne by done. by apply Hkeep.
Qed.

(** The theorem at a client of the sample store. *)
Lemma client_add_then_remove_invitation_witness :
  ∃ idx w1 w2 c2,
    client_add_invitation 1 7 lobby = Ret (Z.of_nat idx) w1
    ∧ client_remove_invitation 1 7 w1 = Ret (Z.of_nat idx) w2
    ∧ clients w2 = <[1%nat := c2]> (clients lobby)
    ∧ connfd c2 = 4 ∧ player c2 = Some 2%nat
    ∧ (∀ j, invlist_at c2 j = invlist_at (mkCLIENT 4 (Some 2%nat) []) j).
Proof.
  apply (client_add_then_remove_invitation lobby 1 7
           (mkCLIENT 4 (Some 2%nat) [])).
  - reflexivity.
  - apply not_elem_of_nil.
Defined.

(** X18.  An id that is out of range, or whose slot is empty, is
    refused by all five operations that take an id: each returns -1 and
    leaves the store exactly as it was. *)
Theorem stale_id_is_rejected (w : World) (client id : nat) (c : CLIENT)
    (move : string) :
  clients w !! client = Some c →
  invlist_at c id = None →
  client_revoke_invitation client id w = Ret (-1) w
  ∧ client_decline_invitation client id w = Ret (-1) w
  ∧ client_accept_invitation client id w = Ret (-1, None) w
  ∧ client_resign_game client id w = Ret (-1) w
  ∧ client_make_move client id move w = Ret (-1) w.
Proof.
  intros Hc Hid.
  unfold client_revoke_invitation, client_decline_invitation,
    client_accept_invitation, client_resign_game, client_make_move.
  munfold. rewrite Hc, Hid.
  destruct (length (invlist c) <=? id)%nat; done.
Qed.

(** The theorem at the id 3 of a client that holds one invitation. *)
Lemma stale_id_is_rejected_witness :
  client_revoke_invitation open_alice 3 open_world = Ret (-1) open_world
  ∧ client_decline_invitation open_alice 3 open_world = Ret (-1) open_world
  ∧ client_accept_invitation open_alice 3 open_world = Ret (-1, None) open_world
  ∧ client_resign_game open_alice 3 open_world = Ret (-1) open_world
  ∧ client_make_move open_alice 3 "5"%string open_world = Ret (-1) open_world.
Proof.
  apply (stale_id_is_rejected open_world open_alice 3
           (client_at open_world open_alice) "5"%string).
  - vm_compute. reflexivity.
  - vm_compute. reflexivity.
Defined.

(** X19.  The game pointer of an invitation decides which operations it
    admits.  While it holds no game, resigning and moving return -1; once
    it holds one, revoking, declining and accepting return -1.  In each
    case the store is left exactly as it was. *)
Theorem game_gates_the_operations (w : World) (client id : nat) (c : CLIENT)
    (inv : nat) (i : INVITATION) (move : string) :
  clients w !! client = Some c →
  invlist c !! id = Some (Some inv) →
  invitations w !! inv = Some i →
  match game i with
  | None =>
      client_resign_game client id w = Ret (-1) w
      ∧ client_make_move client id move w = Ret (-1) w
  | Some _ =>
      client_revoke_invitation client id w = Ret (-1) w
      ∧ client_decline_invitation client id w = Ret (-1) w
      ∧ client_accept_invitation client id w = Ret (-1, None) w
  end.
Proof.
  intros Hc Hid Hi.
  assert (Hlen : (length (invlist c) <=? id)%nat = false).
  { apply Nat.leb_gt. by eapply lookup_lt_Some. }
  unfold client_revoke_invitation, client_decline_invitation,
    client_accept_invitation, client_resign_game, client_make_move.
  munfold. rewrite Hc, Hlen. unfold invlist_at. rewrite Hid. simpl.
  rewrite Hi. destruct (game i) as [g|]; [|done].
  rewrite (bool_decide_eq_true_2 (Some g ≠ None)) by done.
  destruct (negb (client =? source i)%nat), (negb (client =? target i)%nat); done.
Qed.

(** The theorem at an open invitation. *)
Lemma game_gates_the_operations_witness :
  match game (invitation_at open_world open_inv) with
  | None =>
      client_resign_game open_bob 0 open_world = Ret (-1) open_world
      ∧ client_make_move open_bob 0 "5"%string open_world = Ret (-1) open_world
  | Some _ =>
      client_revoke_invitation open_bob 0 open_world = Ret (-1) open_world
      ∧ client_decline_invitation open_bob 0 open_world = Ret (-1) open_world
      ∧ client_accept_invitation open_bob 0 open_world
        = Ret (-1, None) open_world
  end.
Proof.
  apply (game_gates_the_operations open_world open_bob 0
           (client_at open_world open_bob) open_inv
           (invitation_at open_world open_inv) "5"%string).
  - vm_compute. reflexivity.
  - vm_compute. reflexivity.
  - vm_compute. reflexivity.
Defined.










End InvitationProps.

(** ** More on start-up and on receiving *)

Module StartupProps.
Import Main.
Local Open Scope Z_scope.

(** The option scan finds a value exactly when some [-p] has a successor;
    the value is the successor of the first [-p]. *)
Lemma scan_options_Some (args : list string) (v : string) :
  scan_options args = Some v
  ↔ ∃ pre post, args = pre ++ "-p"%string :: v :: post ∧ "-p"%string ∉ pre.
Proof.
  induction args as [|a rest IH]; simpl.
  - split; [done|]. intros (pre & post & H & _). by destruct pre.
  - destruct (String.eqb_spec a "-p") as [->|Ha].
    + destruct rest as [|value rest'].
      * simpl. split; [done|]. intros (pre & post & H & _).
        destruct pre as [|x [|y pre]]; discriminate.
      * split.
        -- intros [= ->]. exists [], rest'. split; [done|]. apply not_elem_of_nil.
        -- intros (pre & post & H & Hpre). destruct pre as [|x pre].
           ++ simpl in H. by injection H as -> _.
           ++ injection H as <- _. destruct Hpre. by left.
    + rewrite IH. split.
      * intros (pre & post & -> & Hpre). exists (a :: pre), post.
        split; [done|]. apply not_elem_of_cons. by split.
      * intros (pre & post & H & Hpre). destruct pre as [|x pre].
        -- simpl in H. injection H as -> _. done.
        -- injection H as <- ->. exists pre, post. split; [done|].
           apply not_elem_of_cons in Hpre. tauto.
Qed.

(** X23.  [main] reaches [Open_listenfd] exactly when some argument after
    the program name is a [-p] followed by another argument and the
    SIGHUP handler could be installed; the port it then listens on is
    [argv[2]], the third word of the command line, wherever the [-p]
    stands. *)
Theorem main_listens_on_the_third_word (sigaction_ok : bool)
    (argv : list string) (port : string) :
  main sigaction_ok argv = Listening port
  ↔ sigaction_ok = true
    ∧ argv !! 2%nat = Some port
    ∧ ∃ pre v post,
        drop 1 argv = pre ++ "-p"%string :: v :: post ∧ "-p"%string ∉ pre.
Proof.
  unfold main. destruct (Nat.ltb_spec (length argv) 3) as [Hlen|Hlen].
  - split; [done|]. intros (_ & H2 & _). apply lookup_lt_Some in H2. lia.
  - destruct (scan_options (drop 1 argv)) as [v|] eqn:Hscan.
    + apply scan_options_Some in Hscan.
      destruct (lookup_lt_is_Some_2 argv 2 ltac:(lia)) as [p Hp]. rewrite Hp.
      destruct sigaction_ok; simpl.
      * split.
        -- intros [= <-]. split; [done|]. split; [done|].
           destruct Hscan as (pre & post & H1 & H2). by exists pre, v, post.
        -- intros (_ & [= ->] & _). done.
      * split; [done|]. by intros [? _].
    + split; [done|]. intros (_ & _ & pre & v & post & H).
      assert (scan_options (drop 1 argv) = Some v) as Hs
        by (apply scan_options_Some; eauto).
      congruence.
Qed.

End StartupProps.

Module ReceiveProps.
Import Protocol.
Local Open Scope Z_scope.

Lemma overwrite_full (bytes hdr : list Z) :
  (length hdr ≤ length bytes)%nat → overwrite bytes hdr = bytes.
Proof.
  intros H. unfold overwrite. rewrite drop_ge by done. apply app_nil_r.
Qed.

(** [rio_readn] on a stream that holds the bytes asked for. *)
Lemma csapp_rio_readn_enough (front rest : list Z) (f : bool) :
  csapp_rio_readn (mkConn (front ++ rest) f) (length front)
  = (RioCount front, mkConn rest f).
Proof.
  unfold csapp_rio_readn. simpl.
  rewrite (proj2 (Nat.leb_le _ _)) by (rewrite length_app; lia).
  by rewrite take_app_length, drop_app_length.
Qed.

(** X24.  When the stream begins with a complete packet, sixteen header
    bytes whose size field gives the length of the payload that follows,
    [proto_recv_packet] returns 0, stores those sixteen bytes in the
    header, hands back exactly the payload (NULL when the size is 0), and
    leaves the stream at the first byte after the packet. *)
Theorem proto_recv_packet_reads_one_packet (hbytes payload rest hdr : list Z)
    (f : bool) :
  length hbytes = HEADER_BYTES →
  length hdr = HEADER_BYTES →
  ntohs_size hbytes = Z.of_nat (length payload) →
  proto_recv_packet connection csapp_rio_readn
    (mkConn (hbytes ++ payload ++ rest) f) hdr
  = mkReceived connection 0 hbytes
      (if decide (payload = []) then None else Some payload)
      (mkConn rest f).
Proof.
  intros Hh Hhdr Hsize. unfold proto_recv_packet.
  rewrite <- Hh, csapp_rio_readn_enough.
  rewrite overwrite_full by lia. rewrite Hsize.
  destruct payload as [|b payload].
  - reflexivity.
  - rewrite decide_False by done.
    replace (negb (Z.of_nat (length (b :: payload)) =? 0)) with true
      by (symmetry; apply negb_true_iff, Z.eqb_neq; simpl; lia).
    rewrite Nat2Z.id, csapp_rio_readn_enough. reflexivity.
Qed.

(** The theorem at a packet with the two payload bytes "hi", followed by
    the first byte of the next packet. *)
Lemma proto_recv_packet_reads_one_packet_witness :
  proto_recv_packet connection csapp_rio_readn
    (mkConn ([1; 0; 0; 0; 0; 2; 0; 0; 0; 0; 0; 0; 0; 0; 0; 0]
             ++ [104; 105] ++ [2]) false)
    (replicate 16 0)
  = mkReceived connection 0 [1; 0; 0; 0; 0; 2; 0; 0; 0; 0; 0; 0; 0; 0; 0; 0]
      (if decide ([104; 105] = @nil Z) then None else Some [104; 105])
      (mkConn [2] false).
Proof.
  apply (proto_recv_packet_reads_one_packet
           [1; 0; 0; 0; 0; 2; 0; 0; 0; 0; 0; 0; 0; 0; 0; 0] [104; 105] [2]
           (replicate 16 0) false).
  - reflexivity.
  - reflexivity.
  - reflexivity.
Defined.

(** X25.  When the stream ends inside the payload that the header
    announces, the outcome depends on how it ends.  On a read error
    [proto_recv_packet] returns -1 and hands back no payload.  At
    end-of-file it returns 0 and hands back the bytes that did arrive:
    the short count of [rio_readn] is not compared with the size. *)
Theorem proto_recv_packet_on_a_short_stream (hbytes partial hdr : list Z)
    (f : bool) :
  length hbytes = HEADER_BYTES →
  length hdr = HEADER_BYTES →
  Z.of_nat (length partial) < ntohs_size hbytes →
  proto_recv_packet connection csapp_rio_readn
    (mkConn (hbytes ++ partial) f) hdr
  = if f
    then mkReceived connection (-1) hbytes None (mkConn partial true)
    else mkReceived connection 0 hbytes (Some partial) (mkConn [] false).
Proof.
  intros Hh Hhdr Hshort. unfold proto_recv_packet.
  rewrite <- Hh, csapp_rio_readn_enough.
  rewrite overwrite_full by lia.
  replace (negb (ntohs_size hbytes =? 0)) with true
    by (symmetry; apply negb_true_iff, Z.eqb_neq; lia).
  unfold csapp_rio_readn. simpl.
  rewrite (proj2 (Nat.leb_gt _ _)) by lia.
  by destruct f.
Qed.

(** The theorem at a header that announces five payload bytes on a
    stream that ends, at end-of-file, after two. *)
Lemma proto_recv_packet_on_a_short_stream_witness :
  proto_recv_packet connection csapp_rio_readn
    (mkConn ([7; 0; 0; 0; 0; 5; 0; 0; 0; 0; 0; 0; 0; 0; 0; 0] ++ [53; 60])
            false)
    (replicate 16 0)
  = if false
    then mkReceived connection (-1)
           [7; 0; 0; 0; 0; 5; 0; 0; 0; 0; 0; 0; 0; 0; 0; 0] None
           (mkConn [53; 60] true)
    else mkReceived connection 0
           [7; 0; 0; 0; 0; 5; 0; 0; 0; 0; 0; 0; 0; 0; 0; 0] (Some [53; 60])
           (mkConn [] false).
Proof.
  apply (proto_recv_packet_on_a_short_stream
           [7; 0; 0; 0; 0; 5; 0; 0; 0; 0; 0; 0; 0; 0; 0; 0] [53; 60]
           (replicate 16 0) false).
  - reflexivity.
  - reflexivity.
  - vm_compute. reflexivity.
Defined.

End ReceiveProps.

(** ** What the operations of a client leave untouched *)

Module FrameProps.
Import Game Player Packet Store Objects Client Registry Runs Specs Invariants.
Import ClientFacts RegistryProps InvitationProps.
Local Open Scope Z_scope.

Lemma untouched_refl (w : World) : untouched w w.
Proof.
  split; eauto.
  - intros p i Hi. exists i. repeat split; done.
  - exists []. split; [by rewrite app_nil_r|constructor].
Qed.

Lemma untouched_trans (w1 w2 w3 : World) :
  untouched w1 w2 → untouched w2 w3 → untouched w1 w3.
Proof.
  intros [A1 A2 A3 A4 A6 A7] [B1 B2 B3 B4 B6 B7]. split.
  - intros p c Hc. destruct (A1 p c Hc) as (c' & Hc' & E1 & E2).
    destruct (B1 p c' Hc') as (c'' & Hc'' & F1 & F2).
    exists c''. split; [done|]. split; congruence.
  - intros p Hp. apply B2, A2, Hp.
  - intros p x Hx. destruct (A3 p x Hx) as (x' & Hx' & E).
    destruct (B3 p x' Hx') as (x'' & Hx'' & F). exists x''. split; [done|congruence].
  - intros p i Hi.
    destruct (A4 p i Hi) as (i' & Hi' & E1 & E2 & E3 & E4 & E5 & E6).
    destruct (B4 p i' Hi') as (i'' & Hi'' & F1 & F2 & F3 & F4 & F5 & F6).
    exists i''. split; [done|]. repeat split; try congruence.
    + intros Hs. by apply F5, E5.
    + intros Hs. by apply F6, E6.
  - destruct A6 as (? & ? & ?), B6 as (? & ? & ?). repeat split; congruence.
  - destruct A7 as (r1 & E1 & N1), B7 as (r2 & E2 & N2).
    exists (r1 ++ r2). split; [by rewrite E2, E1, app_assoc|].
    by apply Forall_app.
Qed.

Lemma frame_refl (w : World) : frame w w.
Proof. intros H. split; [done|]. split; [lia|apply untouched_refl]. Qed.

Lemma frame_trans (w1 w2 w3 : World) : frame w1 w2 → frame w2 w3 → frame w1 w3.
Proof.
  intros H12 H23 H1. destruct (H12 H1) as (H2 & L12 & U12).
  destruct (H23 H2) as (H3 & L23 & U23).
  split; [done|]. split; [lia|]. by eapply untouched_trans.
Qed.

Lemma keeps_ret {A} (a : A) : keeps (ret a).
Proof. intros w a' w' [= <- <-]. apply frame_refl. Qed.

Lemma keeps_mret {A} (a : A) : keeps (mret a : M A).
Proof. apply keeps_ret. Qed.

Lemma keeps_fault {A} : keeps (fault : M A).
Proof. intros w a w' H. discriminate. Qed.

Lemma keeps_bind {A B} (m : M A) (k : A → M B) :
  keeps m → (∀ a, keeps (k a)) → keeps (m ≫= k).
Proof.
  intros Hm Hk w b w'. unfold mbind, M_bind, bind.
  destruct (m w) as [a w1| |] eqn:H1; [|done|done].
  intros H2. eapply frame_trans; [by eapply Hm|by eapply Hk].
Qed.

Lemma keeps_get_client (p : nat) : keeps (get_client p).
Proof.
  intros w a w'. unfold get_client. destruct (clients w !! p); [|done].
  intros [= <- <-]. apply frame_refl.
Qed.

Lemma keeps_get_invitation (p : nat) : keeps (get_invitation p).
Proof.
  intros w a w'. unfold get_invitation. destruct (invitations w !! p); [|done].
  intros [= <- <-]. apply frame_refl.
Qed.

Lemma keeps_get_game (p : nat) : keeps (get_game p).
Proof.
  intros w a w'. unfold get_game. destruct (games w !! p); [|done].
  intros [= <- <-]. apply frame_refl.
Qed.

Lemma keeps_get_player (p : nat) : keeps (get_player p).
Proof.
  intros w a w'. unfold get_player. destruct (players w !! p); [|done].
  intros [= <- <-]. apply frame_refl.
Qed.

(** Projections of a store that has been written. *)
Ltac wsimpl :=
  cbn [clients invitations games players brk client_registry player_registry
       sent broken set_clients set_invitations set_games set_players set_brk
       set_client_registry set_player_registry set_sent set_broken].

(** A store that differs from [w] in the packets sent only. *)
Lemma frame_sent (w : World) (rest : list PACKET) :
  Forall notification rest →
  frame w (set_sent (sent w ++ rest) w).
Proof.
  intros Hn Hh. split; [done|]. split; [simpl; lia|].
  split; simpl; eauto.
  intros p i Hi. exists i. repeat split; done.
Qed.

Lemma keeps_client_send_packet (client : nat) (hdr : JEUX_PACKET_HEADER)
    (data : option string) :
  hdr_type hdr ≠ JEUX_ACK_PKT → hdr_type hdr ≠ JEUX_NACK_PKT →
  keeps (client_send_packet client hdr data).
Proof.
  intros H1 H2 w r w' Hrun.
  apply client_send_packet_ret in Hrun as (c & Hc & [[-> ->]|[-> ->]]).
  - apply frame_refl.
  - apply frame_sent. repeat constructor; done.
Qed.

(** A store that differs from [w] in the list of one client only. *)
Lemma frame_invlist (w : World) (p : nat) (c : CLIENT) (l : list (option nat)) :
  clients w !! p = Some c →
  frame w (set_clients (insert p (set_invlist c l)) w).
Proof.
  intros Hc Hh. split; [done|]. split; [simpl; lia|].
  split; simpl; eauto.
  - intros q cq Hq. destruct (decide (q = p)) as [->|Hne].
    + rewrite lookup_insert_eq. eexists. split; [done|].
      rewrite Hc in Hq. injection Hq as <-. done.
    + rewrite lookup_insert_ne by done. eauto.
  - intros q Hq. rewrite lookup_insert_ne; [done|]. congruence.
  - intros q i Hi. exists i. repeat split; done.
  - exists []. split; [by rewrite app_nil_r|constructor].
Qed.

Lemma keeps_client_remove_invitation (client inv : nat) :
  keeps (client_remove_invitation client inv).
Proof.
  intros w r w'. unfold client_remove_invitation. munfold.
  destruct (clients w !! client) as [c|] eqn:Hc; [|done].
  destruct (find_slot (Some inv) (invlist c)); intros [= <- <-].
  - by apply frame_invlist.
  - apply frame_refl.
Qed.

Lemma keeps_client_add_invitation (client inv : nat) :
  keeps (client_add_invitation client inv).
Proof.
  intros w r w' Hrun.
  destruct (clients w !! client) as [c|] eqn:Hc.
  - destruct (client_add_invitation_run w client inv c Hc)
      as (idx & l' & Hrun' & _).
    rewrite Hrun' in Hrun. injection Hrun as <- <-. by apply frame_invlist.
  - unfold client_add_invitation, mbind, M_bind, bind, get_client in Hrun.
    by rewrite Hc in Hrun.
Qed.

Lemma heap_ok_lt (w : World) (p : nat) (i : INVITATION) :
  heap_ok w → invitations w !! p = Some i → (p < brk w)%nat.
Proof.
  intros Hh Hi. destruct (decide (p < brk w)%nat); [done|].
  destruct (Hh p) as [Hn _]; [lia|]. congruence.
Qed.

Lemma heap_ok_player_lt (w : World) (p : nat) (x : PLAYER) :
  heap_ok w → players w !! p = Some x → (p < brk w)%nat.
Proof.
  intros Hh Hx. destruct (decide (p < brk w)%nat); [done|].
  destruct (Hh p) as [_ Hn]; [lia|]. congruence.
Qed.

Lemma keeps_inv_create (src tgt : nat) (sr tr : GAME_ROLE) :
  keeps (inv_create src tgt sr tr).
Proof.
  intros w r w'. unfold inv_create. munfold. intros [= <- <-] Hh.
  split; [|split; [simpl; lia|]].
  - intros p Hp. simpl in *. rewrite lookup_insert_ne by lia. apply Hh. lia.
  - split; simpl; eauto.
    + intros p i Hi. pose proof (heap_ok_lt _ _ _ Hh Hi).
      rewrite lookup_insert_ne by lia. exists i. repeat split; done.
    + exists []. split; [by rewrite app_nil_r|constructor].
Qed.

(** A store that differs from [w] in one invitation, whose state has
    advanced, in the games and in [brk]. *)
Lemma frame_invitation (w : World) (p : nat) (i : INVITATION)
    (st : INVITATION_STATE) (g : option nat) (gs : gmap nat GAME) (b : nat) :
  invitations w !! p = Some i →
  st ≠ INV_OPEN_STATE →
  (state i = INV_CLOSED_STATE → st = INV_CLOSED_STATE) →
  (brk w ≤ b)%nat →
  frame w (set_brk b (set_games (λ _, gs)
             (set_invitations
                (insert p (mkINV st (source i) (target i)
                                 (source_role i) (target_role i) g)) w))).
Proof.
  intros Hi Hst Hcl Hb Hh. split; [|split; [simpl; lia|]].
  - intros q Hq. simpl in *. pose proof (heap_ok_lt _ _ _ Hh Hi).
    rewrite lookup_insert_ne by lia. apply Hh. lia.
  - split; simpl; eauto.
    + intros q j Hj. destruct (decide (q = p)) as [->|Hne].
      * rewrite lookup_insert_eq. eexists. split; [done|].
        rewrite Hi in Hj. injection Hj as <-. simpl. repeat split; done.
      * rewrite lookup_insert_ne by done. exists j. repeat split; done.
    + exists []. split; [by rewrite app_nil_r|constructor].
Qed.

Lemma keeps_inv_accept (inv : nat) : keeps (inv_accept inv).
Proof.
  intros w r w'. unfold inv_accept. munfold.
  destruct (invitations w !! inv) as [i|] eqn:Hi; [|done].
  destruct (state i) eqn:Hst; intros [= <- <-]; try apply frame_refl.
  apply (frame_invitation w inv i INV_ACCEPTED_STATE (Some (brk w))
           (<[brk w := game_create]> (games w)) (S (brk w)) Hi);
    [done|congruence|lia].
Qed.

Lemma keeps_inv_close (inv : nat) (r : GAME_ROLE) : keeps (inv_close inv r).
Proof.
  intros w a w'. unfold inv_close. munfold.
  destruct (invitations w !! inv) as [i|] eqn:Hi; [|done].
  assert (Hclose : ∀ gs, frame w
            (set_games (λ _, gs)
               (set_invitations
                  (insert inv (mkINV INV_CLOSED_STATE (source i) (target i)
                                 (source_role i) (target_role i) (game i))) w))).
  { intros gs.
    pose proof (frame_invitation w inv i INV_CLOSED_STATE (game i) gs (brk w) Hi
                  ltac:(done) ltac:(done) ltac:(lia)) as H.
    by destruct w. }
  destruct (state i) eqn:Hst; try (intros [= <- <-]; apply frame_refl).
  all: destruct (game i) as [gp|] eqn:Hg.
  all: try (destruct (r =? NULL_ROLE); [intros [= <- <-]; apply frame_refl|]).
  all: unfold modify; cbv beta iota; wsimpl.
  all: try (destruct (games w !! gp) as [g|]; [|done];
            destruct (game_resign g r) as [g'|]; intros [= <- <-];
            [specialize (Hclose (<[gp := g']> (games w)))
            |specialize (Hclose (games w))]).
  all: try (intros [= <- <-]; specialize (Hclose (games w))).
  all: unfold set_games, set_invitations in Hclose |- *; wsimpl;
    cbn [clients invitations games players brk client_registry
         player_registry sent broken] in Hclose; exact Hclose.
Qed.

Lemma keeps_put_game (p : nat) (g : GAME) : keeps (put_game p g).
Proof.
  intros w a w'. unfold put_game, modify. intros [= <- <-] Hh.
  split; [exact Hh|]. split; [simpl; lia|]. split; simpl; eauto.
  - intros q i Hi. exists i. repeat split; done.
  - exists []. split; [by rewrite app_nil_r|constructor].
Qed.

(** A store that differs from [w] in the rating of one player only. *)
Lemma frame_rating (w : World) (p : nat) (x : PLAYER) (R : Z) :
  players w !! p = Some x →
  frame w (set_players (insert p (mkPLAYER (username x) R)) w).
Proof.
  intros Hx Hh. split; [|split; [simpl; lia|split; simpl; eauto]].
  - intros q Hq. simpl in *. pose proof (heap_ok_player_lt _ _ _ Hh Hx).
    rewrite lookup_insert_ne by lia. apply Hh. lia.
  - intros q y Hy. destruct (decide (q = p)) as [->|Hne].
    + rewrite lookup_insert_eq. eexists. split; [done|].
      rewrite Hx in Hy. by injection Hy as <-.
    + rewrite lookup_insert_ne by done. eauto.
  - intros q i Hi. exists i. repeat split; done.
  - exists []. split; [by rewrite app_nil_r|constructor].
Qed.

Lemma keeps_player_post_result (p1 p2 : option nat) (result : Z) :
  keeps (player_post_result p1 p2 result).
Proof.
  intros w a w'. unfold player_post_result.
  destruct p1 as [p1|], p2 as [p2|];
    try (intros H; inversion H; subst; apply frame_refl).
  munfold. unfold modify.
  destruct (players w !! p1) as [x1|] eqn:H1; [|done].
  destruct (players w !! p2) as [x2|] eqn:H2; [|done].
  destruct (post_result_ratings _ _ _) as [[R1 R2]|];
    [|intros H; inversion H; subst; apply frame_refl].
  cbv beta iota. wsimpl.
  destruct (<[p1:=_]> (players w) !! p2) as [y2|] eqn:Hy2; [|done].
  intros H; inversion H; subst.
  eapply frame_trans; [by apply (frame_rating w p1 x1 R1)|].
  by apply (frame_rating _ p2 y2 R2).
Qed.

Lemma keeps_unparse_game_of (inv : nat) : keeps (unparse_game_of inv).
Proof.
  unfold unparse_game_of. apply keeps_bind; [apply keeps_get_invitation|].
  intros i. destruct (game i); [|apply keeps_fault].
  apply keeps_bind; [apply keeps_get_game|]. intros g. apply keeps_ret.
Qed.

Lemma keeps_player_name_of (client : nat) : keeps (player_name_of client).
Proof.
  unfold player_name_of. apply keeps_bind; [apply keeps_get_client|].
  intros c. destruct (player c); [|apply keeps_fault].
  apply keeps_bind; [apply keeps_get_player|]. intros p. apply keeps_ret.
Qed.

(** Going through the body of an operation. *)
Ltac keeps_step :=
  match goal with
  | |- keeps (mbind _ _) => apply keeps_bind; [|intros ?]
  | |- keeps (ret _) => apply keeps_ret
  | |- keeps (mret _) => apply keeps_mret
  | |- keeps fault => apply keeps_fault
  | |- keeps (get_client _) => apply keeps_get_client
  | |- keeps (get_invitation _) => apply keeps_get_invitation
  | |- keeps (get_game _) => apply keeps_get_game
  | |- keeps (get_player _) => apply keeps_get_player
  | |- keeps (put_game _ _) => apply keeps_put_game
  | |- keeps (client_send_packet _ _ _) =>
      apply keeps_client_send_packet; discriminate
  | |- keeps (client_remove_invitation _ _) => apply keeps_client_remove_invitation
  | |- keeps (client_add_invitation _ _) => apply keeps_client_add_invitation
  | |- keeps (inv_create _ _ _ _) => apply keeps_inv_create
  | |- keeps (inv_accept _) => apply keeps_inv_accept
  | |- keeps (inv_close _ _) => apply keeps_inv_close
  | |- keeps (player_post_result _ _ _) => apply keeps_player_post_result
  | |- keeps (unparse_game_of _) => apply keeps_unparse_game_of
  | |- keeps (player_name_of _) => apply keeps_player_name_of
  | |- keeps (if ?b then _ else _) => destruct b
  | |- keeps (match ?x with _ => _ end) => destruct x
  | |- keeps (let _ := _ in _) => cbv zeta
  end.

Lemma keeps_end_game (client : nat) (id : Z) (opp : nat) (oppid r : Z)
    (inv g : nat) : keeps (end_game client id opp oppid r inv g).
Proof. unfold end_game. repeat keeps_step. Qed.

Lemma keeps_client_make_invitation (src tgt : nat) (sr tr : GAME_ROLE) :
  keeps (client_make_invitation src tgt sr tr).
Proof. unfold client_make_invitation. repeat keeps_step. Qed.

Lemma keeps_client_revoke_invitation (client id : nat) :
  keeps (client_revoke_invitation client id).
Proof. unfold client_revoke_invitation. repeat keeps_step. Qed.

Lemma keeps_client_decline_invitation (client id : nat) :
  keeps (client_decline_invitation client id).
Proof. unfold client_decline_invitation. repeat keeps_step. Qed.

Lemma keeps_client_accept_invitation (client id : nat) :
  keeps (client_accept_invitation client id).
Proof. unfold client_accept_invitation. repeat keeps_step. Qed.

Lemma keeps_client_resign_game (client id : nat) :
  keeps (client_resign_game client id).
Proof.
  unfold client_resign_game.
  repeat first [apply keeps_end_game | keeps_step].
Qed.

Lemma keeps_client_make_move (client id : nat) (move : string) :
  keeps (client_make_move client id move).
Proof.
  unfold client_make_move.
  repeat first [apply keeps_end_game | keeps_step].
Qed.

Lemma keeps_logout_step (client i : nat) : keeps (logout_step client i).
Proof.
  unfold logout_step.
  repeat first [apply keeps_client_revoke_invitation
               | apply keeps_client_decline_invitation
               | apply keeps_client_resign_game
               | keeps_step].
Qed.

Lemma keeps_for_each (l : list nat) (body : nat → M unit) :
  (∀ i, keeps (body i)) → keeps (for_each l body).
Proof.
  intros Hb. induction l as [|i l IH]; simpl.
  - apply keeps_ret.
  - apply keeps_bind; [apply Hb|intros _; exact IH].
Qed.

Lemma heap_okb_ok (w : World) : heap_okb w = true → heap_ok w.
Proof.
  unfold heap_okb. rewrite andb_true_iff, !forallb_forall.
  intros [Hi Hx] p Hp. split.
  - destruct (invitations w !! p) as [i|] eqn:E; [|done].
    apply elem_of_map_to_list, list_elem_of_In, Hi in E.
    apply Nat.ltb_lt in E. simpl in E. lia.
  - destruct (players w !! p) as [x|] eqn:E; [|done].
    apply elem_of_map_to_list, list_elem_of_In, Hx in E.
    apply Nat.ltb_lt in E. simpl in E. lia.
Qed.

(** X26.  What the six invitation and game operations of a client never
    touch.  When one of them returns, every client of the store is still
    there with its descriptor and its player, no client has appeared, the
    players have kept their names, every invitation has kept its source,
    its target and their roles, no invitation that had left the OPEN state
    is OPEN again and no CLOSED one has left that state, the two
    registries are as they were, and what the operation has written are
    notifications: it never writes an ACK or a NACK itself. *)
Theorem operations_keep_the_frame (w w' : World) (client tgt id : nat)
    (sr tr : GAME_ROLE) (move : string) :
  heap_ok w →
  (∃ r, client_make_invitation client tgt sr tr w = Ret r w')
  ∨ (∃ r, client_revoke_invitation client id w = Ret r w')
  ∨ (∃ r, client_decline_invitation client id w = Ret r w')
  ∨ (∃ r, client_accept_invitation client id w = Ret r w')
  ∨ (∃ r, client_resign_game client id w = Ret r w')
  ∨ (∃ r, client_make_move client id move w = Ret r w') →
  heap_ok w' ∧ untouched w w'.
Proof.
  intros Hh Hrun.
  assert (Hf : frame w w').
  { destruct Hrun as [[r Hr]|[[r Hr]|[[r Hr]|[[r Hr]|[[r Hr]|[r Hr]]]]]].
    - exact (keeps_client_make_invitation _ _ _ _ _ _ _ Hr).
    - exact (keeps_client_revoke_invitation _ _ _ _ _ Hr).
    - exact (keeps_client_decline_invitation _ _ _ _ _ Hr).
    - exact (keeps_client_accept_invitation _ _ _ _ _ Hr).
    - exact (keeps_client_resign_game _ _ _ _ _ Hr).
    - exact (keeps_client_make_move _ _ _ _ _ _ Hr). }
  destruct (Hf Hh) as (Hh' & _ & Hu). by split.
Qed.

(** The theorem at bob's acceptance of alice's invitation. *)
Lemma operations_keep_the_frame_witness :
  heap_ok accepted_world ∧ untouched open_world accepted_world.
Proof.
  apply (operations_keep_the_frame open_world accepted_world open_bob O O 0 0 "").
  - apply heap_okb_ok. vm_compute. reflexivity.
  - right. right. right. left. eexists. vm_compute. reflexivity.
Defined.

(** X27.  [client_logout] on a client that is not logged in returns -1
    and changes nothing.  On a client that is logged in, a call that
    returns has returned 0; the client is then logged out and has kept its
    descriptor; every other client has kept its descriptor and its
    player, so that nobody else is logged out or in; the registries are as
    they were: the client stays registered and its player stays known; and
    all that has been written are notifications. *)
Theorem client_logout_spec (w w' : World) (client : nat) (c : CLIENT) (r : Z) :
  heap_ok w → clients w !! client = Some c →
  client_logout client w = Ret r w' →
  if bool_decide (player c = None) then r = -1 ∧ w' = w
  else
    r = 0
    ∧ (∃ c', clients w' !! client = Some c'
             ∧ player c' = None ∧ connfd c' = connfd c)
    ∧ (∀ p x, p ≠ client → clients w !! p = Some x →
         ∃ x', clients w' !! p = Some x'
               ∧ connfd x' = connfd x ∧ player x' = player x)
    ∧ (∀ p, clients w !! p = None → clients w' !! p = None)
    ∧ client_registry w' = client_registry w
    ∧ player_registry w' = player_registry w
    ∧ ∃ rest, sent w' = sent w ++ rest ∧ Forall notification rest.
Proof.
  intros Hh Hc. unfold client_logout.
  unfold mbind at 1, M_bind at 1, bind at 1, get_client. rewrite Hc.
  case_bool_decide as Hp.
  { unfold ret. by intros [= <- <-]. }
  unfold mbind at 1, M_bind at 1, bind at 1, put_client, modify.
  set (w0 := set_clients _ w).
  unfold mbind at 1, M_bind at 1, bind at 1.
  destruct (for_each _ _ w0) as [[] w1| |] eqn:Hrun; [|done|done].
  unfold ret. intros [= <- <-]. split; [done|].
  assert (Hh0 : heap_ok w0) by exact Hh.
  pose proof (keeps_for_each _ _ (keeps_logout_step client) w0 tt w1 Hrun Hh0)
    as (_ & _ & [U1 U2 _ _ (U3 & U4 & _) U5]).
  split.
  { destruct (U1 client (mkCLIENT (connfd c) None (invlist c)))
      as (c' & Hc' & Hfd & Hpl).
    - subst w0. cbn [clients set_clients]. by rewrite lookup_insert_eq.
    - exists c'. by split. }
  split.
  { intros p x Hne Hx. apply U1. subst w0. cbn [clients set_clients].
    by rewrite lookup_insert_ne. }
  split.
  { intros p Hx. apply U2. subst w0. cbn [clients set_clients].
    rewrite lookup_insert_ne; [done|]. intros <-. congruence. }
  split; [exact U3|]. split; [exact U4|exact U5].
Qed.

(** The theorem at alice's logout while her invitation to bob is open. *)
Lemma client_logout_spec_witness :
  let c := default (mkCLIENT 0 None []) (clients open_world !! open_alice) in
  let w' := world_of (client_logout open_alice open_world) in
  if bool_decide (player c = None) then 0 = -1 ∧ w' = open_world
  else
    0 = 0
    ∧ (∃ c', clients w' !! open_alice = Some c'
             ∧ player c' = None ∧ connfd c' = connfd c)
    ∧ (∀ p x, p ≠ open_alice → clients open_world !! p = Some x →
         ∃ x', clients w' !! p = Some x'
               ∧ connfd x' = connfd x ∧ player x' = player x)
    ∧ (∀ p, clients open_world !! p = None → clients w' !! p = None)
    ∧ client_registry w' = client_registry open_world
    ∧ player_registry w' = player_registry open_world
    ∧ ∃ rest, sent w' = sent open_world ++ rest ∧ Forall notification rest.
Proof.
  cbv zeta. apply client_logout_spec.
  - apply heap_okb_ok. vm_compute. reflexivity.
  - vm_compute. reflexivity.
  - vm_compute. reflexivity.
Defined.

End FrameProps.

(** ** The service loop *)

Module ServiceProps.
Import Game Player Packet Store Objects Client Registry Service Runs Specs.
Import Invariants ClientFacts RegistryProps InvitationProps FrameProps.
Local Open Scope Z_scope.

(** A write to a client whose connection takes it. *)
Lemma client_send_packet_ok (w : World) (client : nat) (c : CLIENT)
    (hdr : JEUX_PACKET_HEADER) (data : option string) :
  clients w !! client = Some c → connfd c ∉ broken w →
  client_send_packet client hdr data w
  = Ret 0 (set_sent (sent w ++ [mkPACKET (connfd c) hdr (payload_bytes hdr data)]) w).
Proof.
  intros Hc Hb. unfold client_send_packet, proto_send_packet. munfold.
  rewrite Hc. by rewrite bool_decide_eq_false_2.
Qed.

Lemma quiet_refl (w : World) (client : nat) (c : CLIENT) :
  heap_ok w → clients w !! client = Some c → quiet w w client c.
Proof.
  intros Hh Hc. split; [split; [done|split; [done|eauto]]|].
  exists []. split; [by rewrite app_nil_r|constructor].
Qed.

Lemma frame_quiet (w w1 : World) (client : nat) (c : CLIENT) :
  heap_ok w → frame w w1 → clients w !! client = Some c →
  quiet w w1 client c.
Proof.
  intros Hh Hf Hc.
  destruct (Hf Hh) as (Hh1 & _ & [U1 _ _ _ (_ & _ & U5) U6]).
  destruct (U1 client c Hc) as (c1 & Hc1 & Hfd & _).
  split; [split; [done|split; [done|eauto]]|done].
Qed.

(** The reply written after a quiet part of the turn. *)
Lemma reply_after (w w1 w' : World) (client : nat) (c : CLIENT)
    (hdr : JEUX_PACKET_HEADER) (data : option string) (r : Z) :
  quiet w w1 client c → connfd c ∉ broken w →
  hdr_type hdr = JEUX_ACK_PKT ∨ hdr_type hdr = JEUX_NACK_PKT →
  client_send_packet client hdr data w1 = Ret r w' →
  r = 0 ∧ replied w w' (connfd c) ∧ connection_kept w w' client c.
Proof.
  intros ((Hh1 & Hbr & c1 & Hc1 & Hfd) & rest & Hs & Hn) Hb Hty Hrun.
  rewrite (client_send_packet_ok w1 client c1 hdr data Hc1
             ltac:(rewrite Hfd, Hbr; exact Hb)) in Hrun.
  injection Hrun as <- <-. split; [done|]. split.
  - exists rest, (mkPACKET (connfd c1) hdr (payload_bytes hdr data)).
    cbn [sent set_sent]. rewrite Hs, <- app_assoc. by rewrite Hfd.
  - split; [exact Hh1|]. split; [exact Hbr|]. by exists c1.
Qed.

Lemma nack_after (w w1 w' : World) (client : nat) (c : CLIENT) (l l' : bool) :
  quiet w w1 client c → connfd c ∉ broken w →
  (client_send_nack client;; ret l) w1 = Ret l' w' →
  l' = l ∧ replied w w' (connfd c) ∧ connection_kept w w' client c.
Proof.
  intros Hq Hb. unfold client_send_nack, mbind, M_bind, bind, ret.
  destruct (client_send_packet _ _ _ w1) as [r w2| |] eqn:Hs; [|done|done].
  intros [= <- <-].
  destruct (reply_after w w1 w2 client c (mkHDR JEUX_NACK_PKT 0 0 0) None r Hq Hb
              ltac:(by right) Hs) as [_ Hr].
  by split.
Qed.

Lemma ack_after (w w1 w' : World) (client : nat) (c : CLIENT)
    (data : option string) (datalen : Z) (l l' : bool) :
  quiet w w1 client c → connfd c ∉ broken w →
  (client_send_ack client data datalen;; ret l) w1 = Ret l' w' →
  l' = l ∧ replied w w' (connfd c) ∧ connection_kept w w' client c.
Proof.
  intros Hq Hb. unfold client_send_ack, mbind, M_bind, bind, ret.
  destruct (client_send_packet _ _ _ w1) as [r w2| |] eqn:Hs; [|done|done].
  intros [= <- <-].
  destruct (reply_after w w1 w2 client c (mkHDR JEUX_ACK_PKT 0 0 (uint16 datalen)) data r
              Hq Hb ltac:(by left) Hs) as [_ Hr].
  by split.
Qed.

(** The two searches through the registry change nothing. *)
Lemma creg_lookup_from_same (l : list (option nat)) (user : string)
    (w w' : World) (r : option nat) :
  creg_lookup_from l user w = Ret r w' → w' = w.
Proof.
  induction l as [|[cp|] l IH]; simpl.
  - by intros [= _ <-].
  - munfold. destruct (clients w !! cp) as [c|]; [|done].
    destruct (player c) as [pp|]; [|exact IH].
    destruct (players w !! pp) as [p|]; [|done].
    destruct (String.eqb user (username p)); [by intros [= _ <-]|exact IH].
  - exact IH.
Qed.

Lemma creg_all_players_from_same (l : list (option nat)) (w w' : World)
    (r : list nat) :
  creg_all_players_from l w = Ret r w' → w' = w.
Proof.
  revert r. induction l as [|[cp|] l IH]; intros r; simpl.
  - by intros [= _ <-].
  - munfold. destruct (clients w !! cp) as [c|]; [|done].
    destruct (player c) as [pp|]; [|apply IH].
    destruct (creg_all_players_from l w) as [rest w1| |] eqn:Hrest; [|done|done].
    intros [= _ <-]. by apply (IH rest).
  - apply IH.
Qed.

Lemma get_players_same (l : list nat) (w w' : World) (r : list PLAYER) :
  get_players l w = Ret r w' → w' = w.
Proof.
  revert r. induction l as [|pp l IH]; intros r; simpl.
  - by intros [= _ <-].
  - munfold. destruct (players w !! pp) as [p|]; [|done].
    destruct (get_players l w) as [ps w1| |] eqn:Hps; [|done|done].
    intros [= _ <-]. by apply (IH ps).
Qed.

Lemma creg_lookup_same (user : string) (w w' : World) (r : option nat) :
  creg_lookup user w = Ret r w' → w' = w.
Proof.
  unfold creg_lookup, get_creg. munfold. apply creg_lookup_from_same.
Qed.

Lemma creg_all_players_same (w w' : World) (r : list nat) :
  creg_all_players w = Ret r w' → w' = w.
Proof.
  unfold creg_all_players, get_creg. munfold. apply creg_all_players_from_same.
Qed.

(** Up to the reply, a LOGIN turn writes nothing and keeps the
    connection. *)
Lemma login_quiet (w w1 : World) (client : nat) (c : CLIENT) (name : string)
    (i : Z) :
  heap_ok w → clients w !! client = Some c →
  (player ← preg_register name; client_login client player) w = Ret i w1 →
  quiet w w1 client c.
Proof.
  intros Hh Hc. unfold mbind at 1, M_bind at 1, bind at 1.
  destruct (preg_register name w) as [pl w0| |] eqn:Hreg; [|done|done].
  assert (H0 : quiet w w0 client c).
  { unfold preg_register in Hreg.
    destruct (preg_find (player_registry w) name).
    - injection Hreg as <- <-. by apply quiet_refl.
    - unfold player_create in Hreg. revert Hreg. munfold. unfold modify.
      intros [= <- <-].
      split; [split; [|split; [done|eauto]]|].
      + intros p Hp. cbn in Hp |- *. rewrite lookup_insert_ne by lia.
        apply Hh. lia.
      + exists []. split; [by rewrite app_nil_r|constructor]. }
  destruct H0 as ((Hh0 & Hbr & c0 & Hc0 & Hfd) & Hse).
  unfold client_login. munfold. rewrite Hc0.
  case_bool_decide.
  { intros [= <- <-]. split; [split; [done|split; [done|eauto]]|done]. }
  destruct (players w0 !! pl) as [p|]; [|done].
  unfold creg_lookup. munfold. unfold get_creg.
  destruct (creg_lookup_from _ _ w0) as [other w2| |] eqn:Hl; [|done|done].
  apply creg_lookup_from_same in Hl as ->.
  case_bool_decide.
  { intros [= <- <-]. split; [split; [done|split; [done|eauto]]|done]. }
  rewrite Hc0. unfold modify. intros [= <- <-].
  split; [split; [exact Hh0|split; [exact Hbr|]]|exact Hse].
  cbn [clients set_clients]. rewrite lookup_insert_eq. eauto.
Qed.

(** X28.  Every request gets its answer.  A turn of the service loop
    that runs to its end for a client whose descriptor takes writes has
    written exactly one ACK or NACK to that descriptor, as the last
    packet of the turn; whatever it has written before are notifications.
    The turn leaves the descriptor of the client, the broken descriptors
    and the free part of the heap as they were, so that the next turn
    answers in the same way. *)
Theorem one_reply_per_request (w w' : World) (client : nat) (c : CLIENT)
    (login login' : bool) (ty : option JEUX_PACKET_TYPE) (id : nat) (role : Z)
    (payload : string) :
  heap_ok w → clients w !! client = Some c → connfd c ∉ broken w →
  jeux_client_service_step client login ty id role payload w = Ret login' w' →
  replied w w' (connfd c) ∧ connection_kept w w' client c.
Proof.
  intros Hh Hc Hb.
  assert (Hnack : ∀ (l l' : bool) w1 w2, quiet w w1 client c →
            (client_send_nack client;; ret l) w1 = Ret l' w2 →
            replied w w2 (connfd c) ∧ connection_kept w w2 client c).
  { intros l l0 w1 w2 Hq Hrun.
    by destruct (nack_after w w1 w2 client c l l0 Hq Hb Hrun) as [_ ?]. }
  assert (Hack : ∀ (l l' : bool) d n w1 w2, quiet w w1 client c →
            (client_send_ack client d n;; ret l) w1 = Ret l' w2 →
            replied w w2 (connfd c) ∧ connection_kept w w2 client c).
  { intros l l0 d n w1 w2 Hq Hrun.
    by destruct (ack_after w w1 w2 client c d n l l0 Hq Hb Hrun) as [_ ?]. }
  assert (Hop : ∀ (m : M Z) w2,
            keeps m →
            (r ← m;
             if negb (r =? 0) then client_send_nack client;; ret login
             else client_send_ack client None 0;; ret login) w = Ret login' w2 →
            replied w w2 (connfd c) ∧ connection_kept w w2 client c).
  { intros m w2 Hk. unfold mbind at 1, M_bind at 1, bind at 1.
    destruct (m w) as [r w1| |] eqn:Hm; [|done|done].
    pose proof (frame_quiet w w1 client c Hh (Hk w r w1 Hm) Hc) as Hq.
    destruct (negb (r =? 0)); [apply (Hnack _ _ _ _ Hq)|apply (Hack _ _ _ _ _ _ Hq)]. }
  pose proof (quiet_refl w client c Hh Hc) as Hq0.
  unfold jeux_client_service_step.
  destruct ty as [[]|]; destruct login; cbn [negb];
    try (apply (Hnack _ _ _ _ Hq0)).
  - (* LOGIN *)
    intros Hrun.
    destruct ((player ← preg_register (c_str payload); client_login client player) w)
      as [i w1| |] eqn:Hlog.
    + pose proof (login_quiet w w1 client c _ i Hh Hc Hlog) as Hq.
      revert Hrun Hlog. unfold mbind, M_bind, bind.
      destruct (preg_register (c_str payload) w) as [pl w0| |]; [|done|done].
      intros Hrun Hlog. rewrite Hlog in Hrun. revert Hrun.
      destruct (i =? 0); [apply (Hack _ _ _ _ _ _ Hq)|apply (Hnack _ _ _ _ Hq)].
    + revert Hrun Hlog. unfold mbind, M_bind, bind.
      destruct (preg_register (c_str payload) w) as [pl w0| |]; [|done|done].
      intros Hrun Hlog. by rewrite Hlog in Hrun.
    + revert Hrun Hlog. unfold mbind, M_bind, bind.
      destruct (preg_register (c_str payload) w) as [pl w0| |]; [|done|done].
      intros Hrun Hlog. by rewrite Hlog in Hrun.
  - (* USERS *)
    unfold mbind at 1, M_bind at 1, bind at 1.
    destruct (creg_all_players w) as [pls w1| |] eqn:Hpl; [|done|done].
    apply creg_all_players_same in Hpl as ->.
    unfold mbind at 1, M_bind at 1, bind at 1.
    destruct (get_players pls w) as [ps w1| |] eqn:Hps; [|done|done].
    apply get_players_same in Hps as ->.
    apply (Hack _ _ _ _ _ _ Hq0).
  - (* INVITE *)
    unfold mbind at 1, M_bind at 1, bind at 1.
    destruct (creg_lookup _ w) as [target w1| |] eqn:Hl; [|done|done].
    apply creg_lookup_same in Hl as ->.
    destruct target as [t|]; [|apply (Hnack _ _ _ _ Hq0)].
    cbv zeta. unfold mbind at 1, M_bind at 1, bind at 1.
    destruct (client_make_invitation _ _ _ _ w) as [sid w1| |] eqn:Hm; [|done|done].
    pose proof (frame_quiet w w1 client c Hh
                  (keeps_client_make_invitation _ _ _ _ w sid w1 Hm) Hc) as Hq.
    destruct (sid =? -1); [apply (Hnack _ _ _ _ Hq)|].
    unfold mbind at 1, M_bind at 1, bind at 1.
    destruct (client_send_packet _ _ _ w1) as [r w2| |] eqn:Hs; [|done|done].
    eapply (reply_after w w1 w2 client c) in Hs as (-> & Hr & Hk);
      [|exact Hq|exact Hb|by left].
    cbn [Z.eqb negb]. unfold ret. by intros [= _ <-].
  - (* REVOKE *) apply Hop, keeps_client_revoke_invitation.
  - (* ACCEPT *)
    unfold mbind at 1, M_bind at 1, bind at 1.
    destruct (client_accept_invitation _ _ w) as [rs w1| |] eqn:Hm; [|done|done].
    pose proof (frame_quiet w w1 client c Hh
                  (keeps_client_accept_invitation _ _ w rs w1 Hm) Hc) as Hq.
    destruct (negb (rs.1 =? 0)); [apply (Hnack _ _ _ _ Hq)|].
    destruct (rs.2) as [str|].
    + unfold mbind at 1, M_bind at 1, bind at 1.
      destruct (client_send_packet _ _ _ w1) as [r w2| |] eqn:Hs; [|done|done].
    eapply (reply_after w w1 w2 client c) in Hs as (-> & Hr & Hk);
      [|exact Hq|exact Hb|by left].
      cbn [Z.eqb]. unfold ret. by intros [= _ <-].
    + unfold mbind at 1, M_bind at 1, bind at 1.
      destruct (client_send_packet _ _ _ w1) as [r w2| |] eqn:Hs; [|done|done].
    eapply (reply_after w w1 w2 client c) in Hs as (-> & Hr & Hk);
      [|exact Hq|exact Hb|by left].
      cbn [Z.eqb]. unfold ret. by intros [= _ <-].
  - (* DECLINE *) apply Hop, keeps_client_decline_invitation.
  - (* MOVE *) apply Hop, keeps_client_make_move.
  - (* RESIGN *) apply Hop, keeps_client_resign_game.
Qed.

(** The theorem at bob's ACCEPT of alice's open invitation. *)
Lemma one_reply_per_request_witness :
  let c := default (mkCLIENT 0 None []) (clients open_world !! open_bob) in
  let w' := world_of (jeux_client_service_step open_bob true
                        (Some JEUX_ACCEPT_PKT) 0 0 "" open_world) in
  replied open_world w' (connfd c) ∧ connection_kept open_world w' open_bob c.
Proof.
  cbv zeta.
  apply (one_reply_per_request open_world _ open_bob _ true true
           (Some JEUX_ACCEPT_PKT) 0 0 "").
  - apply heap_okb_ok. vm_compute. reflexivity.
  - vm_compute. reflexivity.
  - vm_compute. by intros ?%elem_of_nil.
  - vm_compute. reflexivity.
Defined.















End ServiceProps.
